(** * SuperEnalotto sestine: generation core and probability engine

    A shallow embedding of [src/lib/rng.ts], [src/lib/sestine.ts],
    [src/lib/stats.ts] and of the generation, regeneration, editing,
    validation, input and probability functions of [src/App.tsx],
    followed by the properties of the specification that were checked
    against them and by further properties of the same code.

    Conventions of the embedding.
    - A JavaScript number holding an integer is a [Z]; the 32-bit
      conversions performed by the bitwise operators are written out
      ([toInt32], [toUint32]).  Every intermediate value of the generators
      stays below 2^53, so the floating point operations of the source are
      exact on them.
    - A float drawn from an [RNG] is always [u / 2^32] for a 32-bit [u];
      the embedding carries the numerator [u].
    - [Set<number>] and [Set<string>] are [gset]s: the code only uses
      [has], [add], [delete], [size] and a copy followed by a sort.
    - Strings are [string]s (code units below 256).
    - The probability functions are evaluated over exact rationals. *)

From Stdlib Require Import ZArith List Lia QArith Qcanon.
From stdpp Require Import gmap strings pretty sorting list.

Local Open Scope Z_scope.
#[local] Set Warnings "-clear-no-such-hyp".

(** ** JavaScript primitives *)

Module JS.

Definition two32 : Z := 4294967296.

(** [x >>> 0] *)
Definition toUint32 (x : Z) : Z := x mod two32.

(** [x | 0] *)
Definition toInt32 (x : Z) : Z := (x + 2147483648) mod two32 - 2147483648.

(** [Math.imul(a, b)] *)
Definition imul (a b : Z) : Z := toInt32 (toInt32 a * toInt32 b).

(** [a ^ b] *)
Definition xor (a b : Z) : Z := Z.lxor (toInt32 a) (toInt32 b).

(** [a | b] *)
Definition or (a b : Z) : Z := Z.lor (toInt32 a) (toInt32 b).

(** [a << n] *)
Definition shl (a n : Z) : Z := toInt32 (Z.shiftl (toInt32 a) n).

(** [a >>> n] *)
Definition shru (a n : Z) : Z := Z.shiftr (toUint32 a) n.

(** [s.charCodeAt(i)] for every [i], in order *)
Definition charCodes (s : string) : list Z :=
  (fun a => Z.of_N (Ascii.N_of_ascii a)) <$> String.list_ascii_of_string s.

(** White space and line terminators removed by [String.prototype.trim]
    (those below 256). *)
Definition isSpace (a : Ascii.ascii) : bool :=
  let c := Ascii.N_of_ascii a in
  ((9 <=? c) && (c <=? 13) || (c =? 32) || (c =? 160))%N.

Fixpoint trimStart (s : string) : string :=
  match s with
  | EmptyString => EmptyString
  | String a s' => if isSpace a then trimStart s' else s
  end.

Definition trim (s : string) : string :=
  String.rev (trimStart (String.rev (trimStart s))).

(** [`${n}`] for an integer [n] *)
Definition numToString (n : Z) : string := pretty n.

(** [xs.join(sep)] *)
Fixpoint join (sep : string) (xs : list string) : string :=
  match xs with
  | [] => EmptyString
  | [x] => x
  | x :: rest => x +:+ sep +:+ join sep rest
  end.

(** [xs.sort((a, b) => cmp(a, b))]: [a] stays before [b] when
    [cmp(a, b) <= 0]. *)
Definition sortBy {A} (cmp : A → A → Z) (xs : list A) : list A :=
  @merge_sort A (λ a b, cmp a b ≤ 0) (λ a b, decide (cmp a b ≤ 0)) xs.

End JS.

(** ** src/lib/rng.ts *)

(** [type RNG = () => number]: a closure over a mutable state; a call
    returns the numerator [u] of the float [u / 2^32] and the next state. *)
Class RNG (R : Type) := {
  rng_call : R → Z * R;
  rng_call_range : ∀ r, 0 ≤ (rng_call r).1 < JS.two32
}.

Module Rng.
Import JS.

(** State [h] of the closure returned by [xfnv1a(str)]. *)
Definition xfnv1a (str : string) : Z :=
  fold_left (λ h c, imul (xor h c) 16777619) (charCodes str) (toUint32 2166136261).

(** One call of the closure returned by [xfnv1a]. *)
Definition xfnv1a_call (h : Z) : Z * Z :=
  let h := h + shl h 13 in
  let h := xor h (shru h 7) in
  let h := h + shl h 3 in
  let h := xor h (shru h 17) in
  let h := h + shl h 5 in
  (toUint32 h, h).

(** State [a] of the closure returned by [mulberry32(seed)]. *)
Definition mulberry32 (seed : Z) : Z := toUint32 seed.

Definition mulberry32_call (a : Z) : Z * Z :=
  let a := toInt32 a in
  let a := toInt32 (a + 1831565813) in
  let t := imul (xor a (shru a 15)) (or 1 a) in
  let t := xor t (t + imul (xor t (shru t 7)) (or 61 t)) in
  (toUint32 (xor t (shru t 14)), a).

Definition rngFromSeed (seed : string) : Z :=
  let n := toUint32 (xfnv1a_call (xfnv1a seed)).1 in
  mulberry32 n.

End Rng.

#[export] Instance mulberry32_RNG : RNG Z :=
  {| rng_call := Rng.mulberry32_call;
     rng_call_range := λ a, Z.mod_pos_bound _ JS.two32 eq_refl |}.

(** ** src/lib/sestine.ts *)

(** The three ways a generation gives up.  The source throws [Error]s that
    differ by their message only:
    - [ImpossibleConstraint]: "Vincolo impossibile: troppi numeri obbligatori (>6)."
    - [GenerationExhausted]: "Impossibile soddisfare i vincoli (loop)."
    - [UniquenessExhausted]: "Impossibile generare sestine uniche: troppi duplicati (limite nonce)." *)
Inductive GenError := ImpossibleConstraint | GenerationExhausted | UniquenessExhausted.

(** Result of running a piece of code: it returns, it throws, or it is
    still calling [generateRandomSestinaWithConstraints] again when the
    fuel of the embedding is spent ([Diverged]). *)
Inductive outcome (A : Type) :=
  | Returned (a : A)
  | Threw (e : GenError)
  | Diverged.
Arguments Returned {A} a.
Arguments Threw {A} e.
Arguments Diverged {A}.

Definition SestinaNums := list Z.

Record Meta := {
  metaSeed : option string;
  attemptNonce : Z;
  superstitionMode : option bool
}.

Record Sestina := {
  nums : SestinaNums;
  key : string;
  createdAt : Z;
  frozen : bool;
  meta : option Meta
}.

Definition MIN_NUM : Z := 1.
Definition MAX_NUM : Z := 90.

Record Constraints := {
  exclude : list Z;
  mustInclude : list Z;
  mustIncludeAnyOf : list Z
}.

Record Options := {
  optSeed : option string;
  optSuperstitionMode : option bool
}.

Definition normalizeNums (nums : list Z) : SestinaNums :=
  JS.sortBy (λ a b, a - b) nums.

Definition sestinaKey (nums : list Z) : string :=
  JS.join "-" (JS.numToString <$> normalizeNums nums).

Definition isValidSestina (nums : list Z) (c : Constraints) : bool :=
  let set : gset Z := list_to_set nums in
  if existsb (λ ex, bool_decide (ex ∈ set)) (exclude c) then false
  else if existsb (λ mi, negb (bool_decide (mi ∈ set))) (mustInclude c) then false
  else if (0 <? Z.of_nat (length (mustIncludeAnyOf c))) then
    existsb (λ x, bool_decide (x ∈ set)) (mustIncludeAnyOf c)
  else true.

(** Number of draws the fill loop may take: [guard > 100_000] throws. *)
Definition FILL_GUARD : nat := Z.to_nat 100000.

(** Number of times a slot may increment its nonce: [nonce > 50_000] throws. *)
Definition NONCE_GUARD : nat := Z.to_nat 50000.

Section Sestine.
Context {R : Type} `{RNG R}.

Definition rngInt (rng : R) (min max : Z) : Z * R :=
  let '(u, rng') := rng_call rng in
  (u * (max - min + 1) / JS.two32 + min, rng').

(** The loop [while (picked.size < 6)]; [budget] is [100_000 - guard]. *)
Fixpoint fill (budget : nat) (c : Constraints) (picked : gset Z) (rng : R)
  : outcome (gset Z) * R :=
  if decide (size picked < 6)%nat then
    match budget with
    | O => (Threw GenerationExhausted, rng)
    | S budget' =>
        let '(x, rng') := rngInt rng MIN_NUM MAX_NUM in
        if decide (x ∈ picked) then fill budget' c picked rng'
        else if decide (x ∈ exclude c) then fill budget' c picked rng'
        else fill budget' c ({[x]} ∪ picked) rng'
    end
  else (Returned picked, rng).

(** [fuel] bounds the number of times the function calls itself again
    after a sample failed [isValidSestina]; the source has no such bound. *)
Fixpoint generateRandomSestinaWithConstraints (fuel : nat) (rng : R) (c : Constraints)
  : outcome SestinaNums * R :=
  let picked : gset Z := list_to_set (mustInclude c) in
  if decide (6 < size picked)%nat then (Threw ImpossibleConstraint, rng)
  else
    match fill FILL_GUARD c picked rng with
    | (Returned picked', rng') =>
        let nums := normalizeNums (elements picked') in
        if isValidSestina nums c then (Returned nums, rng')
        else
          match fuel with
          | O => (Diverged, rng')
          | S fuel' => generateRandomSestinaWithConstraints fuel' rng' c
          end
    | (Threw e, rng') => (Threw e, rng')
    | (Diverged, rng') => (Diverged, rng')
    end.

(** [W] is the state of whatever [rngFactory] reads besides its argument
    (the entropy source, in the unseeded regeneration). *)
Context {W : Type}.

(** The loop [while (!ok)] of one slot; [left] is [50_000 - nonce]. *)
Fixpoint findUnique (fuel : nat) (left : nat) (nonce : Z) (i : Z) (existingKeys : gset string)
    (rngFactory : Z → W → R * W) (c : Constraints) (options : option Options)
    (now : Z) (w : W) : outcome Sestina * W :=
  let '(rng, w') := rngFactory nonce w in
  match (generateRandomSestinaWithConstraints fuel rng c).1 with
  | Returned nums =>
      let key := sestinaKey nums in
      if decide (key ∈ existingKeys) then
        match left with
        | O => (Threw UniquenessExhausted, w')
        | S left' =>
            findUnique fuel left' (nonce + 1) i existingKeys rngFactory c options now w'
        end
      else
        (Returned {| nums := nums; key := key; createdAt := now + i; frozen := false;
                     meta := Some {| metaSeed := options ≫= optSeed;
                                     attemptNonce := nonce;
                                     superstitionMode := options ≫= optSuperstitionMode |} |},
         w')
  | Threw e => (Threw e, w')
  | Diverged => (Diverged, w')
  end.

(** The loop [for (let i = 0; i < count; i++)], entered at slot [i] with
    [n] slots to go.  The set [existingKeys] is the caller's object: its
    final content is returned on every path. *)
Fixpoint slotsFrom (fuel : nat) (n : nat) (i : Z) (out : list Sestina)
    (existingKeys : gset string) (rngFactory : Z → W → R * W) (c : Constraints)
    (options : option Options) (now : Z) (w : W)
  : outcome (list Sestina) * gset string * W :=
  match n with
  | O => (Returned out, existingKeys, w)
  | S n' =>
      match findUnique fuel NONCE_GUARD 0 i existingKeys rngFactory c options now w with
      | (Returned s, w') =>
          slotsFrom fuel n' (i + 1) (out ++ [s]) ({[key s]} ∪ existingKeys)
                    rngFactory c options now w'
      | (Threw e, w') => (Threw e, existingKeys, w')
      | (Diverged, w') => (Diverged, existingKeys, w')
      end
  end.

(** [now] is the value of [new Date().getTime()] read on entry;
    [createdAt] keeps the millisecond count that [toISOString] prints. *)
Definition generateUniqueSestine (fuel : nat) (count : nat) (existingKeys : gset string)
    (rngFactory : Z → W → R * W) (c : Constraints) (options : option Options)
    (now : Z) (w : W) : outcome (list Sestina) * gset string * W :=
  slotsFrom fuel count 0 [] existingKeys rngFactory c options now w.

End Sestine.

(** ** src/lib/storage.ts *)

Inductive GroupEvent :=
  | EvGenerate (evAt : Z) (count : Z) (seed : option string) (constraintsSnapshot : Constraints)
  | EvValidate (evAt : Z) (draw : list Z) (jolly superstar : option Z).

Record Group := {
  id : string;
  name : string;
  groupCreatedAt : string;
  sestine : list Sestina;
  events : list GroupEvent
}.

(** The fields of [Settings] read by the generation functions. *)
Record Settings := {
  seedEnabled : bool;
  seedValue : string;
  superstitionEnabled : bool
}.

Record AppState := {
  groups : list Group;
  settings : Settings
}.

(** ** src/App.tsx: probability engine (over exact rationals) *)

(** The loop [for (let i = 1; i <= k; i++)] of [nCk], with [steps]
    iterations to go. *)
Fixpoint nCk_loop (steps : nat) (i n k : Z) (res : Qc) : Qc :=
  match steps with
  | O => res
  | S steps' => nCk_loop steps' (i + 1) n k ((res * Qc_of_Z (n - (k - i))) / Qc_of_Z i)%Qc
  end.

Definition nCk (n k : Z) : Qc :=
  if (k <? 0) || (n <? k) then 0%Qc
  else
    let k := Z.min k (n - k) in
    nCk_loop (Z.to_nat k) 1 n k 1%Qc.

Definition singleTicketExactMatchProb (r : Z) : Qc :=
  let total := nCk 90 6 in
  ((nCk 6 r * nCk 84 (6 - r)) / total)%Qc.

Record DistEntry := { m : Z; p : Qc }.

(** [pExact]: [Array.from({ length: 7 }, (_, r) => singleTicketExactMatchProb(r))] *)
Definition pExact : list Qc := singleTicketExactMatchProb <$> seqZ 0 7.

(** The running sums [cdf[r] = acc] for [r = 0..6]. *)
Fixpoint runningSums (acc : Qc) (xs : list Qc) : list Qc :=
  match xs with
  | [] => []
  | x :: xs' => let acc := (acc + x)%Qc in acc :: runningSums acc xs'
  end.

Definition cdf : list Qc := runningSums 0%Qc pExact.

Definition atLeastDistribution (kTickets : nat) : list DistEntry :=
  let out :=
    (λ m, {| m := m; p := (1 - (nth (Z.to_nat (m - 1)) cdf 0) ^ kTickets)%Qc |}) <$> seqZ 1 6 in
  JS.sortBy (λ a b, m b - m a) out.

(** ** src/App.tsx: the generation handlers of the [App] component *)

(** What the handlers read from outside the program. *)
Record Host := {
  (** the [i]-th word produced by [crypto.getRandomValues] *)
  entropy : nat → Z;
  (** [new Date().getTime()] as read by the [k]-th call of [generateUniqueSestine] *)
  chunkTime : nat → Z;
  (** [new Date().getTime()] as read when the event is recorded *)
  commitTime : Z;
  (** [abortPressed k]: "Annulla" was pressed before the batch resumed from the
      suspension that follows its [k]-th chunk *)
  abortPressed : nat → bool
}.

(** The variables of one render of [App] that the handlers close over. *)
Record Scope := {
  state : AppState;
  selectedGroupId : option string;
  countToGenerate : Z;
  constraints : Constraints
}.

Inductive Report :=
  | NoGroup          (* the handler returned at once *)
  | NothingToDo      (* [toRegenCount <= 0] *)
  | Committed        (* [setState] was called with the new combinations *)
  | Cancelled        (* [genAbortRef.current] was found set *)
  | Alerted (e : GenError)   (* the error was caught and shown by [alert] *)
  | Uncaught (e : GenError)  (* the error left the handler *)
  | Hung.            (* the sampler did not come back *)

(** Where a handler leaves the program: the state, the content of the
    [globalKeys] object of the render, the content of the handler's own
    [keys] object, and what the user is told. *)
Record Run := {
  run_state : AppState;
  run_globalKeys : gset string;
  run_keys : gset string;
  run_report : Report
}.

Definition selectedGroup (sc : Scope) : option Group :=
  gid ← selectedGroupId sc;
  find (λ g, bool_decide (id g = gid)) (groups (state sc)).

Definition totalSestine (st : AppState) : Z :=
  fold_left (λ acc g, acc + Z.of_nat (length (sestine g))) (groups st) 0.

Definition globalKeys (st : AppState) : gset string :=
  fold_left (λ keys g, fold_left (λ keys s, {[key s]} ∪ keys) (sestine g) keys)
            (groups st) ∅.

(** [genAbortRef.current] as read after [k] chunks: it is reset just
    before the loop is entered. *)
Definition abortFlag (h : Host) (k : nat) : bool :=
  match k with
  | O => false
  | S _ => abortPressed h k
  end.

(** How the loop [while (produced < n)] is left: after [k] chunks with
    the combinations produced so far, or by an error. *)
Inductive LoopExit :=
  | LoopDone (k : nat) (allGenerated : list Sestina) (keys : gset string)
  | LoopThrew (e : GenError) (keys : gset string)
  | LoopHung (keys : gset string)
  | LoopOutOfSteps (keys : gset string).

Section Generate.
Variable fuel : nat.
Variable h : Host.
Variable sc : Scope.
Variable g : Group.

Definition genSeed : string :=
  if seedEnabled (settings (state sc)) then JS.trim (seedValue (settings (state sc))) else EmptyString.

Definition genCount : Z :=
  Z.max 1 (if countToGenerate sc =? 0 then 1 else countToGenerate sc).

Definition baseRng : Z :=
  if seedEnabled (settings (state sc))
  then Rng.rngFromSeed (genSeed +:+ "::" +:+ id g +:+ "::base")
  else Rng.mulberry32 (JS.toUint32 (entropy h 0)).

Definition baseSeedNum : Z := JS.toUint32 (rng_call baseRng).1.

Definition CHUNK : Z :=
  if 5000 <=? genCount then 250
  else if 1000 <=? genCount then 200
  else if 200 <=? genCount then 100
  else 50.

Definition rngFactory (nonceBase : Z) (nonce : Z) (w : unit) : Z * unit :=
  let nn := nonceBase + nonce in
  if seedEnabled (settings (state sc)) then
    (Rng.rngFromSeed
       (genSeed +:+ "::" +:+ id g +:+ "::" +:+ JS.numToString (totalSestine (state sc))
                +:+ "::" +:+ JS.numToString nn), w)
  else (Rng.mulberry32 (JS.toUint32 (baseSeedNum + nn * 1013904223)), w).

Definition genOptions : Options :=
  {| optSeed := if seedEnabled (settings (state sc)) then Some genSeed else None;
     optSuperstitionMode := Some (superstitionEnabled (settings (state sc))) |}.

(** [steps] bounds the number of chunks; [genCount] of them are enough,
    as every chunk adds at least one combination, so that
    [LoopOutOfSteps] is never the way out. *)
Fixpoint chunkLoop (steps : nat) (k : nat) (produced nonceBase : Z)
    (allGenerated : list Sestina) (keys : gset string) : LoopExit :=
  if produced <? genCount then
    if abortFlag h k then LoopDone k allGenerated keys
    else
      match steps with
      | O => LoopOutOfSteps keys
      | S steps' =>
          let take := Z.min CHUNK (genCount - produced) in
          match generateUniqueSestine fuel (Z.to_nat take) keys (rngFactory nonceBase)
                  (constraints sc) (Some genOptions) (chunkTime h k) () with
          | (Returned chunk, keys', _) =>
              chunkLoop steps' (S k) (produced + Z.of_nat (length chunk))
                        (nonceBase + take * 3) (allGenerated ++ chunk) keys'
          | (Threw e, keys', _) => LoopThrew e keys'
          | (Diverged, keys', _) => LoopHung keys'
          end
      end
  else LoopDone k allGenerated keys.

(** The update passed to [setState]; it is applied to the state of the
    render, the batch being run behind a modal dialog. *)
Definition commitGenerated (allGenerated : list Sestina) (st : AppState) : AppState :=
  {| groups :=
       (λ x, if bool_decide (id x ≠ id g) then x
             else {| id := id x; name := name x; groupCreatedAt := groupCreatedAt x;
                     sestine := allGenerated ++ sestine x;
                     events := EvGenerate (commitTime h) genCount
                                 (if seedEnabled (settings (state sc)) then Some genSeed else None)
                                 (constraints sc) :: events x |})
         <$> groups st;
     settings := settings st |}.

Definition generateWith : Run :=
  match chunkLoop (Z.to_nat genCount) 0 0 0 [] (globalKeys (state sc)) with
  | LoopDone k allGenerated keys =>
      if abortFlag h k then
        {| run_state := state sc; run_globalKeys := globalKeys (state sc);
           run_keys := keys; run_report := Cancelled |}
      else
        {| run_state := commitGenerated allGenerated (state sc);
           run_globalKeys := globalKeys (state sc);
           run_keys := keys; run_report := Committed |}
  | LoopThrew e keys =>
      {| run_state := state sc; run_globalKeys := globalKeys (state sc);
         run_keys := keys; run_report := Alerted e |}
  | LoopHung keys | LoopOutOfSteps keys =>
      {| run_state := state sc; run_globalKeys := globalKeys (state sc);
         run_keys := keys; run_report := Hung |}
  end.

End Generate.

Definition generateForSelectedGroup (fuel : nat) (h : Host) (sc : Scope) : Run :=
  match selectedGroup sc with
  | None =>
      {| run_state := state sc; run_globalKeys := globalKeys (state sc);
         run_keys := ∅; run_report := NoGroup |}
  | Some g => generateWith fuel h sc g
  end.

Section Regenerate.
Variable fuel : nat.
Variable h : Host.
Variable sc : Scope.

Definition regenSeed : string :=
  if seedEnabled (settings (state sc)) then JS.trim (seedValue (settings (state sc))) else EmptyString.

(** [keys = new Set(globalKeys)] followed by the loop that deletes the
    key of every combination of [g] that is not frozen. *)
Definition regenKeys (g : Group) : gset string :=
  fold_left (λ keys s, if frozen s then keys else keys ∖ {[key s]})
            (sestine g) (globalKeys (state sc)).

(** The unseeded factory reads one fresh entropy word per call; [w]
    counts the words read so far. *)
Definition regenFactory (g : Group) (nonce : Z) (w : nat) : Z * nat :=
  if seedEnabled (settings (state sc)) then
    (Rng.rngFromSeed (regenSeed +:+ "::" +:+ id g +:+ "::regen::" +:+ JS.numToString nonce), w)
  else (Rng.mulberry32 (JS.toUint32 (JS.toUint32 (entropy h w) + nonce)), S w).

Definition regenOptions : Options :=
  {| optSeed := if seedEnabled (settings (state sc)) then Some regenSeed else None;
     optSuperstitionMode := Some (superstitionEnabled (settings (state sc))) |}.

Definition commitRegenerated (g : Group) (toRegenCount : Z)
    (frozenOnes regenerated : list Sestina) (st : AppState) : AppState :=
  {| groups :=
       (λ x, if bool_decide (id x ≠ id g) then x
             else {| id := id x; name := name x; groupCreatedAt := groupCreatedAt x;
                     sestine := frozenOnes ++ regenerated;
                     events := EvGenerate (commitTime h) toRegenCount
                                 (if seedEnabled (settings (state sc)) then Some regenSeed else None)
                                 (constraints sc) :: events x |})
         <$> groups st;
     settings := settings st |}.

Definition regenerateNonFrozenInGroup (groupId : string) : Run :=
  match find (λ x, bool_decide (id x = groupId)) (groups (state sc)) with
  | None =>
      {| run_state := state sc; run_globalKeys := globalKeys (state sc);
         run_keys := ∅; run_report := NoGroup |}
  | Some g =>
      let frozenOnes := List.filter frozen (sestine g) in
      let toRegenCount := Z.of_nat (length (sestine g)) - Z.of_nat (length frozenOnes) in
      if toRegenCount <=? 0 then
        {| run_state := state sc; run_globalKeys := globalKeys (state sc);
           run_keys := ∅; run_report := NothingToDo |}
      else
        match generateUniqueSestine fuel (Z.to_nat toRegenCount) (regenKeys g)
                (regenFactory g) (constraints sc) (Some regenOptions) (chunkTime h 0) O with
        | (Returned regenerated, keys', _) =>
            {| run_state := commitRegenerated g toRegenCount frozenOnes regenerated (state sc);
               run_globalKeys := globalKeys (state sc);
               run_keys := keys'; run_report := Committed |}
        | (Threw e, keys', _) =>
            {| run_state := state sc; run_globalKeys := globalKeys (state sc);
               run_keys := keys'; run_report := Uncaught e |}
        | (Diverged, keys', _) =>
            {| run_state := state sc; run_globalKeys := globalKeys (state sc);
               run_keys := keys'; run_report := Hung |}
        end
  end.

End Regenerate.

(** ** Views used by the statements *)

(** The same combination, created [d] milliseconds later. *)
Definition restamp (d : Z) (s : Sestina) : Sestina :=
  {| nums := nums s; key := key s; createdAt := createdAt s + d;
     frozen := frozen s; meta := meta s |}.

Definition outcome_map {A B} (f : A → B) (o : outcome A) : outcome B :=
  match o with
  | Returned a => Returned (f a)
  | Threw e => Threw e
  | Diverged => Diverged
  end.

(** The combinations of every group, in order. *)
Definition combos (st : AppState) : list (list SestinaNums) :=
  (λ g, nums <$> sestine g) <$> groups st.

(** Two ways of leaving the chunk loop that differ at most in the
    creation times of the combinations produced. *)
Definition sameExit (x y : LoopExit) : Prop :=
  match x, y with
  | LoopDone k1 all1 keys1, LoopDone k2 all2 keys2 =>
      k1 = k2 ∧ nums <$> all1 = nums <$> all2 ∧ keys1 = keys2
  | LoopThrew e1 keys1, LoopThrew e2 keys2 => e1 = e2 ∧ keys1 = keys2
  | LoopHung keys1, LoopHung keys2 => keys1 = keys2
  | LoopOutOfSteps keys1, LoopOutOfSteps keys2 => keys1 = keys2
  | _, _ => False
  end.

(** The seed string of the stream used by the seeded mode. *)
Definition seededStreamName (seed groupId : string) (total nn : Z) : string :=
  seed +:+ "::" +:+ groupId +:+ "::" +:+ JS.numToString total +:+ "::" +:+ JS.numToString nn.

(** The binomial coefficient, by Pascal's rule. *)
Fixpoint choose (n k : nat) : nat :=
  match n, k with
  | _, O => 1
  | O, S _ => 0
  | S n', S k' => choose n' k' + choose n' (S k')
  end.

(** [CDF(r)]: the sum of the exact-match probabilities of [0..r]. *)
Definition CDF (r : Z) : Qc :=
  foldr Qcplus 0%Qc (singleTicketExactMatchProb <$> seqZ 0 (r + 1)).

(** ** Scenarios *)

(** Every number of the universe is forbidden. *)
Definition cAllExcluded : Constraints :=
  {| exclude := seqZ 1 90; mustInclude := []; mustIncludeAnyOf := [] |}.

(** A mandatory number outside the universe. *)
Definition cHundred : Constraints :=
  {| exclude := []; mustInclude := [100]; mustIncludeAnyOf := [] |}.

(** Two mandatory numbers and a choice among three. *)
Definition cMixed : Constraints :=
  {| exclude := [90]; mustInclude := [7; 14]; mustIncludeAnyOf := [1; 2; 3] |}.

(** Six mandatory numbers, none of which is the one asked for by
    [mustIncludeAnyOf]. *)
Definition cFullAnyOf : Constraints :=
  {| exclude := []; mustInclude := [1; 2; 3; 4; 5; 6]; mustIncludeAnyOf := [7] |}.

(** A number both mandatory and forbidden. *)
Definition cOverlap : Constraints :=
  {| exclude := [1]; mustInclude := [1]; mustIncludeAnyOf := [] |}.

(** More than six mandatory numbers. *)
Definition cSeven : Constraints :=
  {| exclude := []; mustInclude := [1; 2; 3; 4; 5; 6; 7]; mustIncludeAnyOf := [] |}.

(** Six mandatory numbers: one combination only. *)
Definition cSix : Constraints :=
  {| exclude := []; mustInclude := [1; 2; 3; 4; 5; 6]; mustIncludeAnyOf := [] |}.

Definition cFree : Constraints :=
  {| exclude := []; mustInclude := []; mustIncludeAnyOf := [] |}.

(** A factory without side effect: the stream of nonce [n] is [mulberry32(n)]. *)
Definition plainFactory (nonce : Z) (w : unit) : Z * unit := (Rng.mulberry32 nonce, w).

(** The value returned, if any. *)
Definition returnedOr {A} (d : A) (o : outcome A) : A :=
  match o with
  | Returned a => a
  | _ => d
  end.

Definition emptyGroup (gid : string) : Group :=
  {| id := gid; name := "Gruppo 1"; groupCreatedAt := "2026-01-01T00:00:00.000Z";
     sestine := []; events := [] |}.

Definition scenarioState (seeded : bool) (gs : list Group) : AppState :=
  {| groups := gs;
     settings := {| seedEnabled := seeded; seedValue := " PASQUA2026 ";
                    superstitionEnabled := false |} |}.

Definition scenarioScope (seeded : bool) (gs : list Group) (n : Z) (c : Constraints) : Scope :=
  {| state := scenarioState seeded gs; selectedGroupId := Some "g1";
     countToGenerate := n; constraints := c |}.

(** A host whose user presses "Annulla" during the first chunk, or never. *)
Definition scenarioHost (word : Z) (aborts : bool) : Host :=
  {| entropy := λ _, word; chunkTime := λ k, 1000 * Z.of_nat k; commitTime := 5000;
     abortPressed := λ _, aborts |}.

(** A group holding the only combination allowed by [cSix], not frozen,
    and a frozen one. *)
Definition groupSix : Group :=
  {| id := "g1"; name := "Gruppo 1"; groupCreatedAt := "2026-01-01T00:00:00.000Z";
     sestine :=
       [ {| nums := [1; 2; 3; 4; 5; 6]; key := "1-2-3-4-5-6"; createdAt := 10;
            frozen := false; meta := None |};
         {| nums := [10; 20; 30; 40; 50; 60]; key := "10-20-30-40-50-60"; createdAt := 11;
            frozen := true; meta := None |} ];
     events := [] |}.

(** The numbers a combination may hold under [c]: the mandatory ones and
    the numbers of [1,90] that are not excluded. *)
Definition admissible (c : Constraints) : gset Z :=
  list_to_set (mustInclude c)
  ∪ list_to_set (List.filter (λ x, negb (bool_decide (x ∈ exclude c))) (seqZ 1 90)).

(** Only five numbers are left by [exclude]. *)
Definition cFiveLeft : Constraints :=
  {| exclude := seqZ 1 85; mustInclude := []; mustIncludeAnyOf := [] |}.

(** [s] carries the provenance written by [generateUniqueSestine] under
    [options], with a nonce within the guard. *)
Definition recordsNonce (options : option Options) (s : Sestina) : Prop :=
  ∃ n, 0 ≤ n ≤ 50000 ∧
       meta s = Some {| metaSeed := options ≫= optSeed; attemptNonce := n;
                        superstitionMode := options ≫= optSuperstitionMode |}.

(** The keys of the combinations of a list of groups, in order, with
    their repetitions. *)
Definition keysOf (gs : list Group) : list string :=
  concat ((λ g, key <$> sestine g) <$> gs).

Definition allKeys (st : AppState) : list string := keysOf (groups st).

(** No key is held twice, and no two groups share an identifier. *)
Definition ledgerOk (st : AppState) : Prop :=
  NoDup (allKeys st) ∧ NoDup (id <$> groups st).

(** Two groups with one frozen combination between them. *)
Definition twoGroups : list Group :=
  [ groupSix;
    {| id := "g2"; name := "Gruppo 2"; groupCreatedAt := "2026-01-02T00:00:00.000Z";
       sestine := [ {| nums := [1; 14; 21; 24; 43; 50]; key := "1-14-21-24-43-50";
                       createdAt := 12; frozen := false; meta := None |} ];
       events := [] |} ].

(** ** src/App.tsx: the editing handlers, as the updates they pass to [setState] *)

(** [uuid] is the value of [crypto.randomUUID()] and [nowIso] the text of
    [new Date().toISOString()]; [newGroupName] is the content of the input
    field. *)
Definition addGroup (uuid nowIso newGroupName : string) (st : AppState) : AppState :=
  let name :=
    if decide (JS.trim newGroupName = EmptyString)
    then "Gruppo " +:+ JS.numToString (Z.of_nat (length (groups st)) + 1)
    else JS.trim newGroupName in
  let g := {| id := "group_" +:+ uuid; name := name; groupCreatedAt := nowIso;
              sestine := []; events := [] |} in
  {| groups := g :: groups st; settings := settings st |}.

Definition renameGroup (groupId name : string) (st : AppState) : AppState :=
  let newName := JS.trim name in
  if decide (newName = EmptyString) then st
  else
    {| groups :=
         (λ g, if bool_decide (id g = groupId)
               then {| id := id g; name := newName; groupCreatedAt := groupCreatedAt g;
                       sestine := sestine g; events := events g |}
               else g) <$> groups st;
       settings := settings st |}.

Definition deleteGroup (groupId : string) (st : AppState) : AppState :=
  {| groups := List.filter (λ g, negb (bool_decide (id g = groupId))) (groups st);
     settings := settings st |}.

Definition clearGroup (groupId : string) (st : AppState) : AppState :=
  {| groups :=
       (λ g, if bool_decide (id g = groupId)
             then {| id := id g; name := name g; groupCreatedAt := groupCreatedAt g;
                     sestine := []; events := events g |}
             else g) <$> groups st;
     settings := settings st |}.

Definition toggleFreeze (groupId key0 : string) (st : AppState) : AppState :=
  {| groups :=
       (λ g, if bool_decide (id g ≠ groupId) then g
             else {| id := id g; name := name g; groupCreatedAt := groupCreatedAt g;
                     sestine :=
                       (λ s, if bool_decide (key s = key0)
                             then {| nums := nums s; key := key s; createdAt := createdAt s;
                                     frozen := negb (frozen s); meta := meta s |}
                             else s) <$> sestine g;
                     events := events g |}) <$> groups st;
     settings := settings st |}.

Definition removeSestina (groupId key0 : string) (st : AppState) : AppState :=
  {| groups :=
       (λ g, if bool_decide (id g = groupId)
             then {| id := id g; name := name g; groupCreatedAt := groupCreatedAt g;
                     sestine := List.filter (λ s, negb (bool_decide (key s = key0))) (sestine g);
                     events := events g |}
             else g) <$> groups st;
     settings := settings st |}.

(** ** src/App.tsx: reading numbers from the input fields *)

(** The class [[0-9]] of the regular expression. *)
Definition isDigit (a : Ascii.ascii) : bool :=
  let c := Ascii.N_of_ascii a in ((48 <=? c) && (c <=? 57))%N.

(** [values.split(/[^0-9]+/g).filter(Boolean)]: the maximal runs of
    digits, in order; [cur] is the run being read. *)
Fixpoint digitRuns (cur : string) (s : string) : list string :=
  match s with
  | EmptyString => if decide (cur = EmptyString) then [] else [cur]
  | String a s' =>
      if isDigit a then digitRuns (cur +:+ String a EmptyString) s'
      else (if decide (cur = EmptyString) then [] else [cur]) ++ digitRuns EmptyString s'
  end.

Fixpoint numberFrom (acc : Z) (s : string) : Z :=
  match s with
  | EmptyString => acc
  | String a s' => numberFrom (10 * acc + (Z.of_N (Ascii.N_of_ascii a) - 48)) s'
  end.

(** [Number(x)] for a run of digits [x].  The double that JavaScript
    returns is this integer up to [2^53] and is rounded monotonically
    (possibly to [Infinity]) above, so the test [isFinite(n) && 1 <= n && n <= 90]
    that follows has the same outcome on both. *)
Definition digitsToNumber (s : string) : Z := numberFrom 0 s.

Definition clampNumList (values : string) : list Z :=
  let parts := digitRuns EmptyString values in
  let nums := List.filter (λ n, (1 <=? n) && (n <=? 90)) (digitsToNumber <$> parts) in
  JS.sortBy (λ a b, a - b) (elements (list_to_set nums : gset Z)).

(** The error of [parseSixUnique] is a fixed text around [nums.length],
    kept here as that length. *)
Inductive Parsed :=
  | ParsedOk (parsedNums : list Z)
  | ParsedError (found : nat).

Definition parseSixUnique (input : string) : Parsed :=
  let nums := clampNumList input in
  if decide (length nums ≠ 6%nat) then ParsedError (length nums) else ParsedOk nums.

Definition parseOptionalOne (input : string) : option Z :=
  let nums := clampNumList input in
  if decide (length nums = 0%nat) then None else nums !! 0%nat.

Fixpoint allDigits (s : string) : bool :=
  match s with
  | EmptyString => true
  | String a s' => isDigit a && allDigits s'
  end.

(** ** src/App.tsx: checking a group against a draw *)

Record ValidationRow := {
  rowKey : string;
  rowNums : list Z;
  hits : Z;
  hitNums : list Z;
  rowFrozen : bool;
  jollyHit : bool;
  superstarHit : bool;
}.

(** [PrizeCounts]: the fields ["6"], ["5+1"], ["5"], ["4"], ["3"], ["2"]
    and [other]. *)
Record PrizeCounts := {
  pc6 : Z; pc5plus1 : Z; pc5 : Z; pc4 : Z; pc3 : Z; pc2 : Z; pcOther : Z;
}.

Section Validate.
(** Amounts in euro are doubles: [Euro] with the literals [euroOfZ] and
    the addition [euroAdd]; [localeCompare] is the host's string
    comparison. *)
Context {Euro : Type} (euroOfZ : Z → Euro) (euroAdd : Euro → Euro → Euro).
Context (localeCompare : string → string → Z).

Record ValidationResult := {
  vrAt : Z;
  vrGroupId : string;
  vrGroupName : string;
  vrDraw : list Z;
  vrJolly : option Z;
  vrSuperstar : option Z;
  vrCounts : gmap Z Z;
  vrRows : list ValidationRow;
  vrPrizeCounts : PrizeCounts;
  vrEstimatedTotalEuro : Euro;
}.

Definition estimateTicketWinEUR (hits : Z) (jollyHit : bool) (jackpotEuro : Euro) : Euro :=
  if decide (hits = 6) then jackpotEuro
  else if bool_decide (hits = 5) && jollyHit then euroOfZ 620000
  else if decide (hits = 5) then euroOfZ 32000
  else if decide (hits = 4) then euroOfZ 300
  else if decide (hits = 3) then euroOfZ 25
  else if decide (hits = 2) then euroOfZ 5
  else euroOfZ 0.

(** [x ? s.nums.includes(x) : false] for [x : number | undefined] *)
Definition includesOpt (x : option Z) (nums : list Z) : bool :=
  match x with
  | Some j => if decide (j = 0) then false else bool_decide (j ∈ nums)
  | None => false
  end.

Definition validationRow (draw : list Z) (jolly superstar : option Z) (s : Sestina)
  : ValidationRow :=
  let drawSet : gset Z := list_to_set draw in
  let hitNums := List.filter (λ n, bool_decide (n ∈ drawSet)) (nums s) in
  {| rowKey := key s; rowNums := nums s; hits := Z.of_nat (length hitNums);
     hitNums := hitNums; rowFrozen := frozen s;
     jollyHit := includesOpt jolly (nums s);
     superstarHit := includesOpt superstar (nums s) |}.

Definition countPrize (pc : PrizeCounts) (r : ValidationRow) : PrizeCounts :=
  if decide (hits r = 6) then
    {| pc6 := pc6 pc + 1; pc5plus1 := pc5plus1 pc; pc5 := pc5 pc; pc4 := pc4 pc;
       pc3 := pc3 pc; pc2 := pc2 pc; pcOther := pcOther pc |}
  else if bool_decide (hits r = 5) && jollyHit r then
    {| pc6 := pc6 pc; pc5plus1 := pc5plus1 pc + 1; pc5 := pc5 pc; pc4 := pc4 pc;
       pc3 := pc3 pc; pc2 := pc2 pc; pcOther := pcOther pc |}
  else if decide (hits r = 5) then
    {| pc6 := pc6 pc; pc5plus1 := pc5plus1 pc; pc5 := pc5 pc + 1; pc4 := pc4 pc;
       pc3 := pc3 pc; pc2 := pc2 pc; pcOther := pcOther pc |}
  else if decide (hits r = 4) then
    {| pc6 := pc6 pc; pc5plus1 := pc5plus1 pc; pc5 := pc5 pc; pc4 := pc4 pc + 1;
       pc3 := pc3 pc; pc2 := pc2 pc; pcOther := pcOther pc |}
  else if decide (hits r = 3) then
    {| pc6 := pc6 pc; pc5plus1 := pc5plus1 pc; pc5 := pc5 pc; pc4 := pc4 pc;
       pc3 := pc3 pc + 1; pc2 := pc2 pc; pcOther := pcOther pc |}
  else if decide (hits r = 2) then
    {| pc6 := pc6 pc; pc5plus1 := pc5plus1 pc; pc5 := pc5 pc; pc4 := pc4 pc;
       pc3 := pc3 pc; pc2 := pc2 pc + 1; pcOther := pcOther pc |}
  else
    {| pc6 := pc6 pc; pc5plus1 := pc5plus1 pc; pc5 := pc5 pc; pc4 := pc4 pc;
       pc3 := pc3 pc; pc2 := pc2 pc; pcOther := pcOther pc + 1 |}.

Definition noPrizes : PrizeCounts :=
  {| pc6 := 0; pc5plus1 := 0; pc5 := 0; pc4 := 0; pc3 := 0; pc2 := 0; pcOther := 0 |}.

Definition noCounts : gmap Z Z :=
  list_to_map [(0, 0); (1, 0); (2, 0); (3, 0); (4, 0); (5, 0); (6, 0)].

(** [counts[r.hits] = (counts[r.hits] ?? 0) + 1] *)
Definition countHits (counts : gmap Z Z) (r : ValidationRow) : gmap Z Z :=
  <[hits r := default 0 (counts !! hits r) + 1]> counts.

Definition compareRows (a b : ValidationRow) : Z :=
  if decide (hits b - hits a ≠ 0) then hits b - hits a
  else if decide (Z.b2z (rowFrozen b) - Z.b2z (rowFrozen a) ≠ 0)
       then Z.b2z (rowFrozen b) - Z.b2z (rowFrozen a)
       else localeCompare (rowKey a) (rowKey b).

(** What the handler leaves behind: the application state and the two
    pieces of component state it sets. *)
Record Validated := {
  val_state : AppState;
  val_error : option nat;
  val_result : option ValidationResult;
}.

(** [prevError] and [prevResult] are [validationError] and
    [validationResult] before the call, [now] the time of
    [new Date()]. *)
Definition validateAgainstGroup (sc : Scope) (drawInput jollyInput superstarInput : string)
    (jackpotEuro : Euro) (now : Z)
    (prevError : option nat) (prevResult : option ValidationResult) : Validated :=
  match selectedGroup sc with
  | None => {| val_state := state sc; val_error := prevError; val_result := prevResult |}
  | Some g =>
      match parseSixUnique drawInput with
      | ParsedError found =>
          {| val_state := state sc; val_error := Some found; val_result := prevResult |}
      | ParsedOk draw =>
          let jolly := parseOptionalOne jollyInput in
          let superstar := parseOptionalOne superstarInput in
          let rows := validationRow draw jolly superstar <$> sestine g in
          let estimatedTotalEuro :=
            fold_left (λ acc r, euroAdd acc (estimateTicketWinEUR (hits r) (jollyHit r) jackpotEuro))
                      rows (euroOfZ 0) in
          let prizeCounts := fold_left countPrize rows noPrizes in
          let counts := fold_left countHits rows noCounts in
          let sorted := JS.sortBy compareRows rows in
          let res :=
            {| vrAt := now; vrGroupId := id g; vrGroupName := name g; vrDraw := draw;
               vrJolly := jolly; vrSuperstar := superstar; vrCounts := counts;
               vrRows := sorted; vrPrizeCounts := prizeCounts;
               vrEstimatedTotalEuro := estimatedTotalEuro |} in
          {| val_state :=
               {| groups :=
                    (λ x, if bool_decide (id x ≠ id g) then x
                          else {| id := id x; name := name x;
                                  groupCreatedAt := groupCreatedAt x;
                                  sestine := sestine x;
                                  events := EvValidate now draw jolly superstar :: events x |})
                      <$> groups (state sc);
                  settings := settings (state sc) |};
             val_error := None;
             val_result := Some res |}
      end
  end.

End Validate.

Definition prizeTotal (pc : PrizeCounts) : Z :=
  pc6 pc + pc5plus1 pc + pc5 pc + pc4 pc + pc3 pc + pc2 pc + pcOther pc.

(** A byte-wise comparison standing for [localeCompare] in the scenarios. *)
Definition compareBytes (a b : string) : Z :=
  if decide (a = b) then 0 else if bool_decide (String.ltb a b) then -1 else 1.

(** ** src/lib/stats.ts *)

(** A slot of the array [freq]: a count, or [NaN] once [freq[n]++] has
    met [undefined].  An index without slot reads [undefined]. *)
Inductive Cell :=
  | Count (k : Z)
  | NaN.

#[global] Instance Cell_eq_dec : EqDecision Cell.
Proof. solve_decision. Defined.

(** [freq[n]++] *)
Definition bump (freq : gmap Z Cell) (n : Z) : gmap Z Cell :=
  <[n := match freq !! n with
         | Some (Count k) => Count (k + 1)
         | _ => NaN
         end]> freq.

(** [Array(MAX_NUM + 1).fill(0)] *)
Definition zeros : gmap Z Cell :=
  list_to_map ((λ i, (i, Count 0)) <$> seqZ 0 (MAX_NUM + 1)).

Definition frequencyMap (sestine : list Sestina) : gmap Z Cell :=
  fold_left (λ freq s, fold_left bump (nums s) freq) sestine zeros.

Record TopEntry := { topN : Z; topCount : option Cell }.

(** [b - a] on two slots: [None] is [NaN]. *)
Definition countDiff (b a : option Cell) : option Z :=
  match b, a with
  | Some (Count kb), Some (Count ka) => Some (kb - ka)
  | _, _ => None
  end.

(** [b.count - a.count || a.n - b.n] *)
Definition compareTop (a b : TopEntry) : Z :=
  match countDiff (topCount b) (topCount a) with
  | Some d => if decide (d ≠ 0) then d else topN a - topN b
  | None => topN a - topN b
  end.

(** [arr.slice(0, k)] *)
Definition slice0 {A} (k : Z) (l : list A) : list A :=
  if decide (k < 0) then take (Z.to_nat (Z.max 0 (Z.of_nat (length l) + k))) l
  else take (Z.to_nat k) l.

(** [k] is [None] when the caller leaves it out. *)
Definition topNumbers (freq : gmap Z Cell) (k : option Z) : list TopEntry :=
  let arr := (λ n, {| topN := n; topCount := freq !! n |})
               <$> seqZ MIN_NUM (MAX_NUM - MIN_NUM + 1) in
  slice0 (default 10 k) (JS.sortBy compareTop arr).

Definition missingNumbers (freq : gmap Z Cell) : list Z :=
  List.filter (λ n, bool_decide (freq !! n = Some (Count 0)))
              (seqZ MIN_NUM (MAX_NUM - MIN_NUM + 1)).

(** How often [n] occurs in the combinations. *)
Definition occurrences (n : Z) (sestine : list Sestina) : Z :=
  Z.of_nat (length (List.filter (λ x, bool_decide (x = n)) (concat (nums <$> sestine)))).

(** [a] is listed before [b]: more frequent, or as frequent and not larger. *)
Definition ranksBefore (a b : Z * Z) : Prop :=
  b.2 < a.2 ∨ (b.2 = a.2 ∧ a.1 ≤ b.1).

(** ** src/App.tsx: the chances shown for the selected group *)

(** [selectedGroup?.sestine.length ?? 0], then [null] unless it is positive. *)
Definition groupBestDist (sc : Scope) : option (list DistEntry) :=
  let k := match selectedGroup sc with
           | Some g => length (sestine g)
           | None => 0%nat
           end in
  if decide (Z.of_nat k ≤ 0) then None else Some (atLeastDistribution k).

(** A scope like [scenarioScope] with another group selected. *)
Definition scenarioScopeOn (gid : string) (gs : list Group) : Scope :=
  {| state := scenarioState true gs; selectedGroupId := Some gid;
     countToGenerate := 1; constraints := cFree |}.

(** The state of the closure of [mulberry32(seed)] after [n] calls. *)
Definition mulberry32_state (seed : Z) (n : nat) : Z :=
  Nat.iter n (λ a, (Rng.mulberry32_call a).2) (Rng.mulberry32 seed).

(** ** src/App.tsx: superstition and the constraints in force *)

(** [Array.from(new Set(xs))]: the first occurrence of each value, in order. *)
Fixpoint dedupeFrom (seen : gset Z) (xs : list Z) : list Z :=
  match xs with
  | [] => []
  | x :: xs' =>
      if decide (x ∈ seen) then dedupeFrom seen xs'
      else x :: dedupeFrom ({[x]} ∪ seen) xs'
  end.

Definition dedupe (xs : list Z) : list Z := dedupeFrom ∅ xs.

(** [date.match(/^(\d{4})-(\d{2})-(\d{2})$/)] with the three groups read by
    [Number]. *)
Definition matchBirthDate (date : string) : option (Z * Z * Z) :=
  match date with
  | String y1 (String y2 (String y3 (String y4 (String h1 (String m1 (String m2
      (String h2 (String d1 (String d2 EmptyString))))))))) =>
      let ys := String y1 (String y2 (String y3 (String y4 EmptyString))) in
      let ms := String m1 (String m2 EmptyString) in
      let ds := String d1 (String d2 EmptyString) in
      if allDigits ys && allDigits ms && allDigits ds
         && (Ascii.N_of_ascii h1 =? 45)%N && (Ascii.N_of_ascii h2 =? 45)%N
      then Some (digitsToNumber ys, digitsToNumber ms, digitsToNumber ds)
      else None
  | _ => None
  end.

(** [n || 90] *)
Definition orElse90 (n : Z) : Z := if decide (n = 0) then 90 else n.

(** [((n - 1) % 90) + 1], with the remainder of JavaScript, which takes
    the sign of the dividend. *)
Definition wrap90 (n : Z) : Z := Z.rem (n - 1) 90 + 1.

Definition birthDateToLucky (date : option string) : list Z :=
  match date with
  | None => []
  | Some s =>
      if decide (s = EmptyString) then []
      else match matchBirthDate s with
           | None => []
           | Some (y, mo, d) =>
               let arr := wrap90 <$> [ d; mo; Z.rem y 100;
                                       orElse90 (Z.rem (d + mo) 90);
                                       orElse90 (Z.rem (d + Z.rem y 100) 90) ] in
               JS.sortBy (λ a b, a - b) (dedupe arr)
           end
  end.

(** The fields of [Settings] that the [constraints] memo reads. *)
Record ConstraintSettings := {
  sExclude : list Z;
  sMustInclude : list Z;
  sMustIncludeAnyOf : list Z;
  sSuperstitionEnabled : bool;
  luckyNumbers : list Z;
  unluckyNumbers : list Z;
  birthDate : option string;
}.

Definition constraintsMemo (s : ConstraintSettings) : Constraints :=
  let birthLucky := if sSuperstitionEnabled s then birthDateToLucky (birthDate s) else [] in
  let lucky := if sSuperstitionEnabled s then dedupe (luckyNumbers s ++ birthLucky) else [] in
  let unlucky := if sSuperstitionEnabled s then unluckyNumbers s else [] in
  {| exclude := JS.sortBy (λ a b, a - b) (dedupe (sExclude s ++ unlucky));
     mustInclude := sMustInclude s;
     mustIncludeAnyOf :=
       JS.sortBy (λ a b, a - b)
         (dedupe (sMustIncludeAnyOf s
                    ++ (if decide (length lucky ≠ 0%nat) then lucky else []))) |}.

(** Settings of a superstitious player born in 2000. *)
Definition superstitious : ConstraintSettings :=
  {| sExclude := [90]; sMustInclude := [7]; sMustIncludeAnyOf := [];
     sSuperstitionEnabled := true; luckyNumbers := [3]; unluckyNumbers := [13; 17];
     birthDate := Some "2000-02-29" |}.

(** * Properties *)

(** ** Sorting with the comparator [(a, b) => a - b] *)

Section SortFacts.

Local Instance sub_le_transitive : Transitive (λ a b : Z, a - b ≤ 0).
Proof. intros x y z Hxy Hyz. lia. Qed.

Local Instance sub_le_total : Total (λ a b : Z, a - b ≤ 0).
Proof. intros x y. lia. Qed.

Lemma normalizeNums_perm (l : list Z) : normalizeNums l ≡ₚ l.
Proof. apply merge_sort_Permutation. Qed.

Lemma normalizeNums_le_sorted (l : list Z) : StronglySorted Z.le (normalizeNums l).
Proof.
  assert (Hs : StronglySorted (λ a b : Z, a - b ≤ 0) (normalizeNums l))
    by (apply StronglySorted_merge_sort; apply _).
  induction Hs as [|x xs Hxs IH Hall]; constructor; [exact IH|].
  eapply Forall_impl; [exact Hall|]. intros y Hy. simpl in Hy. lia.
Qed.

Lemma le_sorted_nodup_lt (l : list Z) :
  StronglySorted Z.le l → NoDup l → StronglySorted Z.lt l.
Proof.
  induction 1 as [|x xs Hxs IH Hall]; intros Hnd; constructor.
  - apply IH. by apply NoDup_cons in Hnd as [_ ?].
  - apply NoDup_cons in Hnd as [Hx _].
    rewrite Forall_forall in Hall |- *. intros y Hy.
    specialize (Hall y Hy).
    assert (x ≠ y) by (intros ->; done). lia.
Qed.

Lemma normalizeNums_lt_sorted (l : list Z) :
  NoDup l → StronglySorted Z.lt (normalizeNums l).
Proof.
  intros Hnd. apply le_sorted_nodup_lt; [apply normalizeNums_le_sorted|].
  by rewrite normalizeNums_perm.
Qed.

Lemma normalizeNums_elem (l : list Z) x : x ∈ normalizeNums l ↔ x ∈ l.
Proof. by rewrite normalizeNums_perm. Qed.

Lemma normalizeNums_length (l : list Z) : length (normalizeNums l) = length l.
Proof. by rewrite normalizeNums_perm. Qed.

End SortFacts.

(** ** The constraint evaluator *)

Lemma existsb_false_forall {A} (f : A → bool) (l : list A) :
  existsb f l = false ↔ ∀ x, x ∈ l → f x = false.
Proof.
  induction l as [|a l IH]; simpl.
  - split; [|done]. intros _ x Hx. by apply elem_of_nil in Hx.
  - rewrite orb_false_iff, IH. split.
    + intros [Ha Hl] x Hx. apply elem_of_cons in Hx as [->|Hx]; auto.
    + intros Hall. split; [apply Hall; left|intros x Hx; apply Hall; by right].
Qed.

Lemma existsb_true_exists {A} (f : A → bool) (l : list A) :
  existsb f l = true ↔ ∃ x, x ∈ l ∧ f x = true.
Proof.
  rewrite existsb_exists. split; intros (x & Hx & Hf); exists x; split; auto;
    by apply list_elem_of_In.
Qed.

Lemma isValidSestina_true (nums : list Z) (c : Constraints) :
  isValidSestina nums c = true ↔
    (∀ x, x ∈ exclude c → x ∉ nums) ∧
    (∀ x, x ∈ mustInclude c → x ∈ nums) ∧
    (mustIncludeAnyOf c ≠ [] → ∃ x, x ∈ mustIncludeAnyOf c ∧ x ∈ nums).
Proof.
  unfold isValidSestina.
  destruct (existsb _ (exclude c)) eqn:Hex.
  { split; [done|]. intros (Hno & _).
    apply existsb_true_exists in Hex as (x & Hx & Hin).
    apply bool_decide_eq_true in Hin. apply elem_of_list_to_set in Hin.
    by destruct (Hno x Hx). }
  rewrite existsb_false_forall in Hex.
  destruct (existsb _ (mustInclude c)) eqn:Hmi.
  { split; [done|]. intros (_ & Hall & _).
    apply existsb_true_exists in Hmi as (x & Hx & Hin).
    apply negb_true_iff, bool_decide_eq_false in Hin.
    destruct Hin. apply elem_of_list_to_set. auto. }
  rewrite existsb_false_forall in Hmi.
  assert (Hexcl : ∀ x, x ∈ exclude c → x ∉ nums).
  { intros x Hx Hin. specialize (Hex x Hx). apply bool_decide_eq_false in Hex.
    apply Hex. by apply elem_of_list_to_set. }
  assert (Hmust : ∀ x, x ∈ mustInclude c → x ∈ nums).
  { intros x Hx. specialize (Hmi x Hx). apply negb_false_iff, bool_decide_eq_true in Hmi.
    by apply elem_of_list_to_set in Hmi. }
  destruct (mustIncludeAnyOf c) as [|a rest] eqn:Hany.
  { simpl. split; [|done]. intros _. split_and!; auto; done. }
  replace (0 <? Z.of_nat (length (a :: rest))) with true
    by (symmetry; apply Z.ltb_lt; simpl; lia).
  rewrite existsb_true_exists. split.
  - intros (x & Hx & Hin). split_and!; auto. intros _. exists x. split; [done|].
    apply bool_decide_eq_true in Hin. by apply elem_of_list_to_set in Hin.
  - intros (_ & _ & Hsome). destruct Hsome as (x & Hx & Hin); [done|].
    exists x. split; [done|]. apply bool_decide_eq_true. by apply elem_of_list_to_set.
Qed.

(** ** The candidate sampler *)

#[local] Opaque FILL_GUARD NONCE_GUARD.

Section SamplerFacts.
Context {R : Type} `{RNG R}.

Lemma rngInt_range (rng : R) : 1 ≤ (rngInt rng MIN_NUM MAX_NUM).1 ≤ 90.
Proof.
  unfold rngInt, MIN_NUM, MAX_NUM.
  pose proof (rng_call_range rng) as Hu.
  destruct (rng_call rng) as [u rng']. simpl in *.
  unfold JS.two32 in *.
  assert (0 ≤ (u * (90 - 1 + 1)) `div` 4294967296 < 90); [|lia].
  split; [apply Z.div_pos; lia|apply Z.div_lt_upper_bound; lia].
Qed.

(** A full set leaves the fill loop at once, without a draw. *)
Lemma fill_full budget c (picked : gset Z) (rng : R) :
  ¬ (size picked < 6)%nat → fill budget c picked rng = (Returned picked, rng).
Proof. intros Hfull. destruct budget; simpl; by rewrite decide_False. Qed.

Lemma fill_returned budget c : ∀ (picked : gset Z) (rng : R) picked' rng',
  fill budget c picked rng = (Returned picked', rng') →
  picked ⊆ picked' ∧
  ¬ (size picked' < 6)%nat ∧
  ((size picked ≤ 6)%nat → size picked' = 6%nat) ∧
  (∀ x, x ∈ picked' → x ∈ picked ∨ (1 ≤ x ≤ 90 ∧ x ∉ exclude c)).
Proof.
  induction budget as [|b IH]; intros picked rng picked' rng'; simpl.
  - case_decide; [done|]. intros [= <- <-]. split_and!; [done|done|lia|auto].
  - case_decide as Hsz.
    2:{ intros [= <- <-]. split_and!; [done|done|lia|auto]. }
    pose proof (rngInt_range rng) as Hx.
    destruct (rngInt rng MIN_NUM MAX_NUM) as [x rng1]. simpl in Hx.
    case_decide as Hin; [by apply IH|].
    case_decide as Hex; [by apply IH|].
    intros Hfill. apply IH in Hfill as (Hsub & Hge & Hsix & Hmem).
    assert (size ({[x]} ∪ picked) = S (size picked)) as Hsize.
    { rewrite size_union by (by apply disjoint_singleton_l).
      rewrite size_singleton. lia. }
    split_and!.
    + etrans; [apply union_subseteq_r|exact Hsub].
    + done.
    + intros _. apply Hsix. lia.
    + intros y Hy. destruct (Hmem y Hy) as [Hy'|Hy']; [|by right].
      apply elem_of_union in Hy' as [Hy'|Hy']; [|by left].
      apply elem_of_singleton in Hy' as ->. by right.
Qed.

(** The fill loop always comes back, and its only error is the guard's. *)
Lemma fill_outcome budget c : ∀ (picked : gset Z) (rng : R),
  (∃ picked', (fill budget c picked rng).1 = Returned picked') ∨
  (fill budget c picked rng).1 = Threw GenerationExhausted.
Proof.
  induction budget as [|b IH]; intros picked rng; simpl.
  - case_decide; [by right|left; eauto].
  - case_decide; [|left; eauto].
    destruct (rngInt rng MIN_NUM MAX_NUM) as [x rng1].
    repeat case_decide; apply IH.
Qed.

Lemma sampler_unfold fuel (rng : R) c :
  generateRandomSestinaWithConstraints fuel rng c =
    let picked : gset Z := list_to_set (mustInclude c) in
    if decide (6 < size picked)%nat then (Threw ImpossibleConstraint, rng)
    else
      match fill FILL_GUARD c picked rng with
      | (Returned picked', rng') =>
          let nums := normalizeNums (elements picked') in
          if isValidSestina nums c then (Returned nums, rng')
          else
            match fuel with
            | O => (Diverged, rng')
            | S fuel' => generateRandomSestinaWithConstraints fuel' rng' c
            end
      | (Threw e, rng') => (Threw e, rng')
      | (Diverged, rng') => (Diverged, rng')
      end.
Proof. destruct fuel; reflexivity. Qed.

Lemma sampler_returned fuel : ∀ (rng : R) c nums rng',
  generateRandomSestinaWithConstraints fuel rng c = (Returned nums, rng') →
  ∃ picked' : gset Z,
    nums = normalizeNums (elements picked') ∧
    isValidSestina nums c = true ∧
    size picked' = 6%nat ∧
    (∀ x, x ∈ picked' → x ∈ mustInclude c ∨ (1 ≤ x ≤ 90 ∧ x ∉ exclude c)).
Proof.
  induction fuel as [|f IH]; intros rng c nums rng'; rewrite sampler_unfold; cbv zeta.
  all: case_decide as Hsz; [done|].
  all: destruct (fill FILL_GUARD c _ rng) as [[picked'|e|] rng1] eqn:Hfill; try done.
  all: destruct (isValidSestina _ c) eqn:Hvalid; [|by eauto].
  all: intros [= <- <-]; apply fill_returned in Hfill as (_ & _ & Hsix & Hmem).
  all: exists picked'; split_and!; [done|done|apply Hsix; lia|].
  all: intros x Hx; destruct (Hmem x Hx) as [Hin|?];
    [left; by apply elem_of_list_to_set in Hin|by right].
Qed.

Lemma fill_all_excluded c (picked : gset Z) :
  (∀ x, 1 ≤ x ≤ 90 → x ∈ picked ∨ x ∈ exclude c) →
  (size picked < 6)%nat →
  ∀ budget (rng : R), (fill budget c picked rng).1 = Threw GenerationExhausted.
Proof.
  intros Hcover Hsz. induction budget as [|b IH]; intros rng; simpl.
  - by rewrite decide_True.
  - rewrite decide_True by done.
    pose proof (rngInt_range rng) as Hx.
    destruct (rngInt rng MIN_NUM MAX_NUM) as [x rng1]. simpl in Hx.
    case_decide; [apply IH|].
    case_decide; [apply IH|].
    destruct (Hcover x Hx); done.
Qed.

Lemma sampler_all_excluded c fuel (rng : R) :
  (∀ x, 1 ≤ x ≤ 90 → x ∈ mustInclude c ∨ x ∈ exclude c) →
  (size (list_to_set (mustInclude c) : gset Z) < 6)%nat →
  (generateRandomSestinaWithConstraints fuel rng c).1 = Threw GenerationExhausted.
Proof.
  intros Hcover Hsz. rewrite sampler_unfold; cbv zeta.
  rewrite decide_False by lia.
  assert (Hfill : (fill FILL_GUARD c (list_to_set (mustInclude c)) rng).1
                  = Threw GenerationExhausted).
  { apply fill_all_excluded; [|done].
    intros x Hx. destruct (Hcover x Hx); [left|by right].
    by apply elem_of_list_to_set. }
  destruct (fill FILL_GUARD c _ rng) as [o rng1]. simpl in Hfill. by subst o.
Qed.

Lemma sampler_not_impossible c :
  ¬ (6 < size (list_to_set (mustInclude c) : gset Z))%nat →
  ∀ fuel (rng : R),
    (generateRandomSestinaWithConstraints fuel rng c).1 ≠ Threw ImpossibleConstraint.
Proof.
  intros Hsz. induction fuel as [|f IH]; intros rng; rewrite sampler_unfold; cbv zeta.
  all: rewrite decide_False by done.
  all: destruct (fill_outcome FILL_GUARD c (list_to_set (mustInclude c)) rng)
         as [[picked' Hr]|Hr].
  all: destruct (fill FILL_GUARD c _ rng) as [o rng1]; simpl in Hr; subst o; try done.
  all: destruct (isValidSestina _ c); try done; try apply IH.
Qed.

Lemma sampler_impossible c fuel (rng : R) :
  (6 < size (list_to_set (mustInclude c) : gset Z))%nat →
  generateRandomSestinaWithConstraints fuel rng c = (Threw ImpossibleConstraint, rng).
Proof. intros Hsz. rewrite sampler_unfold; cbv zeta. by rewrite decide_True. Qed.

(** The sampler only ever raises its own two errors. *)
Lemma sampler_threw fuel : ∀ (rng : R) c e,
  (generateRandomSestinaWithConstraints fuel rng c).1 = Threw e →
  e = ImpossibleConstraint ∨ e = GenerationExhausted.
Proof.
  induction fuel as [|f IH]; intros rng c e; rewrite sampler_unfold; cbv zeta.
  all: case_decide; [intros [= <-]; by left|].
  all: destruct (fill_outcome FILL_GUARD c (list_to_set (mustInclude c)) rng)
         as [[picked' Hr]|Hr].
  all: destruct (fill FILL_GUARD c _ rng) as [o rng1]; simpl in Hr; subst o;
         try (intros [= <-]; by right).
  all: destruct (isValidSestina _ c); try done; try apply IH.
Qed.

(** More fuel does not change an outcome that was reached. *)
Lemma sampler_fuel_mono fuel : ∀ (rng : R) c,
  (generateRandomSestinaWithConstraints fuel rng c).1 ≠ Diverged →
  generateRandomSestinaWithConstraints (S fuel) rng c
    = generateRandomSestinaWithConstraints fuel rng c.
Proof.
  induction fuel as [|f IH]; intros rng c;
    rewrite (sampler_unfold (S _)), (sampler_unfold _ rng); cbv zeta.
  all: case_decide; [done|].
  all: destruct (fill FILL_GUARD c _ rng) as [[picked'|e|] rng1]; try done.
  all: destruct (isValidSestina _ c); try done.
  apply IH.
Qed.

End SamplerFacts.

(** C3. Whenever the sampler returns a list, for any constraints and any
    randomness stream, the list has exactly 6 integers, sorted strictly
    ascending (hence distinct); it contains every [mustInclude] number and
    no [exclude] number, and it meets [mustIncludeAnyOf] when that list is
    not empty.  Each of its members is a [mustInclude] number or lies in
    [1,90]. *)
Theorem C3_sampleOne_result `{RNG R} (fuel : nat) (rng : R) (c : Constraints)
    (nums : SestinaNums) (rng' : R) :
  generateRandomSestinaWithConstraints fuel rng c = (Returned nums, rng') →
  length nums = 6%nat ∧
  StronglySorted Z.lt nums ∧
  NoDup nums ∧
  (∀ x, x ∈ mustInclude c → x ∈ nums) ∧
  (∀ x, x ∈ exclude c → x ∉ nums) ∧
  (mustIncludeAnyOf c ≠ [] → ∃ x, x ∈ mustIncludeAnyOf c ∧ x ∈ nums) ∧
  (∀ x, x ∈ nums → x ∈ mustInclude c ∨ 1 ≤ x ≤ 90).
Proof.
  intros Hgen. apply sampler_returned in Hgen as (picked' & -> & Hvalid & Hsix & Hmem).
  apply isValidSestina_true in Hvalid as (Hex & Hmust & Hany).
  split_and!; auto.
  - by rewrite normalizeNums_length.
  - apply normalizeNums_lt_sorted, NoDup_elements.
  - rewrite normalizeNums_perm. apply NoDup_elements.
  - intros x Hx. apply normalizeNums_elem, elem_of_elements in Hx.
    destruct (Hmem x Hx) as [?|[? _]]; auto.
Qed.

Lemma C3_sampleOne_result_witness :
  generateRandomSestinaWithConstraints 10 (Rng.mulberry32 0) cMixed
    = (Returned [1; 7; 14; 21; 24; 43], 567894473) ∧
  length [1; 7; 14; 21; 24; 43] = 6%nat ∧
  StronglySorted Z.lt [1; 7; 14; 21; 24; 43] ∧
  (∀ x, x ∈ exclude cMixed → x ∉ [1; 7; 14; 21; 24; 43]).
Proof.
  assert (Hrun : generateRandomSestinaWithConstraints 10 (Rng.mulberry32 0) cMixed
                 = (Returned [1; 7; 14; 21; 24; 43], 567894473))
    by (vm_compute; reflexivity).
  destruct (C3_sampleOne_result 10 (Rng.mulberry32 0) cMixed _ _ Hrun)
    as (Hlen & Hsorted & _ & _ & Hex & _).
  exact (conj Hrun (conj Hlen (conj Hsorted Hex))).
Defined.

(** C3, as stated, fails twice.  With every number of [1,90] excluded (and
    no mandatory number, so that both premises hold) the sampler raises
    [GenerationExhausted] instead of returning; with the mandatory number
    100 it returns a list that leaves [1,90]. *)
Lemma C3_sampleOne_counterexample :
  ((length (mustInclude cAllExcluded) ≤ 6)%nat ∧
   (∀ x, x ∈ exclude cAllExcluded → x ∉ mustInclude cAllExcluded) ∧
   (generateRandomSestinaWithConstraints 0 (Rng.mulberry32 0) cAllExcluded).1
     = Threw GenerationExhausted) ∧
  ((length (mustInclude cHundred) ≤ 6)%nat ∧
   (∀ x, x ∈ exclude cHundred → x ∉ mustInclude cHundred) ∧
   (generateRandomSestinaWithConstraints 0 (Rng.mulberry32 0) cHundred).1
     = Returned [1; 14; 21; 24; 43; 100]).
Proof.
  split; split_and!.
  - simpl. lia.
  - intros x _ Hx. by apply elem_of_nil in Hx.
  - apply sampler_all_excluded; [|vm_compute; lia].
    intros x Hx. right. apply elem_of_seqZ. lia.
  - simpl. lia.
  - intros x Hx. by apply elem_of_nil in Hx.
  - vm_compute. reflexivity.
Qed.

(** C4. With six mandatory numbers and an unmet [mustIncludeAnyOf], every
    call of the sampler leaves the fill loop without a draw, fails the
    validity check and calls itself again: no amount of fuel makes it
    return or throw, and the stream is left where it was. *)
Theorem C4_retry_has_no_guard `{RNG R} (fuel : nat) (rng : R) :
  generateRandomSestinaWithConstraints fuel rng cFullAnyOf = (Diverged, rng).
Proof.
  revert rng. induction fuel as [|f IH]; intros rng; rewrite sampler_unfold; cbv zeta.
  all: rewrite decide_False by (vm_compute; lia).
  all: rewrite fill_full by (vm_compute; lia).
  all: replace (isValidSestina _ cFullAnyOf) with false by (vm_compute; reflexivity).
  - reflexivity.
  - apply IH.
Qed.

(** C5, as stated, fails: a number both mandatory and forbidden does not
    make the sampler raise [ImpossibleConstraint], whatever the fuel. *)
Lemma C5_overlap_counterexample :
  (1 ∈ mustInclude cOverlap ∧ 1 ∈ exclude cOverlap) ∧
  (∀ fuel, (generateRandomSestinaWithConstraints fuel (Rng.mulberry32 0) cOverlap).1
             ≠ Threw ImpossibleConstraint) ∧
  (generateRandomSestinaWithConstraints 2 (Rng.mulberry32 0) cOverlap).1 = Diverged.
Proof.
  split_and!.
  - apply list_elem_of_here.
  - apply list_elem_of_here.
  - intros fuel. apply sampler_not_impossible. vm_compute. lia.
  - vm_compute. reflexivity.
Qed.

(** C5.  The sampler raises [ImpossibleConstraint] exactly when
    [mustInclude] holds more than 6 distinct numbers, and then it has
    taken no draw: the stream is returned as it was received. *)
Theorem C5_impossible_constraint `{RNG R} (fuel : nat) (rng : R) (c : Constraints) :
  ((generateRandomSestinaWithConstraints fuel rng c).1 = Threw ImpossibleConstraint
     ↔ (6 < size (list_to_set (mustInclude c) : gset Z))%nat) ∧
  ((6 < size (list_to_set (mustInclude c) : gset Z))%nat →
     generateRandomSestinaWithConstraints fuel rng c = (Threw ImpossibleConstraint, rng)).
Proof.
  split; [split|].
  - intros Hthrew. destruct (decide (6 < size (list_to_set (mustInclude c) : gset Z))%nat)
      as [?|Hle]; [done|].
    by destruct (sampler_not_impossible c Hle fuel rng).
  - intros Hsz. by rewrite sampler_impossible.
  - apply sampler_impossible.
Qed.

(** ** The uniqueness ledger *)

Section LedgerFacts.
Context {R : Type} `{RNG R} {W : Type}.
Implicit Types (keys : gset string) (rngFactory : Z → W → R * W) (w : W).

Lemma findUnique_unfold fuel left nonce i keys rngFactory c options now w :
  findUnique fuel left nonce i keys rngFactory c options now w =
    let '(rng, w') := rngFactory nonce w in
    match (generateRandomSestinaWithConstraints fuel rng c).1 with
    | Returned nums =>
        let key := sestinaKey nums in
        if decide (key ∈ keys) then
          match left with
          | O => (Threw UniquenessExhausted, w')
          | S left' =>
              findUnique fuel left' (nonce + 1) i keys rngFactory c options now w'
          end
        else
          (Returned {| nums := nums; key := key; createdAt := now + i; frozen := false;
                       meta := Some {| metaSeed := options ≫= optSeed;
                                       attemptNonce := nonce;
                                       superstitionMode := options ≫= optSuperstitionMode |} |},
           w')
    | Threw e => (Threw e, w')
    | Diverged => (Diverged, w')
    end.
Proof. destruct left; reflexivity. Qed.

(** What an accepted slot looks like. *)
Lemma findUnique_returned fuel rngFactory c options now i keys :
  ∀ left nonce w s w',
    findUnique fuel left nonce i keys rngFactory c options now w = (Returned s, w') →
    (key s ∉ keys) ∧ key s = sestinaKey (nums s) ∧ createdAt s = now + i ∧ frozen s = false ∧
    ∃ rng rng', generateRandomSestinaWithConstraints fuel rng c = (Returned (nums s), rng').
Proof.
  induction left as [|l IH]; intros nonce w s w'; rewrite findUnique_unfold.
  all: destruct (rngFactory nonce w) as [rng w1].
  all: destruct (generateRandomSestinaWithConstraints fuel rng c) as [[ns|e|] rng1] eqn:Hgen;
    simpl; try done.
  all: case_decide as Hin; try done; try apply IH.
  all: intros [= <- <-]; simpl; split_and!; eauto.
Qed.

Lemma slotsFrom_returned fuel rngFactory c options now :
  ∀ n i out keys w out' keys' w',
    slotsFrom fuel n i out keys rngFactory c options now w = (Returned out', keys', w') →
    ∃ new,
      out' = out ++ new ∧
      length new = n ∧
      NoDup (key <$> new) ∧
      (∀ s, s ∈ new → key s ∉ keys) ∧
      keys' = list_to_set (key <$> new) ∪ keys ∧
      (∀ (j : nat) s, new !! j = Some s → createdAt s = now + (i + Z.of_nat j)) ∧
      (∀ s, s ∈ new → frozen s = false ∧ key s = sestinaKey (nums s) ∧
         ∃ rng rng', generateRandomSestinaWithConstraints fuel rng c = (Returned (nums s), rng')).
Proof.
  induction n as [|n IH]; intros i out keys w out' keys' w'; simpl.
  - intros [= <- <- <-]. exists []. rewrite app_nil_r. split_and!; try done.
    + constructor.
    + intros s Hs. by apply elem_of_nil in Hs.
    + set_solver.
    + intros s Hs. by apply elem_of_nil in Hs.
  - destruct (findUnique fuel NONCE_GUARD 0 i keys rngFactory c options now w)
      as [[s|e|] w1] eqn:Hfind; try done.
    apply findUnique_returned in Hfind as (Hfresh & Hkey & Hat & Hfrozen & Hgen).
    intros Hrest. apply IH in Hrest
      as (new & -> & Hlen & Hnd & Hnew & -> & Hslot & Hall).
    exists (s :: new). split_and!.
    + by rewrite <- app_assoc.
    + simpl. by rewrite Hlen.
    + rewrite fmap_cons. apply NoDup_cons. split; [|done].
      intros Hin. apply list_elem_of_fmap in Hin as (s' & Heq & Hs').
      apply Hnew in Hs'. apply Hs'. rewrite Heq. set_solver.
    + intros s' Hs'. apply elem_of_cons in Hs' as [->|Hs']; [done|].
      apply Hnew in Hs'. set_solver.
    + rewrite fmap_cons. set_solver.
    + intros [|j] s' Hj; simpl in Hj.
      * injection Hj as <-. rewrite Hat. lia.
      * apply Hslot in Hj. lia.
    + intros s' Hs'. apply elem_of_cons in Hs' as [->|Hs']; [by split_and!|].
      by apply Hall.
Qed.

(** When the allocation throws, the caller's set holds what it held after
    the slots accepted so far: it is the set left by a shorter, successful
    allocation. *)
Lemma slotsFrom_threw fuel rngFactory c options now :
  ∀ n i out keys w e keys' w',
    slotsFrom fuel n i out keys rngFactory c options now w = (Threw e, keys', w') →
    ∃ (j : nat) out' w'',
      (j < n)%nat ∧
      slotsFrom fuel j i out keys rngFactory c options now w = (Returned out', keys', w'').
Proof.
  induction n as [|n IH]; intros i out keys w e keys' w'; simpl; [done|].
  destruct (findUnique fuel NONCE_GUARD 0 i keys rngFactory c options now w)
    as [[s|e'|] w1] eqn:Hfind; try done.
  - intros Hrest. apply IH in Hrest as (j & out' & w'' & Hj & Hrun).
    exists (S j), out', w''. split; [lia|]. simpl. by rewrite Hfind.
  - intros [= <- <- <-]. exists O, out, w. split; [lia|done].
Qed.

(** A slot whose every candidate is already taken gives up. *)
Lemma findUnique_collides fuel rngFactory c options now i keys nums0 :
  (∀ rng : R, (generateRandomSestinaWithConstraints fuel rng c).1 = Returned nums0) →
  sestinaKey nums0 ∈ keys →
  ∀ left nonce w,
    (findUnique fuel left nonce i keys rngFactory c options now w).1
      = Threw UniquenessExhausted.
Proof.
  intros Hgen Hin. induction left as [|l IH]; intros nonce w; rewrite findUnique_unfold.
  all: destruct (rngFactory nonce w) as [rng w1]; rewrite Hgen; cbv zeta.
  all: rewrite decide_True by done.
  - done.
  - apply IH.
Qed.

Lemma findUnique_fresh fuel rngFactory c options now i keys nums0 left nonce w :
  (∀ rng : R, (generateRandomSestinaWithConstraints fuel rng c).1 = Returned nums0) →
  sestinaKey nums0 ∉ keys →
  ∃ s, (findUnique fuel left nonce i keys rngFactory c options now w).1 = Returned s ∧
       key s = sestinaKey nums0.
Proof.
  intros Hgen Hin. rewrite findUnique_unfold.
  destruct (rngFactory nonce w) as [rng w1]; rewrite Hgen; cbv zeta.
  rewrite decide_False by done. simpl. eauto.
Qed.

Lemma generateUniqueSestine_returned fuel count keys rngFactory c options now w out keys' w' :
  generateUniqueSestine fuel count keys rngFactory c options now w = (Returned out, keys', w') →
  length out = count ∧
  (∀ s, s ∈ out → key s ∉ keys) ∧
  NoDup (key <$> out) ∧
  keys' = list_to_set (key <$> out) ∪ keys ∧
  size keys' = (size keys + count)%nat ∧
  (∀ (j : nat) s, out !! j = Some s → createdAt s = now + Z.of_nat j) ∧
  (∀ s, s ∈ out → frozen s = false ∧ key s = sestinaKey (nums s)).
Proof.
  unfold generateUniqueSestine. intros Hrun.
  apply slotsFrom_returned in Hrun as (new & -> & Hlen & Hnd & Hnew & -> & Hslot & Hall).
  simpl. split_and!; try done.
  - rewrite size_union.
    + rewrite size_list_to_set by done. rewrite length_fmap. lia.
    + intros k Hk1 Hk2. apply elem_of_list_to_set, list_elem_of_fmap in Hk1 as (s & -> & Hs).
      by apply Hnew in Hs.
  - intros s Hs. by destruct (Hall s Hs) as (? & ? & _).
Qed.

End LedgerFacts.

(** C6. When the allocation returns, it returns exactly [count]
    combinations, the [j]-th one made for slot [j]; none of their keys was
    in [existingKeys], no two of them share a key, and [existingKeys] has
    become the old set plus these [count] keys. *)
Theorem C6_allocate_returns `{RNG R} {W : Type} (fuel count : nat) (existingKeys : gset string)
    (rngFactory : Z → W → R * W) (c : Constraints) (options : option Options) (now : Z) (w : W)
    (out : list Sestina) (keys' : gset string) (w' : W) :
  generateUniqueSestine fuel count existingKeys rngFactory c options now w
    = (Returned out, keys', w') →
  length out = count ∧
  (∀ (j : nat) s, out !! j = Some s → createdAt s = now + Z.of_nat j) ∧
  (∀ s, s ∈ out → key s ∉ existingKeys) ∧
  NoDup (key <$> out) ∧
  keys' = list_to_set (key <$> out) ∪ existingKeys ∧
  size keys' = (size existingKeys + count)%nat.
Proof.
  intros Hrun. apply generateUniqueSestine_returned in Hrun
    as (Hlen & Hfresh & Hnd & Hkeys & Hsize & Hslot & _).
  by split_and!.
Qed.

Lemma outcome_triple_eta {A B C : Type} (x : outcome A * B * C) (a : A) :
  x.1.1 = Returned a → x = (Returned a, x.1.2, x.2).
Proof. destruct x as [[o b] c]. simpl. by intros ->. Qed.

Lemma C6_allocate_returns_witness :
  ∃ out keys',
    generateUniqueSestine 5 3 {["1-14-21-24-43-50"]} plainFactory cFree None 1000 ()
      = (Returned out, keys', ()) ∧
    key <$> out = ["1-26-48-57-88-89"; "26-30-49-57-67-79"; "4-7-42-44-65-69"] ∧
    createdAt <$> out = [1000; 1001; 1002] ∧
    length out = 3%nat ∧
    size keys' = 4%nat.
Proof.
  pose (run := generateUniqueSestine 5 3 {["1-14-21-24-43-50"]} plainFactory cFree None 1000 ()).
  assert (Hout : run.1.1 = Returned (returnedOr [] run.1.1)) by (vm_compute; reflexivity).
  pose proof (outcome_triple_eta run _ Hout) as Hrun.
  assert (Hw : run.2 = ()) by (by destruct run.2).
  rewrite Hw in Hrun.
  destruct (C6_allocate_returns _ _ _ _ _ _ _ _ _ _ _ Hrun) as (Hlen & _ & _ & _ & _ & Hsize).
  exists (returnedOr [] run.1.1), run.1.2.
  split; [exact Hrun|]. split; [vm_compute; reflexivity|].
  split; [vm_compute; reflexivity|]. split; [exact Hlen|].
  rewrite Hsize. vm_compute. reflexivity.
Defined.

(** ** The batch scheduler *)

Section GenerateFacts.
Variables (fuel : nat) (h : Host) (sc : Scope) (g : Group).

Lemma genCount_pos : 1 ≤ genCount sc.
Proof. unfold genCount. lia. Qed.

Lemma CHUNK_pos : 0 < CHUNK sc.
Proof. unfold CHUNK. repeat case_match; lia. Qed.

(** A loop left without the abort flag set has produced the whole batch. *)
Lemma chunkLoop_done : ∀ steps k produced nonceBase allGenerated keys k' all' keys',
  produced = Z.of_nat (length allGenerated) →
  produced ≤ genCount sc →
  chunkLoop fuel h sc g steps k produced nonceBase allGenerated keys
    = LoopDone k' all' keys' →
  abortFlag h k' = false →
  Z.of_nat (length all') = genCount sc.
Proof.
  induction steps as [|steps IH];
    intros k produced nonceBase allGenerated keys k' all' keys' Hlen Hle; simpl.
  all: destruct (produced <? genCount sc) eqn:Hlt;
    [apply Z.ltb_lt in Hlt|apply Z.ltb_ge in Hlt; intros [= <- <- <-] _; lia].
  all: destruct (abortFlag h k) eqn:Hab; [intros [= <- <- <-]; congruence|]; try done.
  set (take := Z.min (CHUNK sc) (genCount sc - produced)).
  destruct (generateUniqueSestine _ _ _ _ _ _ _ _) as [[[chunk|e|] keys1] w1] eqn:Hgen;
    try done.
  apply generateUniqueSestine_returned in Hgen as (Hchunk & _).
  pose proof CHUNK_pos.
  apply IH.
  - rewrite length_app. lia.
  - rewrite Hchunk. lia.
Qed.

Lemma chunkLoop_steps_enough : ∀ steps k produced nonceBase allGenerated keys keys',
  (Z.to_nat (genCount sc - produced) ≤ steps)%nat →
  chunkLoop fuel h sc g steps k produced nonceBase allGenerated keys ≠ LoopOutOfSteps keys'.
Proof.
  induction steps as [|steps IH];
    intros k produced nonceBase allGenerated keys keys' Hsteps; simpl.
  all: destruct (produced <? genCount sc) eqn:Hlt; [apply Z.ltb_lt in Hlt|done].
  all: destruct (abortFlag h k); [done|]; try lia.
  set (take := Z.min (CHUNK sc) (genCount sc - produced)).
  destruct (generateUniqueSestine _ _ _ _ _ _ _ _) as [[[chunk|e|] keys1] w1] eqn:Hgen;
    try done.
  apply generateUniqueSestine_returned in Hgen as (Hchunk & _).
  pose proof CHUNK_pos.
  apply IH. rewrite Hchunk. lia.
Qed.

Lemma generateWith_not_committed :
  run_report (generateWith fuel h sc g) ≠ Committed →
  run_state (generateWith fuel h sc g) = state sc.
Proof.
  unfold generateWith.
  destruct (chunkLoop _ _ _ _ _ _ _ _ _ _) as [k all keys|e keys|keys|keys]; try done.
  by destruct (abortFlag h k).
Qed.

Lemma generateWith_globalKeys :
  run_globalKeys (generateWith fuel h sc g) = globalKeys (state sc).
Proof.
  unfold generateWith.
  destruct (chunkLoop _ _ _ _ _ _ _ _ _ _) as [k all keys|e keys|keys|keys]; try done.
  by destruct (abortFlag h k).
Qed.

Lemma generateWith_committed :
  run_report (generateWith fuel h sc g) = Committed →
  ∃ allGenerated,
    Z.of_nat (length allGenerated) = genCount sc ∧
    run_state (generateWith fuel h sc g) = commitGenerated h sc g allGenerated (state sc).
Proof.
  unfold generateWith.
  destruct (chunkLoop _ _ _ _ _ _ _ _ _ _) as [k all keys|e keys|keys|keys] eqn:Hloop;
    try done.
  destruct (abortFlag h k) eqn:Hab; [done|]. intros _.
  exists all. split; [|done].
  eapply chunkLoop_done; [| |exact Hloop|exact Hab]; [done|].
  pose proof genCount_pos. lia.
Qed.

End GenerateFacts.

Lemma generateForSelectedGroup_not_committed fuel h sc :
  run_report (generateForSelectedGroup fuel h sc) ≠ Committed →
  run_state (generateForSelectedGroup fuel h sc) = state sc.
Proof.
  unfold generateForSelectedGroup. destruct (selectedGroup sc); [|done].
  apply generateWith_not_committed.
Qed.

Lemma generateForSelectedGroup_globalKeys fuel h sc :
  run_globalKeys (generateForSelectedGroup fuel h sc) = globalKeys (state sc).
Proof.
  unfold generateForSelectedGroup. destruct (selectedGroup sc); [|done].
  apply generateWith_globalKeys.
Qed.

(** C1. A batch that was cancelled, or that stopped on an error, leaves
    the application state as it was, and with it the key ledger computed
    from the state and the [globalKeys] object of the render; so does
    every batch that does not commit.  A batch that is reported as
    committed has added the whole requested count. *)
Theorem C1_batch_all_or_nothing (fuel : nat) (h : Host) (sc : Scope) :
  let r := generateForSelectedGroup fuel h sc in
  (run_report r = Cancelled ∨ (∃ e, run_report r = Alerted e) →
     run_state r = state sc ∧
     globalKeys (run_state r) = globalKeys (state sc) ∧
     run_globalKeys r = globalKeys (state sc)) ∧
  (run_report r ≠ Committed → run_state r = state sc) ∧
  (run_report r = Committed →
     ∃ g allGenerated,
       selectedGroup sc = Some g ∧
       Z.of_nat (length allGenerated) = genCount sc ∧
       run_state r = commitGenerated h sc g allGenerated (state sc)).
Proof.
  intros r. split_and!.
  - intros Hrep.
    assert (Hst : run_state r = state sc).
    { apply generateForSelectedGroup_not_committed. fold r.
      destruct Hrep as [->|[e ->]]; done. }
    split_and!; [done|by rewrite Hst|apply generateForSelectedGroup_globalKeys].
  - apply generateForSelectedGroup_not_committed.
  - subst r. unfold generateForSelectedGroup.
    destruct (selectedGroup sc) as [g|]; [|done].
    intros Hrep. apply generateWith_committed in Hrep as (all & Hlen & Hst).
    by exists g, all.
Qed.

Lemma C1_batch_all_or_nothing_witness :
  let sc := scenarioScope false [emptyGroup "g1"] 51 cFree in
  let r := generateForSelectedGroup 5 (scenarioHost 7 true) sc in
  run_report r = Cancelled ∧ size (run_keys r) = 50%nat ∧
  run_state r = state sc ∧ run_globalKeys r = globalKeys (state sc).
Proof.
  intros sc r.
  assert (Hrep : run_report r = Cancelled ∧ size (run_keys r) = 50%nat)
    by (vm_compute; split; reflexivity).
  destruct Hrep as [Hrep Hkeys].
  destruct (C1_batch_all_or_nothing 5 (scenarioHost 7 true) sc) as [Hnothing _].
  destruct (Hnothing (or_introl Hrep)) as (Hst & _ & Hledger).
  exact (conj Hrep (conj Hkeys (conj Hst Hledger))).
Defined.

(** ** Allocation is not atomic; the handlers work on a copy *)

Section RegenerateFacts.
Variables (fuel : nat) (h : Host) (sc : Scope).

Lemma regenerate_globalKeys groupId :
  run_globalKeys (regenerateNonFrozenInGroup fuel h sc groupId) = globalKeys (state sc).
Proof.
  unfold regenerateNonFrozenInGroup.
  destruct (find _ _) as [g|]; [|done].
  cbv zeta. case_match; [done|].
  by destruct (generateUniqueSestine _ _ _ _ _ _ _ _) as [[[out|e|] keys'] w'].
Qed.

Lemma regenerate_not_committed groupId :
  run_report (regenerateNonFrozenInGroup fuel h sc groupId) ≠ Committed →
  run_state (regenerateNonFrozenInGroup fuel h sc groupId) = state sc.
Proof.
  unfold regenerateNonFrozenInGroup.
  destruct (find _ _) as [g|]; [|done].
  cbv zeta. case_match; [done|].
  by destruct (generateUniqueSestine _ _ _ _ _ _ _ _) as [[[out|e|] keys'] w'].
Qed.

End RegenerateFacts.

(** Under six mandatory numbers the sampler can only return them. *)
Lemma sampler_cSix `{RNG R} (fuel : nat) (rng : R) :
  (generateRandomSestinaWithConstraints fuel rng cSix).1 = Returned [1; 2; 3; 4; 5; 6].
Proof.
  rewrite sampler_unfold; cbv zeta.
  rewrite decide_False by (vm_compute; lia).
  rewrite fill_full by (vm_compute; lia).
  replace (isValidSestina _ cSix) with true by (vm_compute; reflexivity).
  replace (normalizeNums _) with [1; 2; 3; 4; 5; 6] by (vm_compute; reflexivity).
  reflexivity.
Qed.

(** Hence a second slot can never be filled. *)
Lemma allocate_two_cSix `{RNG R} {W : Type} (fuel : nat) (keys : gset string)
    (rngFactory : Z → W → R * W) (options : option Options) (now : Z) (w : W) :
  "1-2-3-4-5-6" ∉ keys →
  ∃ w', generateUniqueSestine fuel 2 keys rngFactory cSix options now w
        = (Threw UniquenessExhausted, {["1-2-3-4-5-6"]} ∪ keys, w').
Proof.
  intros Hfresh. unfold generateUniqueSestine. simpl.
  destruct (findUnique_fresh fuel rngFactory cSix options now 0 keys [1; 2; 3; 4; 5; 6]
              NONCE_GUARD 0 w (sampler_cSix fuel)) as (s & Hs & Hkey).
  { replace (sestinaKey _) with "1-2-3-4-5-6" by (vm_compute; reflexivity). done. }
  destruct (findUnique fuel NONCE_GUARD 0 0 keys _ _ _ _ _) as [o w1].
  simpl in Hs. subst o.
  replace (sestinaKey _) with "1-2-3-4-5-6" in Hkey by (vm_compute; reflexivity).
  rewrite Hkey.
  pose proof (findUnique_collides fuel rngFactory cSix options now (0 + 1)
                ({["1-2-3-4-5-6"]} ∪ keys) [1; 2; 3; 4; 5; 6] (sampler_cSix fuel)) as Hcol.
  specialize (Hcol ltac:(replace (sestinaKey _) with "1-2-3-4-5-6"
                           by (vm_compute; reflexivity); set_solver) NONCE_GUARD 0 w1).
  destruct (findUnique fuel NONCE_GUARD 0 (0 + 1) _ _ _ _ _ _) as [o w2].
  simpl in Hcol. subst o. by exists w2.
Qed.

Lemma chunkLoop_unfold fuel h sc g steps k produced nonceBase allGenerated keys :
  chunkLoop fuel h sc g steps k produced nonceBase allGenerated keys =
    if produced <? genCount sc then
      if abortFlag h k then LoopDone k allGenerated keys
      else
        match steps with
        | O => LoopOutOfSteps keys
        | S steps' =>
            let take := Z.min (CHUNK sc) (genCount sc - produced) in
            match generateUniqueSestine fuel (Z.to_nat take) keys (rngFactory h sc g nonceBase)
                    (constraints sc) (Some (genOptions sc)) (chunkTime h k) () with
            | (Returned chunk, keys', _) =>
                chunkLoop fuel h sc g steps' (S k) (produced + Z.of_nat (length chunk))
                          (nonceBase + take * 3) (allGenerated ++ chunk) keys'
            | (Threw e, keys', _) => LoopThrew e keys'
            | (Diverged, keys', _) => LoopHung keys'
            end
        end
    else LoopDone k allGenerated keys.
Proof. destruct steps; reflexivity. Qed.

(** C10. [generateUniqueSestine] changes the set it is given as it goes.
    When it throws, that set is the one a shorter allocation of [j] slots
    leaves on success: the keys of the [j] slots accepted before the
    failure are in it.  The allocation of two combinations under six
    mandatory numbers accepts the first slot, throws on the second and
    leaves the first key in the set.  Both handlers hand it their own copy:
    whatever happens the [globalKeys] object is left as it was, and the
    state too unless the handler commits. *)
Theorem C10_allocation_mutates_in_place :
  (∀ (R : Type) (HR : RNG R) (W : Type) (fuel count : nat) (existingKeys : gset string)
     (rngFactory : Z → W → R * W) (c : Constraints) (options : option Options) (now : Z)
     (w : W) (e : GenError) (keys' : gset string) (w' : W),
     generateUniqueSestine fuel count existingKeys rngFactory c options now w
       = (Threw e, keys', w') →
     ∃ (j : nat) (out : list Sestina) (w'' : W),
       (j < count)%nat ∧
       generateUniqueSestine fuel j existingKeys rngFactory c options now w
         = (Returned out, keys', w'') ∧
       keys' = list_to_set (key <$> out) ∪ existingKeys ∧
       size keys' = (size existingKeys + j)%nat) ∧
  (let run := generateUniqueSestine 0 2 ∅ plainFactory cSix None 0 () in
   run.1.1 = Threw UniquenessExhausted ∧ elements run.1.2 = ["1-2-3-4-5-6"]) ∧
  (∀ fuel h sc,
     let r := generateForSelectedGroup fuel h sc in
     run_globalKeys r = globalKeys (state sc) ∧
     (run_report r ≠ Committed → run_state r = state sc)) ∧
  (∀ fuel h sc groupId,
     let r := regenerateNonFrozenInGroup fuel h sc groupId in
     run_globalKeys r = globalKeys (state sc) ∧
     (run_report r ≠ Committed → run_state r = state sc)) ∧
  (let r := generateForSelectedGroup 0 (scenarioHost 7 false)
              (scenarioScope false [emptyGroup "g1"] 2 cSix) in
   run_report r = Alerted UniquenessExhausted ∧
   elements (run_keys r) = ["1-2-3-4-5-6"] ∧
   elements (run_globalKeys r) = []).
Proof.
  split_and!.
  - intros R HR W fuel count existingKeys rngFactory c options now w e keys' w' Hrun.
    unfold generateUniqueSestine in Hrun.
    apply slotsFrom_threw in Hrun as (j & out & w'' & Hj & Hrun).
    exists j, out, w''. split; [done|]. split; [done|].
    apply generateUniqueSestine_returned in Hrun as (_ & _ & _ & Hkeys & Hsize & _).
    done.
  - destruct (allocate_two_cSix 0 ∅ plainFactory None 0 ()) as [w' Hrun]; [set_solver|].
    cbv zeta. rewrite Hrun. simpl. split; [done|].
    rewrite union_empty_r_L. apply elements_singleton.
  - intros fuel h sc r. split.
    + apply generateForSelectedGroup_globalKeys.
    + apply generateForSelectedGroup_not_committed.
  - intros fuel h sc groupId r. split.
    + apply regenerate_globalKeys.
    + apply regenerate_not_committed.
  - set (sc := scenarioScope false [emptyGroup "g1"] 2 cSix).
    set (h := scenarioHost 7 false).
    unfold generateForSelectedGroup.
    replace (selectedGroup sc) with (Some (emptyGroup "g1")) by (vm_compute; reflexivity).
    unfold generateWith.
    replace (Z.to_nat (genCount sc)) with 2%nat by (vm_compute; reflexivity).
    rewrite chunkLoop_unfold.
    replace (0 <? genCount sc) with true by (vm_compute; reflexivity).
    replace (abortFlag h 0) with false by reflexivity.
    cbv zeta.
    replace (Z.to_nat (Z.min (CHUNK sc) (genCount sc - 0))) with 2%nat
      by (vm_compute; reflexivity).
    replace (constraints sc) with cSix by reflexivity.
    replace (globalKeys (state sc)) with (∅ : gset string) by reflexivity.
    destruct (allocate_two_cSix 0 ∅ (rngFactory h sc (emptyGroup "g1") 0)
                (Some (genOptions sc)) (chunkTime h 0) ()) as [w' Hrun]; [set_solver|].
    rewrite Hrun. simpl. split; [done|].
    split; [|apply elements_empty].
    rewrite union_empty_r_L. apply elements_singleton.
Qed.

Lemma C10_allocation_mutates_in_place_witness :
  let run := generateUniqueSestine 0 2 ∅ plainFactory cSix None 0 () in
  run.1.1 = Threw UniquenessExhausted ∧
  ∃ (j : nat) (out : list Sestina),
    (j < 2)%nat ∧
    generateUniqueSestine 0 j ∅ plainFactory cSix None 0 () = (Returned out, run.1.2, ()) ∧
    size run.1.2 = (size (∅ : gset string) + j)%nat.
Proof.
  intros run.
  destruct C10_allocation_mutates_in_place as (Hgeneral & (Hthrew & _) & _).
  split; [exact Hthrew|].
  assert (Hrun : run = (Threw UniquenessExhausted, run.1.2, ())).
  { fold run in Hthrew. destruct run as [[o k] []]. simpl in *. by subst o. }
  destruct (Hgeneral _ _ _ _ _ _ _ _ _ _ _ _ _ _ Hrun)
    as (j & out & [] & Hj & Hshort & _ & Hsize).
  exists j, out. by split_and!.
Defined.

Lemma C5_impossible_constraint_witness :
  (6 < size (list_to_set (mustInclude cSeven) : gset Z))%nat ∧
  generateRandomSestinaWithConstraints 3 (Rng.mulberry32 42) cSeven
    = (Threw ImpossibleConstraint, Rng.mulberry32 42).
Proof.
  assert (Hsz : (6 < size (list_to_set (mustInclude cSeven) : gset Z))%nat)
    by (vm_compute; lia).
  destruct (C5_impossible_constraint 3 (Rng.mulberry32 42) cSeven) as [_ Hthrow].
  exact (conj Hsz (Hthrow Hsz)).
Defined.

(** ** Reproducibility of the seeded mode *)

Section ClockFacts.
Context {R : Type} `{RNG R} {W : Type}.
Implicit Types (keys : gset string) (rngFactory : Z → W → R * W) (w : W).

(** Reading another time only shifts [createdAt]. *)
Lemma findUnique_now fuel rngFactory c options now1 now2 i keys :
  ∀ left nonce w,
    findUnique fuel left nonce i keys rngFactory c options now2 w =
      let r := findUnique fuel left nonce i keys rngFactory c options now1 w in
      (outcome_map (restamp (now2 - now1)) r.1, r.2).
Proof.
  induction left as [|l IH]; intros nonce w;
    rewrite (findUnique_unfold _ _ _ _ _ _ _ _ now2), (findUnique_unfold _ _ _ _ _ _ _ _ now1).
  all: destruct (rngFactory nonce w) as [rng w1].
  all: destruct (generateRandomSestinaWithConstraints fuel rng c).1 as [ns|e|]; try done.
  all: cbv zeta; case_decide; try done; try apply IH.
  all: simpl; unfold restamp; simpl; do 2 f_equal; f_equal; lia.
Qed.

Lemma slotsFrom_now fuel rngFactory c options now1 now2 :
  ∀ n i out keys w,
    slotsFrom fuel n i (restamp (now2 - now1) <$> out) keys rngFactory c options now2 w =
      let r := slotsFrom fuel n i out keys rngFactory c options now1 w in
      (outcome_map (fmap (restamp (now2 - now1))) r.1.1, r.1.2, r.2).
Proof.
  induction n as [|n IH]; intros i out keys w; simpl; [done|].
  rewrite (findUnique_now _ _ _ _ now1 now2). cbv zeta.
  destruct (findUnique fuel NONCE_GUARD 0 i keys rngFactory c options now1 w)
    as [[s|e|] w1]; simpl; try done.
  rewrite <- IH. by rewrite fmap_app.
Qed.

Lemma generateUniqueSestine_now fuel count keys rngFactory c options now1 now2 w :
  generateUniqueSestine fuel count keys rngFactory c options now2 w =
    let r := generateUniqueSestine fuel count keys rngFactory c options now1 w in
    (outcome_map (fmap (restamp (now2 - now1))) r.1.1, r.1.2, r.2).
Proof. unfold generateUniqueSestine. by rewrite <- slotsFrom_now. Qed.

End ClockFacts.

Lemma nums_restamp d (l : list Sestina) : nums <$> (restamp d <$> l) = nums <$> l.
Proof. rewrite <- list_fmap_compose. by apply list_fmap_ext. Qed.

Section SeededFacts.
Variables (fuel : nat) (h1 h2 : Host) (sc : Scope) (g : Group).
Hypothesis Hseed : seedEnabled (settings (state sc)) = true.
Hypothesis Habort : ∀ k, abortPressed h1 k = abortPressed h2 k.

Lemma abortFlag_same k : abortFlag h1 k = abortFlag h2 k.
Proof using Habort. destruct k; [done|apply Habort]. Qed.

Lemma rngFactory_seeded h nonceBase nonce w :
  rngFactory h sc g nonceBase nonce w =
    (Rng.rngFromSeed (seededStreamName (genSeed sc) (id g) (totalSestine (state sc))
                        (nonceBase + nonce)), w).
Proof using Hseed. unfold rngFactory. by rewrite Hseed. Qed.

Lemma rngFactory_same nonceBase :
  rngFactory h1 sc g nonceBase = rngFactory h2 sc g nonceBase.
Proof using Hseed. unfold rngFactory. by rewrite Hseed. Qed.

Lemma chunkLoop_seeded : ∀ steps k produced nonceBase all1 all2 keys,
  nums <$> all1 = nums <$> all2 →
  sameExit (chunkLoop fuel h1 sc g steps k produced nonceBase all1 keys)
           (chunkLoop fuel h2 sc g steps k produced nonceBase all2 keys).
Proof using Hseed Habort.
  induction steps as [|steps IH]; intros k produced nonceBase all1 all2 keys Hall;
    rewrite !chunkLoop_unfold.
  all: destruct (produced <? genCount sc); [|by simpl].
  all: rewrite abortFlag_same; destruct (abortFlag h2 k); [by simpl|]; try (by simpl).
  cbv zeta. rewrite rngFactory_same.
  rewrite (generateUniqueSestine_now _ _ _ _ _ _ (chunkTime h1 k) (chunkTime h2 k)).
  cbv zeta.
  destruct (generateUniqueSestine _ _ _ _ _ _ (chunkTime h1 k) ())
    as [[[chunk|e|] keys1] w1]; simpl; try done.
  rewrite length_fmap. apply IH.
  rewrite !fmap_app, nums_restamp. by rewrite Hall.
Qed.

Lemma commitGenerated_combos all1 all2 st :
  nums <$> all1 = nums <$> all2 →
  combos (commitGenerated h1 sc g all1 st) = combos (commitGenerated h2 sc g all2 st).
Proof.
  intros Hall. unfold combos, commitGenerated. simpl.
  rewrite <- !list_fmap_compose. apply list_fmap_ext. intros j x _. simpl.
  case_bool_decide; simpl; [done|]. rewrite !fmap_app. by rewrite Hall.
Qed.

Lemma generateWith_seeded :
  let r1 := generateWith fuel h1 sc g in
  let r2 := generateWith fuel h2 sc g in
  run_report r1 = run_report r2 ∧
  combos (run_state r1) = combos (run_state r2) ∧
  run_keys r1 = run_keys r2.
Proof using Hseed Habort.
  unfold generateWith.
  pose proof (chunkLoop_seeded (Z.to_nat (genCount sc)) 0 0 0 [] []
                (globalKeys (state sc)) eq_refl) as Hsame.
  destruct (chunkLoop fuel h1 _ _ _ _ _ _ _ _) as [k1 a1 ks1|e1 ks1|ks1|ks1];
    destruct (chunkLoop fuel h2 _ _ _ _ _ _ _ _) as [k2 a2 ks2|e2 ks2|ks2|ks2];
    simpl in Hsame; try done.
  1:{ destruct Hsame as (<- & Hall & <-). rewrite abortFlag_same.
      destruct (abortFlag h2 k1); simpl; [done|].
      split_and!; [done|by apply commitGenerated_combos|done]. }
  all: try (by destruct Hsame as (<- & <-)); by subst.
Qed.

End SeededFacts.

(** C2. In the seeded mode the stream handed to the sampler is
    [rngFromSeed] of a string made of the seed, the identity of the group,
    the index of the next combination (the number of combinations held
    when the batch starts) and the nonce, and of nothing else: wherever
    these four agree the stream is the same; the stream of a regeneration
    does not depend on the host either.  Two runs of a batch from the same
    state, with the same constraints and the same cancellation, end with
    the same report, the same combinations in every group and the same
    keys, whatever the entropy and the clock of the host. *)
Theorem C2_seeded_generation_is_reproducible (fuel : nat) (h1 h2 : Host) (sc : Scope) :
  seedEnabled (settings (state sc)) = true →
  (∀ k, abortPressed h1 k = abortPressed h2 k) →
  let r1 := generateForSelectedGroup fuel h1 sc in
  let r2 := generateForSelectedGroup fuel h2 sc in
  (∀ g nonceBase nonce,
     rngFactory h1 sc g nonceBase nonce () =
       (Rng.rngFromSeed (seededStreamName (JS.trim (seedValue (settings (state sc)))) (id g)
                           (totalSestine (state sc)) (nonceBase + nonce)), ())) ∧
  (∀ h' sc' g g' nonceBase nonceBase' nonce nonce',
     seedEnabled (settings (state sc')) = true →
     JS.trim (seedValue (settings (state sc'))) = JS.trim (seedValue (settings (state sc))) →
     id g' = id g →
     totalSestine (state sc') = totalSestine (state sc) →
     nonceBase' + nonce' = nonceBase + nonce →
     rngFactory h' sc' g' nonceBase' nonce' () = rngFactory h1 sc g nonceBase nonce ()) ∧
  (∀ g nonce w, regenFactory h1 sc g nonce w = regenFactory h2 sc g nonce w) ∧
  run_report r1 = run_report r2 ∧
  combos (run_state r1) = combos (run_state r2) ∧
  run_keys r1 = run_keys r2.
Proof.
  intros Hseed Habort r1 r2. split_and!.
  - intros g nonceBase nonce. rewrite !rngFactory_seeded by done.
    unfold genSeed. by rewrite Hseed.
  - intros h' sc' g g' nonceBase nonceBase' nonce nonce' Hseed' Hval Hid Htotal Hnn.
    rewrite !rngFactory_seeded by done.
    unfold genSeed. by rewrite Hseed, Hseed', Hval, Hid, Htotal, Hnn.
  - intros g nonce w. unfold regenFactory. by rewrite Hseed.
  - subst r1 r2. unfold generateForSelectedGroup.
    destruct (selectedGroup sc) as [g|]; [|done].
    by apply generateWith_seeded.
  - subst r1 r2. unfold generateForSelectedGroup.
    destruct (selectedGroup sc) as [g|]; [|done].
    by apply generateWith_seeded.
  - subst r1 r2. unfold generateForSelectedGroup.
    destruct (selectedGroup sc) as [g|]; [|done].
    by apply generateWith_seeded.
Qed.

Lemma C2_seeded_generation_is_reproducible_witness :
  let sc := scenarioScope true [emptyGroup "g1"] 3 cFree in
  let h1 := scenarioHost 7 false in
  let h2 := {| entropy := λ i, 123456789 + Z.of_nat i; chunkTime := λ _, 777;
               commitTime := 999; abortPressed := λ _, false |} in
  combos (run_state (generateForSelectedGroup 5 h1 sc))
    = [[[6; 23; 31; 48; 53; 68]; [4; 7; 37; 50; 54; 69]; [4; 25; 57; 67; 68; 89]]] ∧
  combos (run_state (generateForSelectedGroup 5 h2 sc))
    = combos (run_state (generateForSelectedGroup 5 h1 sc)) ∧
  run_report (generateForSelectedGroup 5 h2 sc) = Committed.
Proof.
  intros sc h1 h2.
  destruct (C2_seeded_generation_is_reproducible 5 h1 h2 sc eq_refl (λ k, eq_refl))
    as (_ & _ & _ & Hrep & Hcombos & _).
  split; [vm_compute; reflexivity|]. split; [by symmetry|].
  rewrite <- Hrep. vm_compute. reflexivity.
Defined.

(** ** Regeneration of the combinations that are not frozen *)

Lemma filter_frozen_split (l : list Sestina) :
  (length (List.filter frozen l) + length (List.filter (λ s, negb (frozen s)) l))%nat
    = length l.
Proof. induction l as [|s l IH]; simpl; [done|]. destruct (frozen s); simpl; lia. Qed.

Lemma filter_frozen_idem (l : list Sestina) :
  List.filter frozen (List.filter frozen l) = List.filter frozen l.
Proof.
  induction l as [|s l IH]; simpl; [done|].
  destruct (frozen s) eqn:Hs; simpl; [|done]. by rewrite Hs, IH.
Qed.

Lemma filter_frozen_none (l : list Sestina) :
  (∀ s, s ∈ l → frozen s = false) → List.filter frozen l = [].
Proof.
  induction l as [|s l IH]; intros Hall; simpl; [done|].
  rewrite (Hall s) by apply list_elem_of_here.
  apply IH. intros s' Hs'. apply Hall. by apply list_elem_of_further.
Qed.

Lemma find_fmap_same {A} (p : A → bool) (f : A → A) (l : list A) :
  (∀ x, p (f x) = p x) → find p (f <$> l) = f <$> find p l.
Proof.
  intros Hp. induction l as [|x l IH]; simpl; [done|].
  rewrite Hp. by destruct (p x).
Qed.

Section ReleaseFacts.
Variables (fuel : nat) (h : Host) (sc : Scope).

Lemma release_fold (l : list Sestina) : ∀ keys : gset string,
  fold_left (λ keys s, if frozen s then keys else keys ∖ {[key s]}) l keys
    = keys ∖ list_to_set (key <$> List.filter (λ s, negb (frozen s)) l).
Proof.
  induction l as [|s l IH]; intros keys; simpl.
  - set_solver.
  - rewrite IH. destruct (frozen s); simpl; set_solver.
Qed.

Lemma regenKeys_released g :
  regenKeys sc g
    = globalKeys (state sc) ∖ list_to_set (key <$> List.filter (λ s, negb (frozen s)) (sestine g)).
Proof. apply release_fold. Qed.

Lemma toRegenCount_released g :
  Z.of_nat (length (sestine g)) - Z.of_nat (length (List.filter frozen (sestine g)))
    = Z.of_nat (length (List.filter (λ s, negb (frozen s)) (sestine g))).
Proof. pose proof (filter_frozen_split (sestine g)). lia. Qed.

End ReleaseFacts.

Lemma and_snoc3 (A B C D : Prop) : A ∧ B ∧ C → D → A ∧ B ∧ C ∧ D.
Proof. tauto. Qed.

Lemma regenerate_other_groups fuel h sc groupId x :
  x ∈ groups (state sc) → id x ≠ groupId →
  x ∈ groups (run_state (regenerateNonFrozenInGroup fuel h sc groupId)).
Proof.
  intros Hx Hne. unfold regenerateNonFrozenInGroup.
  destruct (find _ _) as [g|] eqn:Hfind; [|done].
  cbv zeta. case_match; [done|].
  destruct (generateUniqueSestine _ _ _ _ _ _ _ _) as [[[regenerated|e|] keys'] w'];
    simpl; try done.
  apply list_elem_of_fmap. exists x. split; [|done].
  rewrite bool_decide_true; [done|].
  apply find_some in Hfind as [_ Hp]. apply bool_decide_eq_true in Hp. congruence.
Qed.

(** C9. The key set that regeneration hands to the allocation is the
    ledger of the render without the keys of the combinations of the group
    that are not frozen, so that a replacement may take the key of the
    combination it replaces; what the allocation returns is fresh for that
    set.  Whatever the outcome, the frozen combinations of the group are
    the same afterwards, in the same order, and the group holds as many
    combinations as before; the other groups are left alone. *)
Theorem C9_regenerate_releases_then_samples (fuel : nat) (h : Host) (sc : Scope)
    (groupId : string) (g : Group) :
  find (λ x, bool_decide (id x = groupId)) (groups (state sc)) = Some g →
  let r := regenerateNonFrozenInGroup fuel h sc groupId in
  let released := key <$> List.filter (λ s, negb (frozen s)) (sestine g) in
  regenKeys sc g = globalKeys (state sc) ∖ list_to_set released ∧
  (run_report r = Committed →
     ∃ regenerated keys' w',
       generateUniqueSestine fuel (length released) (regenKeys sc g) (regenFactory h sc g)
         (constraints sc) (Some (regenOptions sc)) (chunkTime h 0) O
         = (Returned regenerated, keys', w') ∧
       (∀ s, s ∈ regenerated → key s ∉ globalKeys (state sc) ∖ list_to_set released) ∧
       run_state r = commitRegenerated h sc g (Z.of_nat (length released))
                       (List.filter frozen (sestine g)) regenerated (state sc)) ∧
  (∃ g', find (λ x, bool_decide (id x = groupId)) (groups (run_state r)) = Some g' ∧
         List.filter frozen (sestine g') = List.filter frozen (sestine g) ∧
         length (sestine g') = length (sestine g)) ∧
  (∀ x, x ∈ groups (state sc) → id x ≠ groupId → x ∈ groups (run_state r)).
Proof.
  intros Hfind r released.
  apply and_snoc3; [|intros x Hx Hne; by apply regenerate_other_groups].
  assert (Hcount : Z.of_nat (length (sestine g))
                   - Z.of_nat (length (List.filter frozen (sestine g)))
                   = Z.of_nat (length released)).
  { unfold released. rewrite length_fmap. apply toRegenCount_released. }
  assert (Hid : id g = groupId).
  { apply find_some in Hfind as [_ Hp]. by apply bool_decide_eq_true in Hp. }
  split; [apply regenKeys_released|].
  subst r. unfold regenerateNonFrozenInGroup. rewrite Hfind. cbv zeta.
  rewrite Hcount, Nat2Z.id.
  case_match; [split; [done|]; by exists g|].
  destruct (generateUniqueSestine _ _ _ _ _ _ _ _) as [[[regenerated|e|] keys'] w'] eqn:Hgen;
    simpl; try (split; [done|]; by exists g).
  apply generateUniqueSestine_returned in Hgen as Hfacts.
  destruct Hfacts as (Hlen & Hfresh & _ & _ & _ & _ & Hall).
  split.
  - intros _. exists regenerated, keys', w'. split; [done|]. split; [|done].
    intros s Hs. unfold released. rewrite <- regenKeys_released. by apply Hfresh.
  - rewrite find_fmap_same.
    2:{ intros x. by destruct (bool_decide (id x ≠ id g)). }
    rewrite Hfind. simpl. rewrite bool_decide_false by (by intros []).
    eexists. split; [done|]. simpl. split.
    + rewrite List.filter_app, filter_frozen_idem.
      rewrite (filter_frozen_none regenerated); [by rewrite app_nil_r|].
      intros s Hs. by destruct (Hall s Hs).
    + rewrite length_app, Hlen. unfold released. rewrite length_fmap.
      pose proof (filter_frozen_split (sestine g)). lia.
Qed.

Lemma C9_regenerate_releases_then_samples_witness :
  let sc := scenarioScope true [groupSix] 1 cSix in
  let r := regenerateNonFrozenInGroup 0 (scenarioHost 7 false) sc "g1" in
  run_report r = Committed ∧
  elements (regenKeys sc groupSix) = ["10-20-30-40-50-60"] ∧
  (λ x, key <$> sestine x) <$> groups (run_state r) = [["10-20-30-40-50-60"; "1-2-3-4-5-6"]] ∧
  ∃ g', find (λ x, bool_decide (id x = "g1")) (groups (run_state r)) = Some g' ∧
        List.filter frozen (sestine g') = List.filter frozen (sestine groupSix) ∧
        length (sestine g') = length (sestine groupSix).
Proof.
  intros sc r.
  destruct (C9_regenerate_releases_then_samples 0 (scenarioHost 7 false) sc "g1" groupSix
              eq_refl) as (_ & _ & Hframe & _).
  split; [vm_compute; reflexivity|].
  split; [vm_compute; reflexivity|].
  split; [vm_compute; reflexivity|].
  exact Hframe.
Defined.

(** ** The probability engine *)

Section BinomialFacts.

Lemma choose_0_r n : choose n 0 = 1%nat.
Proof. by destruct n. Qed.

Lemma choose_gt : ∀ n k, (n < k)%nat → choose n k = 0%nat.
Proof.
  induction n as [|n IH]; intros [|k] Hlt; simpl; try lia.
  rewrite !IH by lia. lia.
Qed.

Lemma choose_diag n : choose n n = 1%nat.
Proof.
  induction n as [|n IH]; simpl; [done|].
  rewrite IH, choose_gt by lia. lia.
Qed.

Lemma choose_pascal n k : choose (S n) (S k) = (choose n k + choose n (S k))%nat.
Proof. reflexivity. Qed.

(** The step of the multiplicative formula. *)
Lemma choose_succ_mul : ∀ n k,
  (S k * choose (S n) (S k) = S n * choose n k)%nat.
Proof.
  induction n as [|n IH]; intros k.
  - destruct k as [|k]; simpl; lia.
  - rewrite (choose_pascal (S n) k).
    destruct k as [|k].
    + pose proof (IH 0%nat) as H0. rewrite !choose_0_r in *. lia.
    + pose proof (IH k) as Hk. pose proof (IH (S k)) as Hsk.
      rewrite (choose_pascal n k) in *.
      nia.
Qed.

Lemma choose_fact : ∀ n k,
  (k ≤ n)%nat → (choose n k * (fact k * fact (n - k)) = fact n)%nat.
Proof.
  induction n as [|n IH]; intros k Hle.
  - replace k with 0%nat by lia. done.
  - destruct k as [|k].
    + rewrite choose_0_r. simpl. lia.
    + pose proof (choose_succ_mul n k) as Hstep.
      pose proof (IH k ltac:(lia)) as Hk.
      replace (S n - S k)%nat with (n - k)%nat by lia.
      change (fact (S k)) with (S k * fact k)%nat.
      change (fact (S n)) with (S n * fact n)%nat.
      rewrite <- Hk.
      transitivity ((S k * choose (S n) (S k)) * (fact k * fact (n - k)))%nat; [lia|].
      rewrite Hstep. lia.
Qed.

Lemma choose_sym n k : (k ≤ n)%nat → choose n k = choose n (n - k).
Proof.
  intros Hle.
  pose proof (choose_fact n k Hle) as H1.
  pose proof (choose_fact n (n - k) ltac:(lia)) as H2.
  replace (n - (n - k))%nat with k in H2 by lia.
  pose proof (lt_O_fact k). pose proof (lt_O_fact (n - k)).
  apply (Nat.mul_cancel_r _ _ (fact k * fact (n - k))); [nia|].
  rewrite H1, <- H2. lia.
Qed.

End BinomialFacts.

Section NckFacts.
Local Open Scope Qc_scope.

Lemma Qc_of_nat_nonzero (n : nat) : Qc_of_Z (Z.of_nat (S n)) ≠ 0.
Proof. rewrite <- Z2Qc_inj_0. intros Heq. apply Z2Qc_inj in Heq. lia. Qed.

(** After [j] iterations [res] is [C(m + j, j)], where [m = n - k]. *)
Lemma nCk_loop_choose (m : nat) (n k : Z) : ∀ steps (j : nat),
  (n - k)%Z = Z.of_nat m →
  nCk_loop steps (Z.of_nat j + 1) n k (Qc_of_Z (Z.of_nat (choose (m + j) j)))
    = Qc_of_Z (Z.of_nat (choose (m + j + steps) (j + steps))).
Proof.
  induction steps as [|steps IH]; intros j Hm; simpl.
  - by rewrite !Nat.add_0_r.
  - replace (n - (k - (Z.of_nat j + 1)))%Z with (Z.of_nat (S (m + j))) by lia.
    replace (Z.of_nat j + 1)%Z with (Z.of_nat (S j)) by lia.
    rewrite <- Z2Qc_inj_mul, <- Nat2Z.inj_mul.
    rewrite (Nat.mul_comm (choose _ _)), <- choose_succ_mul.
    rewrite Nat2Z.inj_mul, Z2Qc_inj_mul.
    rewrite (Qcmult_comm (Qc_of_Z (Z.of_nat (S j)))).
    rewrite Qcdiv_mult_l by apply Qc_of_nat_nonzero.
      specialize (IH (S j) Hm).
    replace (m + S j)%nat with (S (m + j)) in IH by lia.
    rewrite IH. f_equal. f_equal. f_equal; lia.
Qed.

Lemma nCk_choose (n k : nat) :
  nCk (Z.of_nat n) (Z.of_nat k) = Qc_of_Z (Z.of_nat (choose n k)).
Proof.
  unfold nCk.
  replace (Z.of_nat k <? 0)%Z with false by (symmetry; apply Z.ltb_ge; lia).
  destruct (Z.of_nat n <? Z.of_nat k)%Z eqn:Hlt; simpl.
  - apply Z.ltb_lt in Hlt. rewrite choose_gt by lia. symmetry. apply Z2Qc_inj_0.
  - apply Z.ltb_ge in Hlt.
    set (k' := Z.min (Z.of_nat k) (Z.of_nat n - Z.of_nat k)).
    pose proof (nCk_loop_choose (n - Z.to_nat k') (Z.of_nat n) k' (Z.to_nat k') 0) as Hloop.
    rewrite Nat.add_0_r, choose_0_r, Nat.add_0_l in Hloop.
    change (Z.of_nat 0 + 1)%Z with 1%Z in Hloop.
    change (Z.of_nat 1) with 1%Z in Hloop.
    rewrite Z2Qc_inj_1 in Hloop.
    rewrite Hloop by lia.
    replace (n - Z.to_nat k' + Z.to_nat k')%nat with n by lia.
    destruct (decide (Z.of_nat k ≤ Z.of_nat n - Z.of_nat k)%Z).
    + replace (Z.to_nat k') with k by lia. done.
    + replace (Z.to_nat k') with (n - k)%nat by lia.
      by rewrite <- choose_sym by lia.
Qed.

Lemma nCk_out_of_range (n k : Z) : (k < 0 ∨ n < k)%Z → nCk n k = 0.
Proof.
  intros Hout. unfold nCk.
  replace ((k <? 0)%Z || (n <? k)%Z) with true; [done|].
  symmetry. apply orb_true_iff. destruct Hout; [left|right]; by apply Z.ltb_lt.
Qed.

Lemma singleTicketExactMatchProb_choose (r : nat) :
  (r ≤ 6)%nat →
  singleTicketExactMatchProb (Z.of_nat r)
    = Qc_of_Z (Z.of_nat (choose 6 r * choose 84 (6 - r)))
      / Qc_of_Z (Z.of_nat (choose 90 6)).
Proof.
  intros Hr. unfold singleTicketExactMatchProb.
  change 90%Z with (Z.of_nat 90). change 84%Z with (Z.of_nat 84).
  change 6%Z with (Z.of_nat 6).
  rewrite <- Nat2Z.inj_sub by done.
  rewrite !nCk_choose. by rewrite Nat2Z.inj_mul, Z2Qc_inj_mul.
Qed.

End NckFacts.

Section DistributionFacts.
Local Open Scope Qc_scope.

Lemma Qcpower_le_mono (a b : Qc) (k : nat) : 0 ≤ a → a ≤ b → a ^ k ≤ b ^ k.
Proof.
  intros Ha Hab. induction k as [|k IH]; simpl; [done|].
  trans (a * b ^ k).
  - by apply Qcmult_le_mono_nonneg_l.
  - apply Qcmult_le_mono_nonneg_r; [|done].
    apply Qcpower_pos. by trans a.
Qed.

Lemma Qcpower_pos_strict (a : Qc) (k : nat) : 0 < a → 0 < a ^ k.
Proof.
  intros Ha. induction k as [|k IH]; simpl; [done|]. by apply Qcmult_pos_pos.
Qed.

Lemma Qcpower_lt_1 (a : Qc) (k : nat) : 0 ≤ a → a < 1 → (0 < k)%nat → a ^ k < 1.
Proof.
  intros Ha Ha1 Hk. destruct k as [|k]; [lia|]. simpl.
  apply Qcle_lt_trans with (a * 1); [|by rewrite Qcmult_1_r].
  apply Qcmult_le_mono_nonneg_l; [done|].
  rewrite <- (Qcpower_1 k). apply Qcpower_le_mono; [done|].
  by apply Qclt_le_weak.
Qed.

(** [1 - x] for [0 < x < 1], and its direction. *)
Lemma one_minus_bounds (x : Qc) : 0 < x → x < 1 → 0 < 1 - x ∧ 1 - x ≤ 1.
Proof.
  intros H0 H1. split.
  - by apply Qclt_minus_iff in H1.
  - apply Qcle_minus_iff. replace (1 + - (1 - x)) with x by ring.
    by apply Qclt_le_weak.
Qed.

Lemma one_minus_anti (x y : Qc) : x ≤ y → 1 - y ≤ 1 - x.
Proof. intros Hxy. unfold Qcminus. apply Qcplus_le_mono_l. by apply Qcopp_le_compat. Qed.

Lemma cdf_nth (m : Z) : (1 ≤ m ≤ 6)%Z → nth (Z.to_nat (m - 1)) cdf 0 = CDF (m - 1).
Proof.
  intros Hm.
  assert (m = 1 ∨ m = 2 ∨ m = 3 ∨ m = 4 ∨ m = 5 ∨ m = 6)%Z as Hcases by lia.
  destruct Hcases as [->|[->|[->|[->|[->| ->]]]]];
    apply Qc_is_canon; vm_compute; reflexivity.
Qed.

Lemma CDF_bounds (m : Z) : (1 ≤ m ≤ 6)%Z → 0 < CDF (m - 1) ∧ CDF (m - 1) < 1.
Proof.
  intros Hm.
  assert (m = 1 ∨ m = 2 ∨ m = 3 ∨ m = 4 ∨ m = 5 ∨ m = 6)%Z as Hcases by lia.
  destruct Hcases as [->|[->|[->|[->|[->| ->]]]]]; split; vm_compute; reflexivity.
Qed.

Lemma CDF_step (m : Z) : (1 ≤ m ≤ 5)%Z → CDF (m - 1) ≤ CDF (m + 1 - 1).
Proof.
  intros Hm.
  assert (m = 1 ∨ m = 2 ∨ m = 3 ∨ m = 4 ∨ m = 5)%Z as Hcases by lia.
  destruct Hcases as [->|[->|[->|[->| ->]]]]; vm_compute; discriminate.
Qed.

Lemma CDF_mono (m1 m2 : Z) : (1 ≤ m1)%Z → (m1 ≤ m2)%Z → (m2 ≤ 6)%Z →
  CDF (m1 - 1) ≤ CDF (m2 - 1).
Proof.
  intros H1 H12 H2.
  replace m2 with (m1 + Z.of_nat (Z.to_nat (m2 - m1)))%Z in * by lia.
  induction (Z.to_nat (m2 - m1)) as [|d IH].
  - replace (m1 + Z.of_nat 0)%Z with m1 by lia. done.
  - trans (CDF (m1 + Z.of_nat d - 1)); [apply IH; lia|].
    replace (m1 + Z.of_nat (S d))%Z with (m1 + Z.of_nat d + 1)%Z by lia.
    apply CDF_step. lia.
Qed.

Lemma sortBy_descending (p1 p2 p3 p4 p5 p6 : Qc) :
  JS.sortBy (λ a b, m b - m a)%Z
    [ {| m := 1; p := p1 |}; {| m := 2; p := p2 |}; {| m := 3; p := p3 |};
      {| m := 4; p := p4 |}; {| m := 5; p := p5 |}; {| m := 6; p := p6 |} ]
  = [ {| m := 6; p := p6 |}; {| m := 5; p := p5 |}; {| m := 4; p := p4 |};
      {| m := 3; p := p3 |}; {| m := 2; p := p2 |}; {| m := 1; p := p1 |} ].
Proof. reflexivity. Qed.

Lemma atLeastDistribution_entries (k : nat) :
  atLeastDistribution k
    = (λ m, {| m := m; p := 1 - CDF (m - 1) ^ k |}) <$> [6; 5; 4; 3; 2; 1]%Z.
Proof.
  unfold atLeastDistribution.
  change (seqZ 1 6) with [1; 2; 3; 4; 5; 6]%Z.
  cbv [fmap list_fmap].
  rewrite sortBy_descending.
  by rewrite !cdf_nth by lia.
Qed.

End DistributionFacts.

Lemma Qc_of_Z_choose_90_6 : Z.of_nat (choose 90 6) = 622614630%Z.
Proof.
  apply Z2Qc_inj. change 90%nat with (Z.to_nat 90). change 6%nat with (Z.to_nat 6).
  rewrite <- (nCk_choose (Z.to_nat 90) (Z.to_nat 6)).
  apply Qc_is_canon. vm_compute. reflexivity.
Qed.

(** C7. Over exact rationals, [nCk(n, k)] is the binomial coefficient
    [C(n, k)] (the number defined by Pascal's rule, which satisfies
    [C(n, k) k! (n-k)! = n!]), it is 0 outside [0 <= k <= n], and it is
    symmetric in [k] and [n - k].  For [r] in [0,6] the exact-match
    probability is [C(6,r) C(84,6-r) / C(90,6)]; the seven of them add up
    to 1, and the one of [r = 6] is [1 / C(90,6)], with
    [C(90,6) = 622614630]. *)
Theorem C7_exact_match_probabilities :
  (∀ n k : nat, nCk (Z.of_nat n) (Z.of_nat k) = Qc_of_Z (Z.of_nat (choose n k))) ∧
  (∀ n k : Z, (k < 0 ∨ n < k)%Z → nCk n k = 0%Qc) ∧
  (∀ n k : nat, (k ≤ n)%nat →
     (choose n k * (fact k * fact (n - k)) = fact n)%nat ∧
     nCk (Z.of_nat n) (Z.of_nat k) = nCk (Z.of_nat n) (Z.of_nat n - Z.of_nat k)) ∧
  (∀ r : nat, (r ≤ 6)%nat →
     singleTicketExactMatchProb (Z.of_nat r)
       = (Qc_of_Z (Z.of_nat (choose 6 r * choose 84 (6 - r)))
          / Qc_of_Z (Z.of_nat (choose 90 6)))%Qc) ∧
  foldr Qcplus 0%Qc (singleTicketExactMatchProb <$> seqZ 0 7) = 1%Qc ∧
  singleTicketExactMatchProb 6 = (1 / Qc_of_Z (Z.of_nat (choose 90 6)))%Qc ∧
  Z.of_nat (choose 90 6) = 622614630%Z.
Proof.
  split_and!.
  - apply nCk_choose.
  - apply nCk_out_of_range.
  - intros n k Hle. split; [by apply choose_fact|].
    rewrite <- Nat2Z.inj_sub by done. rewrite !nCk_choose.
    by rewrite <- choose_sym.
  - apply singleTicketExactMatchProb_choose.
  - apply Qc_is_canon. vm_compute. reflexivity.
  - change 6%Z with (Z.of_nat 6).
    rewrite (singleTicketExactMatchProb_choose 6) by lia.
    replace (choose 6 6 * choose 84 (6 - 6))%nat with 1%nat by reflexivity.
    change (Z.of_nat 1) with 1%Z. by rewrite Z2Qc_inj_1.
  - apply Qc_of_Z_choose_90_6.
Qed.

Lemma C7_exact_match_probabilities_witness :
  singleTicketExactMatchProb 3
    = (Qc_of_Z (Z.of_nat (choose 6 3 * choose 84 (6 - 3))) / Qc_of_Z (Z.of_nat (choose 90 6)))%Qc ∧
  (choose 6 2 * (fact 2 * fact (6 - 2)) = fact 6)%nat ∧
  nCk 3 5 = 0%Qc.
Proof.
  destruct C7_exact_match_probabilities as (_ & Hout & Hfact & Hprob & _).
  split; [exact (Hprob 3%nat ltac:(lia))|].
  split; [exact (proj1 (Hfact 6%nat 2%nat ltac:(lia)))|].
  apply Hout. right. lia.
Defined.

(** C8. For [k >= 1] tickets, [atLeastDistribution(k)] lists [m = 6, 5,
    4, 3, 2, 1] in that order; the entry of [m] carries
    [p = 1 - CDF(m-1)^k], which is positive and at most 1, and [p] does not
    increase when [m] grows. *)
Theorem C8_at_least_distribution (k : nat) :
  (1 ≤ k)%nat →
  let out := atLeastDistribution k in
  m <$> out = [6; 5; 4; 3; 2; 1] ∧
  (∀ e, e ∈ out →
     p e = (1 - CDF (m e - 1) ^ k)%Qc ∧ (0 < p e)%Qc ∧ (p e ≤ 1)%Qc) ∧
  (∀ e1 e2, e1 ∈ out → e2 ∈ out → m e1 ≤ m e2 → (p e2 ≤ p e1)%Qc).
Proof.
  intros Hk out. subst out. rewrite atLeastDistribution_entries.
  assert (Hentry : ∀ e,
            e ∈ (λ m, {| m := m; p := (1 - CDF (m - 1) ^ k)%Qc |}) <$> [6; 5; 4; 3; 2; 1] →
            1 ≤ m e ≤ 6 ∧ p e = (1 - CDF (m e - 1) ^ k)%Qc).
  { intros e He. apply list_elem_of_fmap in He as (m0 & -> & Hm0). simpl.
    split; [|done].
    repeat (apply elem_of_cons in Hm0 as [->|Hm0]; [lia|]).
    by apply elem_of_nil in Hm0. }
  split_and!.
  - reflexivity.
  - intros e He. destruct (Hentry e He) as [Hm Hp]. split; [done|].
    rewrite Hp. destruct (CDF_bounds (m e) Hm) as [Hpos Hlt].
    apply one_minus_bounds.
    + by apply Qcpower_pos_strict.
    + apply Qcpower_lt_1; [by apply Qclt_le_weak|done|lia].
  - intros e1 e2 He1 He2 Hle.
    destruct (Hentry e1 He1) as [Hm1 ->]. destruct (Hentry e2 He2) as [Hm2 ->].
    apply one_minus_anti. apply Qcpower_le_mono.
    + destruct (CDF_bounds (m e1) Hm1) as [Hpos _]. by apply Qclt_le_weak.
    + apply CDF_mono; lia.
Qed.

Lemma C8_at_least_distribution_witness :
  m <$> atLeastDistribution 2 = [6; 5; 4; 3; 2; 1] ∧
  this <$> (p <$> atLeastDistribution 2)
    = [1245229259 # 387648977490036900; 25153620851 # 15505959099601476;
       2629563658787 # 15505959099601476; 10821843336235 # 1722884344400164;
       41693273031097 # 430721086100041; 6178381441039249 # 10768027152501025]%Q ∧
  (∀ e, e ∈ atLeastDistribution 2 → (0 < p e)%Qc ∧ (p e ≤ 1)%Qc).
Proof.
  destruct (C8_at_least_distribution 2 ltac:(lia)) as (Hm & Hp & _).
  split; [exact Hm|]. split; [vm_compute; reflexivity|].
  intros e He. destruct (Hp e He) as (_ & H0 & H1). by split.
Defined.

(** ** Further properties of the sampler and of the allocation *)

Section SamplerEdgeFacts.
Context {R : Type} `{RNG R}.


(** X2. With six distinct mandatory numbers that avoid [exclude] and meet
    [mustIncludeAnyOf], the sampler returns exactly these numbers, sorted,
    at the first attempt and without a draw. *)
Theorem X2_six_mandatory_numbers (fuel : nat) (rng : R) (c : Constraints) :
  size (list_to_set (mustInclude c) : gset Z) = 6%nat →
  (∀ x, x ∈ exclude c → x ∉ mustInclude c) →
  (mustIncludeAnyOf c ≠ [] → ∃ x, x ∈ mustIncludeAnyOf c ∧ x ∈ mustInclude c) →
  generateRandomSestinaWithConstraints fuel rng c
    = (Returned (normalizeNums (elements (list_to_set (mustInclude c) : gset Z))), rng).
Proof.
  intros Hsix Hex Hany. rewrite sampler_unfold; cbv zeta.
  rewrite decide_False by lia. rewrite fill_full by lia.
  assert (Hmem : ∀ x, x ∈ normalizeNums (elements (list_to_set (mustInclude c) : gset Z))
                      ↔ x ∈ mustInclude c).
  { intros x. by rewrite normalizeNums_elem, elem_of_elements, elem_of_list_to_set. }
  replace (isValidSestina _ c) with true; [done|].
  symmetry. apply isValidSestina_true. split_and!.
  - intros x Hx Hin. apply Hmem in Hin. by apply (Hex x).
  - intros x Hx. by apply Hmem.
  - intros Hne. destruct (Hany Hne) as (x & Hx & Hin). exists x. split; [done|]. by apply Hmem.
Qed.

Lemma admissible_elem (c : Constraints) (x : Z) :
  x ∈ admissible c ↔ x ∈ mustInclude c ∨ (1 ≤ x ≤ 90 ∧ x ∉ exclude c).
Proof.
  unfold admissible. rewrite elem_of_union, !elem_of_list_to_set.
  rewrite (list_elem_of_In (List.filter _ _) x), filter_In, <- list_elem_of_In.
  rewrite elem_of_seqZ, negb_true_iff, bool_decide_eq_false. intuition lia.
Qed.

(** X3. When fewer than six numbers are admissible the sampler raises
    [GenerationExhausted], whatever the stream: it neither returns nor
    keeps retrying. *)
Theorem X3_too_few_admissible_numbers (fuel : nat) (rng : R) (c : Constraints) :
  (size (admissible c) < 6)%nat →
  (generateRandomSestinaWithConstraints fuel rng c).1 = Threw GenerationExhausted.
Proof.
  intros Hpool.
  assert (Hmust : (size (list_to_set (mustInclude c) : gset Z) < 6)%nat).
  { eapply Nat.le_lt_trans; [|exact Hpool].
    apply subseteq_size. unfold admissible. apply union_subseteq_l. }
  rewrite sampler_unfold; cbv zeta. rewrite decide_False by lia.
  destruct (fill_outcome FILL_GUARD c (list_to_set (mustInclude c)) rng) as [[picked' Hr]|Hr].
  - destruct (fill FILL_GUARD c _ rng) as [o rng1] eqn:Hfill. simpl in Hr. subst o.
    apply fill_returned in Hfill as (_ & _ & Hsix & Hmem).
    assert (picked' ⊆ admissible c) as Hsub.
    { intros x Hx. apply admissible_elem. destruct (Hmem x Hx) as [Hin|?]; [left|by right].
      by apply elem_of_list_to_set in Hin. }
    apply subseteq_size in Hsub. rewrite Hsix in Hsub by lia. lia.
  - destruct (fill FILL_GUARD c _ rng) as [o rng1]. simpl in Hr. by subst o.
Qed.

End SamplerEdgeFacts.


Lemma X2_six_mandatory_numbers_witness :
  generateRandomSestinaWithConstraints 0 (Rng.mulberry32 5)
    {| exclude := [1; 2]; mustInclude := [42; 7; 35; 14; 28; 21; 7]; mustIncludeAnyOf := [3; 7] |}
  = (Returned [7; 14; 21; 28; 35; 42], Rng.mulberry32 5).
Proof.
  rewrite (X2_six_mandatory_numbers 0 (Rng.mulberry32 5)).
  - f_equal. 
  - vm_compute. reflexivity.
  - intros x Hx Hin. vm_compute in Hx, Hin.
    repeat (apply elem_of_cons in Hx as [->|Hx]; [set_solver|]). set_solver.
  - intros _. exists 7. split; set_solver.
Defined.

Lemma X3_too_few_admissible_numbers_witness :
  (size (admissible cFiveLeft) < 6)%nat ∧
  (generateRandomSestinaWithConstraints 3 (Rng.mulberry32 1) cFiveLeft).1
    = Threw GenerationExhausted.
Proof.
  assert (Hsz : (size (admissible cFiveLeft) < 6)%nat) by (vm_compute; lia).
  exact (conj Hsz (X3_too_few_admissible_numbers 3 (Rng.mulberry32 1) cFiveLeft Hsz)).
Defined.

Section AllocationResultFacts.
Context {R : Type} `{RNG R} {W : Type}.
Implicit Types (keys : gset string) (rngFactory : Z → W → R * W) (w : W).

Lemma NONCE_GUARD_value : Z.of_nat NONCE_GUARD = 50000.
Proof. vm_compute. reflexivity. Qed.

Lemma findUnique_meta fuel rngFactory c options now i keys :
  ∀ left nonce w s w',
    findUnique fuel left nonce i keys rngFactory c options now w = (Returned s, w') →
    ∃ n, nonce ≤ n ≤ nonce + Z.of_nat left ∧
         meta s = Some {| metaSeed := options ≫= optSeed; attemptNonce := n;
                          superstitionMode := options ≫= optSuperstitionMode |}.
Proof.
  induction left as [|l IH]; intros nonce w s w'; rewrite findUnique_unfold.
  all: destruct (rngFactory nonce w) as [rng w1].
  all: destruct (generateRandomSestinaWithConstraints fuel rng c).1 as [ns|e|]; try done.
  all: cbv zeta; case_decide as Hin; try done.
  - intros [= <- <-]. exists nonce. split; [lia|done].
  - intros Hrec. apply IH in Hrec as (n & Hn & Hmeta). exists n. split; [lia|done].
  - intros [= <- <-]. exists nonce. split; [lia|done].
Qed.

Lemma slotsFrom_meta fuel rngFactory c options now :
  ∀ n i out keys w out' keys' w',
    Forall (recordsNonce options) out →
    slotsFrom fuel n i out keys rngFactory c options now w = (Returned out', keys', w') →
    Forall (recordsNonce options) out'.
Proof.
  induction n as [|n IH]; intros i out keys w out' keys' w' Hout; simpl.
  - by intros [= <- <- <-].
  - destruct (findUnique fuel NONCE_GUARD 0 i keys rngFactory c options now w)
      as [[s|e|] w1] eqn:Hfind; try done.
    apply findUnique_meta in Hfind as (k & Hk & Hmeta). rewrite NONCE_GUARD_value in Hk.
    apply IH. apply Forall_app. split; [done|].
    apply Forall_singleton. exists k. split; [lia|done].
Qed.

Lemma sampler_result_valid fuel (rng : R) c nums rng' :
  generateRandomSestinaWithConstraints fuel rng c = (Returned nums, rng') →
  length nums = 6%nat ∧
  StronglySorted Z.lt nums ∧
  (∀ x, x ∈ mustInclude c → x ∈ nums) ∧
  (∀ x, x ∈ exclude c → x ∉ nums) ∧
  (mustIncludeAnyOf c ≠ [] → ∃ x, x ∈ mustIncludeAnyOf c ∧ x ∈ nums) ∧
  (∀ x, x ∈ nums → x ∈ mustInclude c ∨ 1 ≤ x ≤ 90).
Proof.
  intros Hgen. apply sampler_returned in Hgen as (picked' & -> & Hvalid & Hsix & Hmem).
  apply isValidSestina_true in Hvalid as (Hex & Hmust & Hany).
  split_and!; auto.
  - by rewrite normalizeNums_length.
  - apply normalizeNums_lt_sorted, NoDup_elements.
  - intros x Hx. apply normalizeNums_elem, elem_of_elements in Hx.
    destruct (Hmem x Hx) as [?|[? _]]; auto.
Qed.

(** X4. Every combination handed out by the allocation satisfies the
    constraints it was asked for: six numbers in strictly ascending order,
    all the mandatory ones, no excluded one, one of [mustIncludeAnyOf] when
    there are any, nothing outside [1,90] but mandatory numbers.  It is
    filed under the key of its numbers, not frozen, and it records the
    nonce that produced it, between 0 and 50000. *)
Theorem X4_allocated_combinations_meet_constraints fuel count keys rngFactory c options now w
    out keys' w' :
  generateUniqueSestine fuel count keys rngFactory c options now w = (Returned out, keys', w') →
  ∀ s, s ∈ out →
    (length (nums s) = 6%nat ∧
     StronglySorted Z.lt (nums s) ∧
     (∀ x, x ∈ mustInclude c → x ∈ nums s) ∧
     (∀ x, x ∈ exclude c → x ∉ nums s) ∧
     (mustIncludeAnyOf c ≠ [] → ∃ x, x ∈ mustIncludeAnyOf c ∧ x ∈ nums s) ∧
     (∀ x, x ∈ nums s → x ∈ mustInclude c ∨ 1 ≤ x ≤ 90)) ∧
    key s = sestinaKey (nums s) ∧
    frozen s = false ∧
    recordsNonce options s.
Proof.
  unfold generateUniqueSestine. intros Hrun s Hs.
  pose proof Hrun as Hmeta.
  apply slotsFrom_meta in Hmeta; [|constructor].
  rewrite Forall_forall in Hmeta.
  apply slotsFrom_returned in Hrun as (new & -> & _ & _ & _ & _ & _ & Hall).
  simpl in *. destruct (Hall s Hs) as (Hfrozen & Hkey & rng & rng' & Hgen).
  split; [by eapply sampler_result_valid|]. split; [done|]. split; [done|].
  by apply Hmeta.
Qed.

Lemma findUnique_threw_impossible fuel rngFactory c options now i keys :
  ∀ left nonce w w',
    findUnique fuel left nonce i keys rngFactory c options now w
      = (Threw ImpossibleConstraint, w') →
    (6 < size (list_to_set (mustInclude c) : gset Z))%nat.
Proof.
  induction left as [|l IH]; intros nonce w w'; rewrite findUnique_unfold.
  all: destruct (rngFactory nonce w) as [rng w1].
  all: destruct (generateRandomSestinaWithConstraints fuel rng c).1 as [ns|e|] eqn:Hgen;
    try done.
  all: try (cbv zeta; case_decide; try done; apply IH).
  all: intros [= -> _].
  all: destruct (decide (6 < size (list_to_set (mustInclude c) : gset Z))%nat) as [?|Hle];
    [done|].
  all: by destruct (sampler_not_impossible c Hle fuel rng).
Qed.

Lemma slotsFrom_threw_impossible fuel rngFactory c options now :
  ∀ n i out keys w keys' w',
    slotsFrom fuel n i out keys rngFactory c options now w
      = (Threw ImpossibleConstraint, keys', w') →
    (6 < size (list_to_set (mustInclude c) : gset Z))%nat.
Proof.
  induction n as [|n IH]; intros i out keys w keys' w'; simpl; [done|].
  destruct (findUnique fuel NONCE_GUARD 0 i keys rngFactory c options now w)
    as [[s|e|] w1] eqn:Hfind; try done.
  - apply IH.
  - intros [= -> _ _]. by eapply findUnique_threw_impossible.
Qed.

(** X5. The allocation fails with [ImpossibleConstraint] exactly when at
    least one combination is asked for and [mustInclude] holds more than
    six distinct numbers; it then fails on its first slot, leaving the key
    set as it received it. *)
Theorem X5_allocation_impossible_constraint fuel count keys rngFactory c options now w :
  let r := generateUniqueSestine fuel count keys rngFactory c options now w in
  (r.1.1 = Threw ImpossibleConstraint
     ↔ (0 < count)%nat ∧ (6 < size (list_to_set (mustInclude c) : gset Z))%nat) ∧
  (r.1.1 = Threw ImpossibleConstraint → r.1.2 = keys).
Proof.
  intros r. subst r. unfold generateUniqueSestine.
  assert (Hfirst : (0 < count)%nat → (6 < size (list_to_set (mustInclude c) : gset Z))%nat →
            (slotsFrom fuel count 0 [] keys rngFactory c options now w).1
              = (Threw ImpossibleConstraint, keys)).
  { intros Hcount Hsz. destruct count as [|n]; [lia|]. simpl.
    rewrite findUnique_unfold. destruct (rngFactory 0 w) as [rng w1].
    by rewrite sampler_impossible. }
  assert (Hiff : (slotsFrom fuel count 0 [] keys rngFactory c options now w).1.1
                   = Threw ImpossibleConstraint
                 → (0 < count)%nat ∧ (6 < size (list_to_set (mustInclude c) : gset Z))%nat).
  { intros Hthrew.
    destruct (slotsFrom fuel count 0 [] keys rngFactory c options now w)
      as [[o keys'] w'] eqn:Hrun. simpl in Hthrew. subst o.
    split; [|by eapply slotsFrom_threw_impossible].
    destruct count; [done|lia]. }
  split; [split|].
  - exact Hiff.
  - intros [Hcount Hsz]. by rewrite Hfirst.
  - intros Hthrew. destruct (Hiff Hthrew) as [Hcount Hsz]. by rewrite Hfirst.
Qed.

End AllocationResultFacts.

Lemma X4_allocated_combinations_meet_constraints_witness :
  let run := generateUniqueSestine 40 2 ∅ plainFactory cMixed None 0 () in
  nums <$> returnedOr [] run.1.1 = [[1; 7; 14; 21; 24; 43]; [1; 7; 14; 48; 57; 89]] ∧
  ∀ s, s ∈ returnedOr [] run.1.1 →
    (∀ x, x ∈ mustInclude cMixed → x ∈ nums s) ∧ key s = sestinaKey (nums s).
Proof.
  intros run.
  assert (Hout : run.1.1 = Returned (returnedOr [] run.1.1)) by (vm_compute; reflexivity).
  pose proof (outcome_triple_eta run _ Hout) as Hrun.
  split; [vm_compute; reflexivity|].
  intros s Hs.
  destruct (X4_allocated_combinations_meet_constraints _ _ _ _ _ _ _ _ _ _ _ Hrun s Hs)
    as ((_ & _ & Hmust & _) & Hkey & _).
  by split.
Defined.

Lemma X5_allocation_impossible_constraint_witness :
  let r := generateUniqueSestine 3 4 {["1-2-3-4-5-6"]} plainFactory cSeven None 0 () in
  r.1.1 = Threw ImpossibleConstraint ∧ r.1.2 = {["1-2-3-4-5-6"]}.
Proof.
  intros r.
  destruct (X5_allocation_impossible_constraint 3 4 {["1-2-3-4-5-6"]} plainFactory cSeven
              None 0 ()) as [Hiff Hkeys].
  assert (Hthrew : r.1.1 = Threw ImpossibleConstraint).
  { apply Hiff. split; [lia|]. vm_compute. lia. }
  exact (conj Hthrew (Hkeys Hthrew)).
Defined.

(** ** The ledger invariant *)

Lemma fold_add_keys (l : list Sestina) : ∀ K : gset string,
  fold_left (λ keys s, {[key s]} ∪ keys) l K = list_to_set (key <$> l) ∪ K.
Proof.
  induction l as [|s l IH]; intros K; simpl; [set_solver|]. rewrite IH. set_solver.
Qed.

Lemma fold_add_groups (gs : list Group) : ∀ K : gset string,
  fold_left (λ keys g, fold_left (λ keys s, {[key s]} ∪ keys) (sestine g) keys) gs K
    = list_to_set (keysOf gs) ∪ K.
Proof.
  induction gs as [|g gs IH]; intros K; simpl; [set_solver|].
  rewrite IH, fold_add_keys. unfold keysOf. simpl.
  rewrite list_to_set_app_L. set_solver.
Qed.

Lemma globalKeys_allKeys (st : AppState) : globalKeys st = list_to_set (allKeys st).
Proof. unfold globalKeys, allKeys. rewrite fold_add_groups. set_solver. Qed.

Lemma keysOf_cons (x : Group) (gs : list Group) :
  keysOf (x :: gs) = (key <$> sestine x) ++ keysOf gs.
Proof. reflexivity. Qed.

(** Replacing the combinations of the one group called [id g]. *)
Lemma keysOf_update (f : Group → Group) (g : Group) : ∀ gs,
  NoDup (id <$> gs) → g ∈ gs →
  (∀ x, id x ≠ id g → f x = x) →
  ∃ A B, keysOf gs = A ++ (key <$> sestine g) ++ B ∧
         keysOf (f <$> gs) = A ++ (key <$> sestine (f g)) ++ B.
Proof.
  induction gs as [|x gs IH]; intros Hids Hg Hf; [by apply elem_of_nil in Hg|].
  rewrite fmap_cons in Hids. apply NoDup_cons in Hids as [Hx Hids].
  apply elem_of_cons in Hg as [->|Hg].
  - exists [], (keysOf gs). split; [done|].
    rewrite fmap_cons, !keysOf_cons. simpl.
    assert (f <$> gs = gs) as ->; [|done].
    rewrite <- (list_fmap_id gs) at 2. apply list_fmap_ext. intros j y Hy. simpl.
    apply Hf. intros Heq. apply Hx. rewrite <- Heq.
    apply list_elem_of_fmap. exists y. split; [done|]. by eapply list_elem_of_lookup_2.
  - destruct (IH Hids Hg Hf) as (A & B & HA & HB).
    exists ((key <$> sestine x) ++ A), B. rewrite fmap_cons, !keysOf_cons.
    rewrite Hf.
    + rewrite HA, HB. by rewrite <- !app_assoc.
    + intros Heq. apply Hx. rewrite Heq. apply list_elem_of_fmap.
      exists g. split; [reflexivity|exact Hg].
Qed.

Lemma ids_update (f : Group → Group) (gs : list Group) :
  (∀ x, id (f x) = id x) → id <$> (f <$> gs) = id <$> gs.
Proof.
  intros Hf. rewrite <- list_fmap_compose. apply list_fmap_ext. intros j x _. apply Hf.
Qed.

Section GenerateLedger.
Variables (fuel : nat) (h : Host) (sc : Scope) (g : Group).

(** The keys threaded through the chunks are the ledger plus the keys of
    what was produced, all new and distinct. *)
Lemma chunkLoop_keys (K0 : gset string) :
  ∀ steps k produced nonceBase allGenerated keys k' all' keys',
    NoDup (key <$> allGenerated) →
    (∀ s, s ∈ allGenerated → key s ∉ K0) →
    keys = list_to_set (key <$> allGenerated) ∪ K0 →
    chunkLoop fuel h sc g steps k produced nonceBase allGenerated keys
      = LoopDone k' all' keys' →
    NoDup (key <$> all') ∧ (∀ s, s ∈ all' → key s ∉ K0) ∧
    keys' = list_to_set (key <$> all') ∪ K0.
Proof.
  induction steps as [|steps IH];
    intros k produced nonceBase allGenerated keys k' all' keys' Hnd Hfresh Hkeys;
    rewrite chunkLoop_unfold.
  all: destruct (produced <? genCount sc); [|by intros [= <- <- <-]].
  all: destruct (abortFlag h k); [by intros [= <- <- <-]|]; try done.
  cbv zeta.
  destruct (generateUniqueSestine _ _ _ _ _ _ _ _) as [[[chunk|e|] keys1] w1] eqn:Hgen;
    try done.
  apply generateUniqueSestine_returned in Hgen as (_ & Hnew & Hnd1 & Hkeys1 & _).
  apply IH.
  - rewrite fmap_app. apply NoDup_app. split_and!; [done| |done].
    intros x Hx Hx'. apply list_elem_of_fmap in Hx' as (s & -> & Hs).
    apply (Hnew s Hs). rewrite Hkeys. apply elem_of_union_l. by apply elem_of_list_to_set.
  - intros s Hs. apply elem_of_app in Hs as [Hs|Hs]; [by apply Hfresh|].
    intros Hin. apply (Hnew s Hs). rewrite Hkeys. by apply elem_of_union_r.
  - rewrite Hkeys1, Hkeys, fmap_app, list_to_set_app_L. set_solver.
Qed.

Lemma generateWith_committed_keys :
  run_report (generateWith fuel h sc g) = Committed →
  ∃ allGenerated,
    Z.of_nat (length allGenerated) = genCount sc ∧
    run_state (generateWith fuel h sc g) = commitGenerated h sc g allGenerated (state sc) ∧
    NoDup (key <$> allGenerated) ∧
    (∀ s, s ∈ allGenerated → key s ∉ globalKeys (state sc)) ∧
    run_keys (generateWith fuel h sc g)
      = list_to_set (key <$> allGenerated) ∪ globalKeys (state sc).
Proof.
  unfold generateWith.
  destruct (chunkLoop _ _ _ _ _ _ _ _ _ _) as [k all keys|e keys|keys|keys] eqn:Hloop;
    try done.
  destruct (abortFlag h k) eqn:Hab; [done|]. intros _. simpl.
  exists all.
  assert (H0 : globalKeys (state sc)
               = list_to_set (key <$> ([] : list Sestina)) ∪ globalKeys (state sc))
    by set_solver.
  assert (H1 : ∀ s : Sestina, s ∈ [] → key s ∉ globalKeys (state sc))
    by (intros s Hs; by apply elem_of_nil in Hs).
  pose proof (chunkLoop_keys (globalKeys (state sc)) _ _ _ _ [] _ _ _ _
                (NoDup_nil_2 : NoDup (key <$> [])) H1 H0 Hloop) as (Hnd & Hfresh & Hkeys).
  split_and!; try done.
  eapply chunkLoop_done; [| |exact Hloop|exact Hab]; [done|].
  pose proof (genCount_pos sc). lia.
Qed.

End GenerateLedger.

(** X6. A committed batch keeps the ledger sound: if no key was held
    twice and no two groups shared an identifier before, the same holds
    afterwards.  The new state holds the old keys and the requested number
    of new ones, and the key set the handler worked on is the ledger of the
    new state. *)
Theorem X6_committed_batch_keeps_ledger (fuel : nat) (h : Host) (sc : Scope) :
  ledgerOk (state sc) →
  let r := generateForSelectedGroup fuel h sc in
  run_report r = Committed →
  ledgerOk (run_state r) ∧
  globalKeys (state sc) ⊆ globalKeys (run_state r) ∧
  Z.of_nat (length (allKeys (run_state r)))
    = Z.of_nat (length (allKeys (state sc))) + genCount sc ∧
  globalKeys (run_state r) = run_keys r.
Proof.
  intros [Hkeys Hids] r. subst r. unfold generateForSelectedGroup.
  destruct (selectedGroup sc) as [g|] eqn:Hsel; [|done].
  intros Hrep. apply generateWith_committed_keys in Hrep
    as (all & Hlen & -> & Hnd & Hfresh & ->).
  assert (Hg : g ∈ groups (state sc)).
  { unfold selectedGroup in Hsel. destruct (selectedGroupId sc) as [gid|]; [|done].
    simpl in Hsel. apply find_some in Hsel as [Hin _]. by apply list_elem_of_In. }
  set (f := λ x : Group,
         if bool_decide (id x ≠ id g) then x
         else {| id := id x; name := name x; groupCreatedAt := groupCreatedAt x;
                 sestine := all ++ sestine x;
                 events := EvGenerate (commitTime h) (genCount sc)
                             (if seedEnabled (settings (state sc))
                              then Some (genSeed sc) else None)
                             (constraints sc) :: events x |}).
  destruct (keysOf_update f g (groups (state sc)) Hids Hg) as (A & B & HA & HB).
  { intros x Hx. unfold f. by rewrite bool_decide_true. }
  assert (Hfg : key <$> sestine (f g) = (key <$> all) ++ (key <$> sestine g)).
  { unfold f. rewrite bool_decide_false by (by intros []). simpl. by rewrite fmap_app. }
  rewrite Hfg in HB.
  assert (Hnew : allKeys (commitGenerated h sc g all (state sc))
                 ≡ₚ (key <$> all) ++ allKeys (state sc)).
  { unfold allKeys. simpl. fold f. rewrite HA, HB. solve_Permutation. }
  rewrite globalKeys_allKeys in Hfresh.
  split_and!.
  - split.
    + rewrite Hnew. apply NoDup_app. split_and!; [done| |done].
      intros x Hx Hx'. apply list_elem_of_fmap in Hx as (s & -> & Hs).
      apply (Hfresh s Hs). by apply elem_of_list_to_set.
    + simpl. fold f. rewrite ids_update; [done|]. intros x. unfold f. by case_bool_decide.
  - rewrite !globalKeys_allKeys. intros x Hx. apply elem_of_list_to_set.
    rewrite Hnew. apply elem_of_app. right. by apply elem_of_list_to_set in Hx.
  - rewrite Hnew, length_app, length_fmap. lia.
  - rewrite !globalKeys_allKeys. apply set_eq. intros x.
    rewrite elem_of_union, !elem_of_list_to_set, Hnew, elem_of_app. done.
Qed.

Lemma X6_committed_batch_keeps_ledger_witness :
  let sc := scenarioScope true twoGroups 3 cFree in
  let r := generateForSelectedGroup 5 (scenarioHost 7 false) sc in
  run_report r = Committed ∧ ledgerOk (run_state r) ∧
  allKeys (run_state r)
    = ["4-9-15-31-59-62"; "29-41-50-71-75-85"; "2-14-22-55-83-84";
       "1-2-3-4-5-6"; "10-20-30-40-50-60"; "1-14-21-24-43-50"].
Proof.
  intros sc r.
  assert (Hrep : run_report r = Committed) by (vm_compute; reflexivity).
  assert (Hok : ledgerOk (state sc)).
  { split; apply (bool_decide_unpack _); vm_compute; exact I. }
  destruct (X6_committed_batch_keeps_ledger 5 (scenarioHost 7 false) sc Hok Hrep)
    as (Hok' & _).
  split; [done|]. split; [done|]. vm_compute. reflexivity.
Defined.

Lemma filter_frozen_perm (l : list Sestina) :
  l ≡ₚ List.filter frozen l ++ List.filter (λ s, negb (frozen s)) l.
Proof.
  induction l as [|s l IH]; simpl; [done|].
  destruct (frozen s); simpl.
  - by constructor.
  - rewrite <- Permutation_middle. by constructor.
Qed.

(** X7. Regeneration keeps the ledger sound, whatever its outcome.  When
    it commits, the state holds as many keys as before and the key set the
    handler worked on is the ledger of the new state. *)
Theorem X7_regeneration_keeps_ledger (fuel : nat) (h : Host) (sc : Scope) (groupId : string) :
  ledgerOk (state sc) →
  let r := regenerateNonFrozenInGroup fuel h sc groupId in
  ledgerOk (run_state r) ∧
  (run_report r = Committed →
     length (allKeys (run_state r)) = length (allKeys (state sc)) ∧
     globalKeys (run_state r) = run_keys r).
Proof.
  intros Hok r.
  assert (run_report r = Committed ∨ run_report r ≠ Committed) as [Hrep|Hrep]
    by (destruct (run_report r); (by left) || (by right)).
  2:{ subst r. rewrite regenerate_not_committed by done. by split. }
  split; [|intros _]; revert Hrep; subst r; unfold regenerateNonFrozenInGroup.
  all: destruct (find _ _) as [g|] eqn:Hfind; [|done].
  all: cbv zeta; rewrite toRegenCount_released.
  all: case_match; [done|].
  all: destruct (generateUniqueSestine _ _ _ _ _ _ _ _) as [[[regen|e|] keys'] w'] eqn:Hgen;
    simpl; try done.
  all: intros _.
  all: apply generateUniqueSestine_returned in Hgen
         as (Hlen & Hfresh & Hnd & Hkeys' & _ & _ & _).
  all: destruct Hok as [Hkeys Hids].
  all: assert (Hg : g ∈ groups (state sc))
         by (apply find_some in Hfind as [Hin _]; by apply list_elem_of_In).
  all: set (kN := key <$> List.filter (λ s, negb (frozen s)) (sestine g)) in *.
  all: set (kF := key <$> List.filter frozen (sestine g)) in *.
  all: set (f := λ x : Group,
         if bool_decide (id x ≠ id g) then x
         else {| id := id x; name := name x; groupCreatedAt := groupCreatedAt x;
                 sestine := List.filter frozen (sestine g) ++ regen;
                 events := EvGenerate (commitTime h)
                             (Z.of_nat (length (List.filter (λ s, negb (frozen s)) (sestine g))))
                             (if seedEnabled (settings (state sc))
                              then Some (regenSeed sc) else None)
                             (constraints sc) :: events x |}).
  all: destruct (keysOf_update f g (groups (state sc)) Hids Hg) as (A & B & HA & HB);
    [intros x Hx; unfold f; by rewrite bool_decide_true|].
  all: assert (Hfg : key <$> sestine (f g) = kF ++ (key <$> regen))
         by (unfold f; rewrite bool_decide_false by (by intros []); simpl;
             by rewrite fmap_app).
  all: rewrite Hfg in HB.
  all: assert (Hold : allKeys (state sc) ≡ₚ kN ++ (A ++ kF ++ B))
         by (unfold allKeys; rewrite HA, (filter_frozen_perm (sestine g)) at 1;
             rewrite fmap_app; fold kN kF; solve_Permutation).
  all: assert (Hnew : keysOf (f <$> groups (state sc)) ≡ₚ (key <$> regen) ++ (A ++ kF ++ B))
         by (rewrite HB; solve_Permutation).
  all: rewrite Hold in Hkeys; apply NoDup_app in Hkeys as (HndN & Hdisj & HndO).
  all: assert (Hreg : regenKeys sc g = list_to_set (A ++ kF ++ B)).
  all: try (rewrite regenKeys_released, globalKeys_allKeys; fold kN; apply set_eq; intros x;
            rewrite elem_of_difference, !elem_of_list_to_set, Hold, elem_of_app;
            split; [intros [[?|?] ?]; done|intros Hx; split; [by right|];
                    intros HxN; by apply (Hdisj x)]).
  - split.
    + unfold allKeys. simpl. fold f. rewrite Hnew. apply NoDup_app. split_and!; [done| |done].
      intros x Hx Hx'. apply list_elem_of_fmap in Hx as (s & -> & Hs).
      apply (Hfresh s Hs). rewrite Hreg. by apply elem_of_list_to_set.
    + simpl. fold f. rewrite ids_update; [done|]. intros x. unfold f. by case_bool_decide.
  - split.
    + unfold allKeys. simpl. fold f. rewrite Hnew, Hold, !length_app.
      rewrite (length_fmap _ regen), Hlen. unfold kN. rewrite length_fmap, Nat2Z.id. done.
    + rewrite globalKeys_allKeys. unfold allKeys. simpl. fold f.
      rewrite Hkeys', Hreg. apply set_eq. intros x.
      rewrite elem_of_union, !elem_of_list_to_set, Hnew, elem_of_app. done.
Qed.

Lemma X7_regeneration_keeps_ledger_witness :
  let sc := scenarioScope true twoGroups 1 cFree in
  let r := regenerateNonFrozenInGroup 5 (scenarioHost 7 false) sc "g1" in
  run_report r = Committed ∧ ledgerOk (run_state r) ∧
  allKeys (run_state r) = ["10-20-30-40-50-60"; "20-29-39-61-77-78"; "1-14-21-24-43-50"].
Proof.
  intros sc r.
  assert (Hok : ledgerOk (state sc)).
  { split; apply (bool_decide_unpack _); vm_compute; exact I. }
  destruct (X7_regeneration_keeps_ledger 5 (scenarioHost 7 false) sc "g1" Hok) as (Hok' & _).
  split; [vm_compute; reflexivity|]. split; [done|]. vm_compute. reflexivity.
Defined.

(** ** The editing handlers *)

Lemma filter_sublist {A} (p : A → bool) (l : list A) : List.filter p l `sublist_of` l.
Proof.
  induction l as [|x l IH]; simpl; [constructor|].
  destruct (p x); by constructor.
Qed.

Lemma keysOf_sublist_map (f : Group → Group) (gs : list Group) :
  (∀ x, sestine (f x) `sublist_of` sestine x) →
  keysOf (f <$> gs) `sublist_of` keysOf gs.
Proof.
  intros Hf. induction gs as [|x gs IH]; [constructor|].
  rewrite fmap_cons, !keysOf_cons. apply sublist_app; [|done].
  by apply fmap_sublist.
Qed.

Lemma keysOf_sublist_filter (p : Group → bool) (gs : list Group) :
  keysOf (List.filter p gs) `sublist_of` keysOf gs.
Proof.
  induction gs as [|x gs IH]; simpl; [constructor|].
  destruct (p x); rewrite !keysOf_cons.
  - by apply sublist_app.
  - by apply sublist_inserts_l.
Qed.

Lemma ledgerOk_shrink (st st' : AppState) :
  allKeys st' `sublist_of` allKeys st →
  id <$> groups st' `sublist_of` id <$> groups st →
  ledgerOk st → ledgerOk st' ∧ globalKeys st' ⊆ globalKeys st.
Proof.
  intros Hkeys Hids [Hk Hi]. split; [split; [exact (sublist_NoDup _ _ Hk Hkeys)|exact (sublist_NoDup _ _ Hi Hids)]|].
  rewrite !globalKeys_allKeys. intros x Hx. apply elem_of_list_to_set.
  apply elem_of_list_to_set in Hx. by apply (sublist_subseteq _ _ Hkeys).
Qed.

(** X8. The editing handlers keep the ledger sound and never add a key:
    renaming, deleting or emptying a group, freezing or unfreezing a
    combination and removing one leave no key held twice and no identifier
    shared; so does adding a group whose identifier is new. *)
Theorem X8_editing_keeps_ledger (st : AppState) (groupId key0 text uuid nowIso : string) :
  ledgerOk st →
  (ledgerOk (renameGroup groupId text st) ∧
   globalKeys (renameGroup groupId text st) ⊆ globalKeys st) ∧
  (ledgerOk (deleteGroup groupId st) ∧ globalKeys (deleteGroup groupId st) ⊆ globalKeys st) ∧
  (ledgerOk (clearGroup groupId st) ∧ globalKeys (clearGroup groupId st) ⊆ globalKeys st) ∧
  (ledgerOk (toggleFreeze groupId key0 st) ∧
   globalKeys (toggleFreeze groupId key0 st) ⊆ globalKeys st) ∧
  (ledgerOk (removeSestina groupId key0 st) ∧
   globalKeys (removeSestina groupId key0 st) ⊆ globalKeys st) ∧
  ("group_" +:+ uuid ∉ id <$> groups st →
   ledgerOk (addGroup uuid nowIso text st) ∧
   globalKeys (addGroup uuid nowIso text st) ⊆ globalKeys st).
Proof.
  intros Hok. refine (conj _ (conj _ (conj _ (conj _ (conj _ _))))).
  - unfold renameGroup. case_decide; [done|].
    apply ledgerOk_shrink; [| |done]; unfold allKeys; simpl.
    + apply keysOf_sublist_map. intros x. by case_bool_decide.
    + rewrite ids_update; [done|]. intros x. by case_bool_decide.
  - apply ledgerOk_shrink; [| |done]; unfold allKeys, deleteGroup; simpl.
    + apply keysOf_sublist_filter.
    + apply fmap_sublist, filter_sublist.
  - apply ledgerOk_shrink; [| |done]; unfold allKeys, clearGroup; simpl.
    + apply keysOf_sublist_map. intros x. case_bool_decide; [apply sublist_nil_l|done].
    + rewrite ids_update; [done|]. intros x. by case_bool_decide.
  - apply ledgerOk_shrink; [| |done]; unfold allKeys, toggleFreeze; simpl.
    + assert (∀ gs, keysOf ((λ g, if bool_decide (id g ≠ groupId) then g
             else {| id := id g; name := name g; groupCreatedAt := groupCreatedAt g;
                     sestine :=
                       (λ s, if bool_decide (key s = key0)
                             then {| nums := nums s; key := key s; createdAt := createdAt s;
                                     frozen := negb (frozen s); meta := meta s |}
                             else s) <$> sestine g;
                     events := events g |}) <$> gs) = keysOf gs) as ->; [|done].
      induction gs as [|x gs IH]; [done|]. rewrite fmap_cons, !keysOf_cons, IH. f_equal.
      case_bool_decide; [done|]. simpl. rewrite <- list_fmap_compose.
      apply list_fmap_ext. intros j s _. simpl. by case_bool_decide.
    + rewrite ids_update; [done|]. intros x. by case_bool_decide.
  - apply ledgerOk_shrink; [| |done]; unfold allKeys, removeSestina; simpl.
    + apply keysOf_sublist_map. intros x. case_bool_decide; [apply filter_sublist|done].
    + rewrite ids_update; [done|]. intros x. by case_bool_decide.
  - intros Hnew. destruct Hok as [Hk Hi]. unfold addGroup. cbv zeta. split; [split|].
    + unfold allKeys. simpl. by rewrite keysOf_cons.
    + simpl. apply NoDup_cons. by split.
    + rewrite !globalKeys_allKeys. unfold allKeys. simpl. by rewrite keysOf_cons.
Qed.

Lemma X8_editing_keeps_ledger_witness :
  let st := scenarioState true twoGroups in
  ledgerOk (removeSestina "g1" "1-2-3-4-5-6" st) ∧
  allKeys (removeSestina "g1" "1-2-3-4-5-6" st) = ["10-20-30-40-50-60"; "1-14-21-24-43-50"] ∧
  ledgerOk (addGroup "0001" "2026-01-03T00:00:00.000Z" "  " st) ∧
  name <$> groups (addGroup "0001" "2026-01-03T00:00:00.000Z" "  " st)
    = ["Gruppo 3"; "Gruppo 1"; "Gruppo 2"].
Proof.
  intros st.
  assert (Hok : ledgerOk st).
  { split; apply (bool_decide_unpack _); vm_compute; exact I. }
  destruct (X8_editing_keeps_ledger st "g1" "1-2-3-4-5-6" "  " "0001"
              "2026-01-03T00:00:00.000Z" Hok) as (_ & _ & _ & _ & [Hrm _] & Hadd).
  split; [exact Hrm|]. split; [vm_compute; reflexivity|].
  split; [|vm_compute; reflexivity].
  apply Hadd. apply (bool_decide_unpack _). vm_compute. exact I.
Defined.

Lemma sestina_eta (s : Sestina) :
  {| nums := nums s; key := key s; createdAt := createdAt s;
     frozen := frozen s; meta := meta s |} = s.
Proof. by destruct s. Qed.

Lemma group_eta (g : Group) :
  {| id := id g; name := name g; groupCreatedAt := groupCreatedAt g;
     sestine := sestine g; events := events g |} = g.
Proof. by destruct g. Qed.

(** X9. Freezing is undone by freezing again: [toggleFreeze] applied
    twice with the same arguments gives back the state.  One application
    changes no number, no key and no creation time; it flips the [frozen]
    flag of exactly the combinations of that group that carry that key. *)
Theorem X9_toggleFreeze_involutive (groupId key0 : string) (st : AppState) :
  toggleFreeze groupId key0 (toggleFreeze groupId key0 st) = st ∧
  combos (toggleFreeze groupId key0 st) = combos st ∧
  allKeys (toggleFreeze groupId key0 st) = allKeys st ∧
  (∀ g, g ∈ groups st →
     ∃ g', g' ∈ groups (toggleFreeze groupId key0 st) ∧ id g' = id g ∧
           frozen <$> sestine g'
             = (λ s, if bool_decide (id g = groupId ∧ key s = key0)
                     then negb (frozen s) else frozen s) <$> sestine g).
Proof.
  split_and!.
  - destruct st as [gs ss]. unfold toggleFreeze. simpl. f_equal.
    rewrite <- list_fmap_compose. rewrite <- (list_fmap_id gs) at 2.
    apply list_fmap_ext. intros j g _. simpl.
    destruct (bool_decide (id g ≠ groupId)) eqn:Hid; [by rewrite Hid|]. simpl.
    rewrite Hid. rewrite <- (group_eta g) at 6. f_equal.
    rewrite <- list_fmap_compose. rewrite <- (list_fmap_id (sestine g)) at 2.
    apply list_fmap_ext. intros i s _. simpl.
    destruct (bool_decide (key s = key0)) eqn:Hk; simpl; rewrite Hk; [|done].
    rewrite negb_involutive. apply sestina_eta.
  - unfold combos, toggleFreeze. simpl. rewrite <- list_fmap_compose.
    apply list_fmap_ext. intros j g _. simpl. case_bool_decide; [done|]. simpl.
    rewrite <- list_fmap_compose. apply list_fmap_ext. intros i s _. simpl.
    by case_bool_decide.
  - unfold allKeys, toggleFreeze, keysOf. simpl. f_equal. rewrite <- list_fmap_compose.
    apply list_fmap_ext. intros j g _. simpl. case_bool_decide; [done|]. simpl.
    rewrite <- list_fmap_compose. apply list_fmap_ext. intros i s _. simpl.
    by case_bool_decide.
  - intros g Hg. eexists. split.
    + unfold toggleFreeze. simpl. apply list_elem_of_fmap. exists g. split; [reflexivity|done].
    + case_bool_decide as Hid; simpl.
      * split; [done|]. apply list_fmap_ext. intros i s _. simpl.
        rewrite bool_decide_false; [done|]. by intros [? _].
      * split; [done|]. rewrite <- list_fmap_compose. apply list_fmap_ext. intros i s _.
        simpl.
        destruct (bool_decide (key s = key0)) eqn:Hk; simpl.
        -- apply bool_decide_eq_true in Hk. by rewrite bool_decide_true.
        -- apply bool_decide_eq_false in Hk. rewrite bool_decide_false; [done|].
           by intros [_ ?].
Qed.

(** X10. [removeSestina] removes from the group every combination with the
    given key and nothing else.  If the group holds no such combination
    the state is returned as it is.  On a sound ledger that holds the key
    in that group, the ledger loses exactly that key. *)
Theorem X10_removeSestina_frees_the_key (groupId key0 : string) (st : AppState) :
  (∀ g, g ∈ groups (removeSestina groupId key0 st) → id g = groupId →
        key0 ∉ key <$> sestine g) ∧
  ((∀ g, g ∈ groups st → id g = groupId → key0 ∉ key <$> sestine g) →
   removeSestina groupId key0 st = st) ∧
  (ledgerOk st →
   (∃ g, g ∈ groups st ∧ id g = groupId ∧ key0 ∈ key <$> sestine g) →
   globalKeys (removeSestina groupId key0 st) = globalKeys st ∖ {[key0]} ∧
   S (length (allKeys (removeSestina groupId key0 st))) = length (allKeys st)).
Proof.
  assert (Hfilter : ∀ l : list Sestina,
            key0 ∉ key <$> List.filter (λ s, negb (bool_decide (key s = key0))) l).
  { intros l Hin. apply list_elem_of_fmap in Hin as (s & Hs & Hin).
    apply list_elem_of_In, filter_In in Hin as [_ Hp].
    apply negb_true_iff, bool_decide_eq_false in Hp. by apply Hp. }
  assert (Hsame : ∀ l : list Sestina,
            key0 ∉ key <$> l → List.filter (λ s, negb (bool_decide (key s = key0))) l = l).
  { induction l as [|s l IH]; intros Hnot; simpl; [done|].
    rewrite fmap_cons in Hnot. apply not_elem_of_cons in Hnot as [Hne Hnot].
    rewrite bool_decide_false by done. simpl. by rewrite IH. }
  split_and!.
  - intros g Hg Hid. unfold removeSestina in Hg. simpl in Hg.
    apply list_elem_of_fmap in Hg as (x & -> & Hx).
    case_bool_decide; [simpl; apply Hfilter|]. simpl in Hid. done.
  - intros Hnone. destruct st as [gs ss]. unfold removeSestina. simpl in *. f_equal.
    rewrite <- (list_fmap_id gs) at 2. apply list_fmap_ext. intros j g Hj. simpl.
    case_bool_decide as Hid; [|done].
    rewrite Hsame; [apply group_eta|].
    apply Hnone; [|done]. by eapply list_elem_of_lookup_2.
  - intros [Hk Hi] (g & Hg & Hid & Hin).
    set (f := λ g : Group,
           if bool_decide (id g = groupId)
           then {| id := id g; name := name g; groupCreatedAt := groupCreatedAt g;
                   sestine := List.filter (λ s, negb (bool_decide (key s = key0))) (sestine g);
                   events := events g |}
           else g).
    destruct (keysOf_update f g (groups st) Hi Hg) as (A & B & HA & HB).
    { intros x Hx. unfold f. rewrite bool_decide_false; [done|]. congruence. }
    assert (Hfg : sestine (f g)
                  = List.filter (λ s, negb (bool_decide (key s = key0))) (sestine g))
      by (unfold f; by rewrite bool_decide_true).
    rewrite Hfg in HB.
    assert (Hsplit : ∀ l : list Sestina, NoDup (key <$> l) → key0 ∈ key <$> l →
              key <$> l ≡ₚ key0 :: (key <$> List.filter (λ s, negb (bool_decide (key s = key0))) l)).
    { induction l as [|s l IH]; intros Hnd Hl; simpl; [by apply elem_of_nil in Hl|].
      rewrite fmap_cons in Hnd, Hl. apply NoDup_cons in Hnd as [Hs Hnd].
      destruct (decide (key s = key0)) as [Heq|Hne].
      - rewrite bool_decide_true by done. simpl. rewrite Hsame; [by rewrite Heq|].
        by rewrite <- Heq.
      - rewrite bool_decide_false by done. simpl.
        apply elem_of_cons in Hl as [?|Hl]; [congruence|].
        rewrite (IH Hnd Hl). apply perm_swap. }
    unfold allKeys in *. rewrite HA in Hk.
    assert (Hndg : NoDup (key <$> sestine g)).
    { apply NoDup_app in Hk as (_ & _ & Hk). by apply NoDup_app in Hk as (Hk & _). }
    assert (Hold : keysOf (groups st)
                   ≡ₚ key0 :: keysOf (groups (removeSestina groupId key0 st))).
    { unfold removeSestina. simpl. fold f. rewrite HA, HB, (Hsplit _ Hndg Hin).
      solve_Permutation. }
    split.
    + rewrite !globalKeys_allKeys. unfold allKeys. apply set_eq. intros x.
      rewrite elem_of_difference, !elem_of_list_to_set, Hold, elem_of_cons, elem_of_singleton.
      rewrite <- HA, Hold in Hk. apply NoDup_cons in Hk as [Hk _].
      split; [intros Hx; split; [by right|]; by intros ->|intros [[?|?] ?]; done].
    + by rewrite Hold.
Qed.

Lemma X10_removeSestina_frees_the_key_witness :
  let st := scenarioState true twoGroups in
  elements (globalKeys (removeSestina "g2" "1-14-21-24-43-50" st))
    = elements (globalKeys st ∖ {["1-14-21-24-43-50"]}) ∧
  removeSestina "g2" "1-2-3-4-5-6" st = st.
Proof.
  intros st.
  destruct (X10_removeSestina_frees_the_key "g2" "1-14-21-24-43-50" st) as (_ & _ & Hfree).
  destruct (X10_removeSestina_frees_the_key "g2" "1-2-3-4-5-6" st) as (_ & Hsame & _).
  split.
  - destruct Hfree as [-> _]; [| |done].
    + split; apply (bool_decide_unpack _); vm_compute; exact I.
    + eexists. split; [apply list_elem_of_further, list_elem_of_here|].
      split; [done|]. apply list_elem_of_here.
  - apply Hsame. intros g Hg Hid.
    repeat (apply elem_of_cons in Hg as [->|Hg]; [try done|]).
    + apply (bool_decide_unpack _). vm_compute. exact I.
    + by apply elem_of_nil in Hg.
Defined.

(** ** Numbers, their decimal text and combination keys *)

Lemma append_empty_r (s : string) : s +:+ EmptyString = s.
Proof. induction s as [|a s IH]; [done|]. change (String a (s +:+ EmptyString) = String a s). by rewrite IH. Qed.

Lemma append_assoc (a b c : string) : (a +:+ b) +:+ c = a +:+ (b +:+ c).
Proof.
  induction a as [|x a IH]; [done|].
  change (String x ((a +:+ b) +:+ c) = String x (a +:+ (b +:+ c))). by rewrite IH.
Qed.

Lemma lt_sorted_unique (l1 l2 : list Z) :
  StronglySorted Z.lt l1 → StronglySorted Z.lt l2 → l1 ≡ₚ l2 → l1 = l2.
Proof. apply StronglySorted_unique_strong. intros; lia. Qed.

Lemma digitRuns_digits (d cur rest : string) :
  allDigits d = true → digitRuns cur (d +:+ rest) = digitRuns (cur +:+ d) rest.
Proof.
  revert cur. induction d as [|a d IH]; intros cur Hd; simpl in *.
  - by rewrite append_empty_r.
  - apply andb_true_iff in Hd as [Ha Hd]. rewrite Ha, IH by done.
    by rewrite append_assoc.
Qed.

Lemma append_nonempty (a b : string) : b ≠ EmptyString → a +:+ b ≠ EmptyString.
Proof. destruct a; simpl; [done|]. intros _. discriminate. Qed.

Lemma digitRuns_one (d : string) :
  allDigits d = true → d ≠ EmptyString → digitRuns EmptyString d = [d].
Proof.
  intros Hd Hne. rewrite <- (append_empty_r d) at 1.
  rewrite digitRuns_digits by done. simpl. by rewrite decide_False.
Qed.

Lemma digitRuns_join (l : list string) :
  Forall (λ d, allDigits d = true ∧ d ≠ EmptyString) l →
  digitRuns EmptyString (JS.join "-" l) = l.
Proof.
  induction 1 as [|d l [Hd Hne] Hl IH]; [done|].
  destruct l as [|d' l].
  - simpl. by apply digitRuns_one.
  - change (JS.join "-" (d :: d' :: l)) with (d +:+ "-" +:+ JS.join "-" (d' :: l)).
    rewrite digitRuns_digits by done.
    change (digitRuns (EmptyString +:+ d) ("-" +:+ JS.join "-" (d' :: l)))
      with ((if decide (d = EmptyString) then [] else [d])
              ++ digitRuns EmptyString (JS.join "-" (d' :: l))).
    rewrite IH. by rewrite decide_False.
Qed.

Lemma pretty_N_char_digit (x : N) : isDigit (pretty_N_char x) = true.
Proof.
  destruct x as [|p]; [done|].
  repeat (destruct p as [p|p|]; try reflexivity).
Qed.

Lemma pretty_N_char_value (x : N) :
  (x < 10)%N → Z.of_N (Ascii.N_of_ascii (pretty_N_char x)) - 48 = Z.of_N x.
Proof.
  intros Hx.
  assert (x = 0 ∨ x = 1 ∨ x = 2 ∨ x = 3 ∨ x = 4 ∨ x = 5 ∨ x = 6 ∨ x = 7 ∨ x = 8 ∨ x = 9)%N
    as Hc by lia.
  repeat (destruct Hc as [->|Hc]; [reflexivity|]). by subst.
Qed.

Lemma pretty_N_go_digits (x : N) (s : string) :
  allDigits s = true → allDigits (pretty_N_go x s) = true.
Proof.
  revert s. induction (N.lt_wf_0 x) as [x _ IH]; intros s Hs.
  destruct (decide (x = 0%N)) as [->|Hx]; [done|].
  rewrite pretty_N_go_step by lia. apply IH.
  - apply N.div_lt; lia.
  - simpl. by rewrite pretty_N_char_digit.
Qed.

Lemma pretty_N_go_nonempty (x : N) (s : string) :
  s ≠ EmptyString → pretty_N_go x s ≠ EmptyString.
Proof.
  revert s. induction (N.lt_wf_0 x) as [x _ IH]; intros s Hs.
  destruct (decide (x = 0%N)) as [->|Hx]; [done|].
  rewrite pretty_N_go_step by lia. apply IH; [apply N.div_lt; lia|done].
Qed.

Lemma pretty_N_go_number (x : N) (s : string) :
  numberFrom 0 (pretty_N_go x s) = numberFrom (Z.of_N x) s.
Proof.
  revert s. induction (N.lt_wf_0 x) as [x _ IH]; intros s.
  destruct (decide (x = 0%N)) as [->|Hx]; [done|].
  rewrite pretty_N_go_step by lia. rewrite IH by (apply N.div_lt; lia).
  simpl. f_equal. rewrite pretty_N_char_value by (apply N.mod_lt; lia).
  rewrite (N.div_mod x 10) at 3 by lia. lia.
Qed.

(** The text of a non-negative integer is a non-empty run of digits
    that reads back as the integer. *)
Lemma numToString_digits (n : Z) :
  0 ≤ n →
  allDigits (JS.numToString n) = true ∧ JS.numToString n ≠ EmptyString ∧
  digitsToNumber (JS.numToString n) = n.
Proof.
  intros Hn. unfold JS.numToString, digitsToNumber.
  destruct n as [|p|p]; [done| |lia].
  change (pretty (Z.pos p)) with (pretty_N_go (N.pos p) EmptyString).
  split_and!.
  - by apply pretty_N_go_digits.
  - rewrite pretty_N_go_step by lia. by apply pretty_N_go_nonempty.
  - by rewrite pretty_N_go_number.
Qed.

Lemma key_reads_back (l : list Z) :
  Forall (λ n, 0 ≤ n) l →
  digitsToNumber <$> digitRuns EmptyString (JS.join "-" (JS.numToString <$> l)) = l.
Proof.
  intros Hl. rewrite digitRuns_join.
  - rewrite <- list_fmap_compose. rewrite <- (list_fmap_id l) at 2.
    apply Forall_fmap_ext_1. eapply Forall_impl; [exact Hl|].
    intros n Hn. simpl. by apply numToString_digits.
  - apply Forall_fmap. eapply Forall_impl; [exact Hl|].
    intros n Hn. simpl. destruct (numToString_digits n Hn) as (? & ? & _). done.
Qed.

(** X11. Two lists of non-negative numbers have the same key exactly when
    they hold the same numbers once sorted: distinct combinations never
    share a key, and the order in which the numbers are given does not
    matter. *)
Theorem X11_key_identifies_combination (a b : list Z) :
  Forall (λ n, 0 ≤ n) a → Forall (λ n, 0 ≤ n) b →
  (sestinaKey a = sestinaKey b ↔ normalizeNums a = normalizeNums b) ∧
  (a ≡ₚ b → sestinaKey a = sestinaKey b).
Proof.
  intros Ha Hb. split; [split|].
  - intros Hkey. unfold sestinaKey in Hkey.
    rewrite <- (key_reads_back (normalizeNums a)), <- (key_reads_back (normalizeNums b)).
    + by rewrite Hkey.
    + by rewrite normalizeNums_perm.
    + by rewrite normalizeNums_perm.
  - unfold sestinaKey. by intros ->.
  - intros Hperm. unfold sestinaKey. f_equal. f_equal.
    apply (StronglySorted_unique Z.le); try apply normalizeNums_le_sorted.
    by rewrite !normalizeNums_perm.
Qed.

Lemma X11_key_identifies_combination_witness :
  sestinaKey [43; 7; 1; 24; 21; 14] = sestinaKey [1; 7; 14; 21; 24; 43] ∧
  sestinaKey [1; 7; 14; 21; 24; 43] = "1-7-14-21-24-43".
Proof.
  split; [|vm_compute; reflexivity].
  apply (X11_key_identifies_combination [43; 7; 1; 24; 21; 14] [1; 7; 14; 21; 24; 43]).
  - repeat constructor; lia.
  - repeat constructor; lia.
  - apply (bool_decide_unpack _). vm_compute. exact I.
Defined.

Lemma clampNumList_elem (values : string) (n : Z) :
  n ∈ clampNumList values ↔
  1 ≤ n ≤ 90 ∧ n ∈ digitsToNumber <$> digitRuns EmptyString values.
Proof.
  unfold clampNumList. cbv zeta.
  change (JS.sortBy (λ a b, a - b)) with normalizeNums.
  rewrite normalizeNums_elem, elem_of_elements, elem_of_list_to_set.
  rewrite list_elem_of_In, filter_In, <- list_elem_of_In.
  rewrite andb_true_iff, Z.leb_le, Z.leb_le. tauto.
Qed.

Lemma clampNumList_sorted (values : string) : StronglySorted Z.lt (clampNumList values).
Proof. apply normalizeNums_lt_sorted, NoDup_elements. Qed.

Lemma lt_sorted_range_length (l : list Z) (lo hi : Z) :
  StronglySorted Z.lt l → Forall (λ n, lo ≤ n ≤ hi) l →
  Z.of_nat (length l) ≤ Z.max 0 (hi - lo + 1).
Proof.
  intros Hs. revert lo. induction Hs as [|x xs Hxs IH Hall]; intros lo Hr; simpl; [lia|].
  apply Forall_cons in Hr as [Hx Hr].
  assert (Forall (λ n, x + 1 ≤ n ≤ hi) xs) as Hr'.
  { rewrite Forall_forall in *. intros y Hy. specialize (Hall y Hy). specialize (Hr y Hy). lia. }
  specialize (IH _ Hr'). lia.
Qed.

(** X12. [clampNumList] returns the numbers between 1 and 90 written in
    the text, each once, in strictly ascending order (so at most 90 of
    them), whatever separates them.  [parseSixUnique] accepts exactly
    when there are six and then returns them; otherwise it reports how
    many there were.  [parseOptionalOne] returns the smallest, if any. *)
Theorem X12_input_parsing (values : string) :
  StronglySorted Z.lt (clampNumList values) ∧
  (∀ n, n ∈ clampNumList values ↔
        1 ≤ n ≤ 90 ∧ ∃ run, run ∈ digitRuns EmptyString values ∧ digitsToNumber run = n) ∧
  (length (clampNumList values) ≤ 90)%nat ∧
  (parseSixUnique values =
     if decide (length (clampNumList values) = 6%nat)
     then ParsedOk (clampNumList values)
     else ParsedError (length (clampNumList values))) ∧
  (∀ n, parseOptionalOne values = Some n ↔
        n ∈ clampNumList values ∧ ∀ k, k ∈ clampNumList values → n ≤ k) ∧
  (parseOptionalOne values = None ↔ clampNumList values = []).
Proof.
  pose proof (clampNumList_sorted values) as Hs.
  split_and!.
  - done.
  - intros n. rewrite clampNumList_elem, list_elem_of_fmap.
    split; intros [Hr (run & H1 & H2)]; (split; [done|]); exists run; by split.
  - enough (Z.of_nat (length (clampNumList values)) ≤ Z.max 0 (90 - 1 + 1)) by lia.
    apply lt_sorted_range_length; [done|].
    apply Forall_forall. intros n Hn. by apply clampNumList_elem in Hn as [? _].
  - unfold parseSixUnique. cbv zeta. do 2 case_decide; done.
  - intros n. unfold parseOptionalOne. cbv zeta.
    destruct (clampNumList values) as [|x xs] eqn:Heq; simpl.
    + split; [done|]. intros [Hin _]. by apply elem_of_nil in Hin.
    + apply StronglySorted_inv in Hs as [_ Hall]. rewrite Forall_forall in Hall.
      split.
      * intros [= ->]. split; [apply list_elem_of_here|].
        intros k [->|Hk]%elem_of_cons; [lia|]. specialize (Hall k Hk). lia.
      * intros [[->|Hin]%elem_of_cons Hmin]; [done|].
        specialize (Hall n Hin). specialize (Hmin x (list_elem_of_here _ _)). lia.
  - unfold parseOptionalOne. cbv zeta.
    destruct (clampNumList values) as [|x xs]; simpl; split; done.
Qed.

(** X13. A key read as an input gives back its combination: for distinct
    numbers between 1 and 90, [clampNumList] of their key is the sorted
    list, and for six of them [parseSixUnique] accepts it. *)
Theorem X13_key_parses_back (nums : list Z) :
  NoDup nums → Forall (λ n, 1 ≤ n ≤ 90) nums →
  clampNumList (sestinaKey nums) = normalizeNums nums ∧
  (length nums = 6%nat → parseSixUnique (sestinaKey nums) = ParsedOk (normalizeNums nums)).
Proof.
  intros Hnd Hr.
  assert (Hclamp : clampNumList (sestinaKey nums) = normalizeNums nums).
  { apply lt_sorted_unique;
      [apply clampNumList_sorted|by apply normalizeNums_lt_sorted|].
    apply NoDup_Permutation.
    - unfold clampNumList. cbv zeta. change (JS.sortBy (λ a b, a - b)) with normalizeNums.
      rewrite normalizeNums_perm. apply NoDup_elements.
    - by rewrite normalizeNums_perm.
    - intros n. rewrite clampNumList_elem. unfold sestinaKey.
      rewrite key_reads_back.
      + rewrite normalizeNums_elem. rewrite Forall_forall in Hr. naive_solver.
      + rewrite normalizeNums_perm. eapply Forall_impl; [exact Hr|]. simpl. lia. }
  split; [done|]. intros Hlen. unfold parseSixUnique. cbv zeta. rewrite Hclamp.
  rewrite normalizeNums_length, Hlen. done.
Qed.

Lemma X13_key_parses_back_witness :
  clampNumList "1-7-14-21-24-43" = [1; 7; 14; 21; 24; 43] ∧
  clampNumList "90, 7 e 007; poi 91 0 12x3" = [3; 7; 12; 90].
Proof.
  split; [|vm_compute; reflexivity].
  apply (X13_key_parses_back [1; 7; 14; 21; 24; 43]).
  - apply (bool_decide_unpack _). vm_compute. exact I.
  - repeat constructor; lia.
Defined.

(** ** Checking a group against a draw *)

Section ValidateFacts.
Context {Euro : Type} (euroOfZ : Z → Euro) (euroAdd : Euro → Euro → Euro).
Context (localeCompare : string → string → Z).

Lemma parseSixUnique_ok (input : string) (draw : list Z) :
  parseSixUnique input = ParsedOk draw →
  draw = clampNumList input ∧ length draw = 6%nat.
Proof.
  unfold parseSixUnique. cbv zeta. case_decide as Hlen; [done|].
  intros [= <-]. by split.
Qed.

Lemma clampNumList_NoDup (values : string) : NoDup (clampNumList values).
Proof.
  unfold clampNumList. cbv zeta. change (JS.sortBy (λ a b, a - b)) with normalizeNums.
  rewrite normalizeNums_perm. apply NoDup_elements.
Qed.

(** X14. Checking a draw never touches a combination.  Without a selected
    group, or when the draw field does not hold exactly six different
    numbers between 1 and 90, the state is returned as it is and no
    report is made (the second case reports the number found).
    Otherwise the only change is one [validate] event, carrying the six
    numbers in ascending order, at the head of the events of the
    selected group. *)
Theorem X14_validation_only_logs (sc : Scope) (drawInput jollyInput superstarInput : string)
    (jackpotEuro : Euro) (now : Z) (prevError : option nat)
    (prevResult : option (@ValidationResult Euro)) :
  let r := validateAgainstGroup euroOfZ euroAdd localeCompare sc drawInput jollyInput
             superstarInput jackpotEuro now prevError prevResult in
  (λ g, (id g, name g, groupCreatedAt g, sestine g)) <$> groups (val_state r)
    = (λ g, (id g, name g, groupCreatedAt g, sestine g)) <$> groups (state sc) ∧
  settings (val_state r) = settings (state sc) ∧
  (selectedGroup sc = None → r = {| val_state := state sc; val_error := prevError;
                                    val_result := prevResult |}) ∧
  (selectedGroup sc ≠ None → length (clampNumList drawInput) ≠ 6%nat →
     r = {| val_state := state sc; val_error := Some (length (clampNumList drawInput));
            val_result := prevResult |}) ∧
  (∀ g, selectedGroup sc = Some g → length (clampNumList drawInput) = 6%nat →
     val_error r = None ∧
     StronglySorted Z.lt (clampNumList drawInput) ∧
     Forall (λ n, 1 ≤ n ≤ 90) (clampNumList drawInput) ∧
     events <$> groups (val_state r)
       = (λ x, if bool_decide (id x = id g)
               then EvValidate now (clampNumList drawInput) (parseOptionalOne jollyInput)
                      (parseOptionalOne superstarInput) :: events x
               else events x) <$> groups (state sc)).
Proof.
  intros r. subst r. unfold validateAgainstGroup.
  destruct (selectedGroup sc) as [g|] eqn:Hsel; [|by split_and!].
  destruct (parseSixUnique drawInput) as [draw|found] eqn:Hparse.
  - apply parseSixUnique_ok in Hparse as [-> Hlen]. cbv zeta. simpl. split_and!.
    + rewrite <- list_fmap_compose. apply list_fmap_ext. intros j x _. simpl.
      by case_bool_decide.
    + done.
    + done.
    + intros _ Hne. done.
    + intros g' [= <-] _. split_and!; [done|apply clampNumList_sorted| |].
      * apply Forall_forall. intros n Hn. by apply clampNumList_elem in Hn as [? _].
      * rewrite <- list_fmap_compose. apply list_fmap_ext. intros j x _. simpl.
        case_bool_decide; [by rewrite bool_decide_false|by rewrite bool_decide_true].
  - unfold parseSixUnique in Hparse. cbv zeta in Hparse.
    case_decide as Hlen; [|done]. injection Hparse as <-. simpl. by split_and!.
Qed.

Lemma fold_countPrize_total (rows : list ValidationRow) (pc : PrizeCounts) :
  prizeTotal (fold_left countPrize rows pc) = prizeTotal pc + Z.of_nat (length rows).
Proof.
  revert pc. induction rows as [|r rows IH]; intros pc; simpl; [lia|].
  rewrite IH. unfold countPrize, prizeTotal.
  repeat (case_decide || destruct (_ && _)); simpl; lia.
Qed.

Lemma fold_countHits_lookup (rows : list ValidationRow) (counts : gmap Z Z) (h : Z) :
  default 0 (fold_left countHits rows counts !! h)
  = default 0 (counts !! h)
    + Z.of_nat (length (List.filter (λ r, bool_decide (hits r = h)) rows)).
Proof.
  revert counts. induction rows as [|r rows IH]; intros counts; simpl; [lia|].
  rewrite IH. unfold countHits. case_bool_decide as Hh; simpl.
  - subst h. rewrite lookup_insert_eq. simpl. lia.
  - rewrite lookup_insert_ne by done. lia.
Qed.

Lemma hits_bound (draw : list Z) (jolly superstar : option Z) (s : Sestina) :
  NoDup draw → NoDup (nums s) →
  0 ≤ hits (validationRow draw jolly superstar s) ≤ Z.of_nat (length draw) ∧
  hits (validationRow draw jolly superstar s) ≤ Z.of_nat (length (nums s)).
Proof.
  intros Hd Hn. unfold validationRow. cbv zeta. simpl.
  set (l := List.filter _ (nums s)).
  assert (Hsub : l `sublist_of` nums s) by apply filter_sublist.
  assert (Hl : NoDup l) by (by eapply sublist_NoDup).
  assert (Hin : l ⊆+ draw).
  { apply NoDup_submseteq; [done|]. intros x Hx.
    apply list_elem_of_In, filter_In in Hx as [_ Hx].
    apply bool_decide_eq_true in Hx. by apply elem_of_list_to_set in Hx. }
  apply submseteq_length in Hin. apply sublist_length in Hsub. lia.
Qed.

(** X15. The report of an accepted draw accounts for every combination
    of the group once: its rows are the rows of the combinations in some
    order, the seven prize counts add up to the number of combinations,
    and [counts] holds for each number of hits how many rows have it.
    The hits of a row are the numbers of the combination that are in the
    draw; for a combination without repeated numbers they are at most
    six and at most its length. *)
Theorem X15_validation_report_tallies (sc : Scope) (drawInput jollyInput superstarInput : string)
    (jackpotEuro : Euro) (now : Z) (prevError : option nat)
    (prevResult : option (@ValidationResult Euro)) (g : Group) :
  selectedGroup sc = Some g → length (clampNumList drawInput) = 6%nat →
  ∃ res,
    val_result (validateAgainstGroup euroOfZ euroAdd localeCompare sc drawInput jollyInput
                  superstarInput jackpotEuro now prevError prevResult) = Some res ∧
    vrDraw res = clampNumList drawInput ∧
    vrRows res ≡ₚ validationRow (vrDraw res) (vrJolly res) (vrSuperstar res) <$> sestine g ∧
    prizeTotal (vrPrizeCounts res) = Z.of_nat (length (sestine g)) ∧
    (∀ h, default 0 (vrCounts res !! h)
          = Z.of_nat (length (List.filter (λ r, bool_decide (hits r = h)) (vrRows res)))) ∧
    (∀ r, r ∈ vrRows res →
       hitNums r = List.filter (λ n, bool_decide (n ∈ vrDraw res)) (rowNums r) ∧
       hits r = Z.of_nat (length (hitNums r)) ∧
       (NoDup (rowNums r) → 0 ≤ hits r ≤ 6 ∧ hits r ≤ Z.of_nat (length (rowNums r)))).
Proof.
  intros Hsel Hlen. unfold validateAgainstGroup. rewrite Hsel.
  unfold parseSixUnique. cbv zeta. rewrite decide_False by (by intros ?).
  eexists. split; [reflexivity|]. simpl.
  set (draw := clampNumList drawInput).
  set (rows := validationRow draw _ _ <$> sestine g).
  assert (Hperm : JS.sortBy (compareRows localeCompare) rows ≡ₚ rows)
    by apply merge_sort_Permutation.
  split_and!.
  - done.
  - done.
  - rewrite fold_countPrize_total. unfold rows. rewrite length_fmap. done.
  - intros h. rewrite fold_countHits_lookup.
    assert (Hf : ∀ l1 l2 : list ValidationRow, l1 ≡ₚ l2 →
              length (List.filter (λ r, bool_decide (hits r = h)) l1)
              = length (List.filter (λ r, bool_decide (hits r = h)) l2)).
    { induction 1 as [|x l1 l2 _ IH|x y l|l1 l2 l3 _ IH1 _ IH2]; simpl; try done.
      - destruct (bool_decide _); simpl; by rewrite IH.
      - by do 2 destruct (bool_decide _).
      - by rewrite IH1. }
    rewrite (Hf _ _ Hperm).
    enough (default 0 (noCounts !! h) = 0) by lia.
    unfold noCounts. simpl.
    repeat match goal with
           | |- context [<[?k:=_]> _ !! h] =>
               destruct (decide (k = h)) as [<-|?];
               [by rewrite lookup_insert_eq|rewrite lookup_insert_ne by done]
           end.
    by rewrite lookup_empty.
  - intros r Hr. rewrite Hperm in Hr. apply list_elem_of_fmap in Hr as (s & -> & Hs).
    split_and!.
    + simpl. apply filter_ext. intros n. apply bool_decide_ext.
      by rewrite elem_of_list_to_set.
    + done.
    + intros Hnd. simpl in Hnd.
      destruct (hits_bound draw (parseOptionalOne jollyInput)
                  (parseOptionalOne superstarInput) s) as [H1 H2]; [|done|].
      * apply clampNumList_NoDup.
      * fold draw in Hlen. rewrite Hlen in H1. split; [lia|done].
Qed.

End ValidateFacts.

Lemma X15_validation_report_tallies_witness :
  ∃ res,
    val_result (validateAgainstGroup (λ z, z) Z.add compareBytes
                  (scenarioScope true twoGroups 1 cFree) "1 2 3 10 20 30" "4" EmptyString
                  1000000 7000 None None) = Some res ∧
    vrDraw res = [1; 2; 3; 10; 20; 30] ∧
    prizeTotal (vrPrizeCounts res) = 2 ∧
    (λ res, (vrEstimatedTotalEuro res, hits <$> vrRows res, jollyHit <$> vrRows res,
             rowKey <$> vrRows res)) <$> Some res
      = Some (50, [3; 3], [false; true], ["10-20-30-40-50-60"; "1-2-3-4-5-6"]).
Proof.
  destruct (X15_validation_report_tallies (λ z, z) Z.add compareBytes
              (scenarioScope true twoGroups 1 cFree) "1 2 3 10 20 30" "4" EmptyString
              1000000 7000 None None groupSix)
    as (res & Hres & Hdraw & _ & Htotal & _); [reflexivity|vm_compute; reflexivity|].
  exists res. split; [exact Hres|]. split; [rewrite Hdraw; vm_compute; reflexivity|].
  split; [rewrite Htotal; reflexivity|].
  rewrite <- Hres. vm_compute. reflexivity.
Defined.

(** ** Statistics *)

Lemma list_merge_fmap {A B} (f : A → B) (RA : relation A) (RB : relation B)
    `{∀ x y, Decision (RA x y)} `{∀ x y, Decision (RB x y)} (l1 l2 : list A) :
  (∀ x y, RB (f x) (f y) ↔ RA x y) →
  list_merge RB (f <$> l1) (f <$> l2) = f <$> list_merge RA l1 l2.
Proof.
  intros Hf. revert l2. induction l1 as [|x1 l1 IH1]; intros l2; [by destruct l2|].
  induction l2 as [|x2 l2 IH2]; [done|].
  rewrite !fmap_cons. simpl. rewrite (decide_ext _ _ _ _ (Hf x1 x2)).
  destruct (decide (RA x1 x2)); simpl; f_equal.
  - apply (IH1 (x2 :: l2)).
  - apply IH2.
Qed.

Lemma merge_list_to_stack_fmap {A B} (f : A → B) (RA : relation A) (RB : relation B)
    `{∀ x y, Decision (RA x y)} `{∀ x y, Decision (RB x y)}
    (st : list (option (list A))) (l : list A) :
  (∀ x y, RB (f x) (f y) ↔ RA x y) →
  merge_list_to_stack RB ((λ o : option (list A), (λ l : list A, f <$> l) <$> o) <$> st) (f <$> l)
  = (λ o : option (list A), (λ l : list A, f <$> l) <$> o) <$> merge_list_to_stack RA st l.
Proof.
  intros Hf. revert l. induction st as [|[l'|] st IH]; intros l; simpl; [done| |done].
  f_equal. rewrite <- IH. f_equal. by apply list_merge_fmap.
Qed.

Lemma merge_stack_fmap {A B} (f : A → B) (RA : relation A) (RB : relation B)
    `{∀ x y, Decision (RA x y)} `{∀ x y, Decision (RB x y)}
    (st : list (option (list A))) :
  (∀ x y, RB (f x) (f y) ↔ RA x y) →
  merge_stack RB ((λ o : option (list A), (λ l : list A, f <$> l) <$> o) <$> st) = f <$> merge_stack RA st.
Proof.
  intros Hf. induction st as [|[l'|] st IH]; simpl; [done| |].
  - etrans; [|by apply (list_merge_fmap f RA RB)]. f_equal. exact IH.
  - exact IH.
Qed.

Lemma merge_sort_fmap {A B} (f : A → B) (RA : relation A) (RB : relation B)
    `{∀ x y, Decision (RA x y)} `{∀ x y, Decision (RB x y)} (l : list A) :
  (∀ x y, RB (f x) (f y) ↔ RA x y) →
  merge_sort RB (f <$> l) = f <$> merge_sort RA l.
Proof.
  intros Hf. unfold merge_sort.
  change [] with ((λ o : option (list A), (λ l : list A, f <$> l) <$> o) <$> ([] : list (option (list A)))) at 1.
  generalize ([] : list (option (list A))) as st.
  induction l as [|x l IH]; intros st; simpl; [by apply merge_stack_fmap|].
  rewrite <- IH. f_equal.
  by rewrite <- (merge_list_to_stack_fmap f RA RB st [x]).
Qed.

(** Sorting commutes with a map that preserves the comparator. *)
Lemma sortBy_fmap {A B} (f : A → B) (cmpA : A → A → Z) (cmpB : B → B → Z) (l : list A) :
  (∀ x y, cmpB (f x) (f y) = cmpA x y) →
  JS.sortBy cmpB (f <$> l) = f <$> JS.sortBy cmpA l.
Proof.
  intros Hf. unfold JS.sortBy. apply merge_sort_fmap. intros x y. by rewrite Hf.
Qed.

Lemma fold_bump_lookup (l : list Z) (freq : gmap Z Cell) (n k : Z) :
  freq !! n = Some (Count k) →
  fold_left bump l freq !! n
  = Some (Count (k + Z.of_nat (length (List.filter (λ x, bool_decide (x = n)) l)))).
Proof.
  revert freq k. induction l as [|x l IH]; intros freq k Hk; simpl.
  - rewrite Hk. do 2 f_equal. lia.
  - case_bool_decide as Hx; simpl.
    + subst x. rewrite (IH _ (k + 1)).
      * do 2 f_equal. lia.
      * unfold bump. by rewrite lookup_insert_eq, Hk.
    + apply IH. unfold bump. by rewrite lookup_insert_ne.
Qed.

Lemma fold_bump_outside (l : list Z) (freq : gmap Z Cell) (n : Z) :
  (freq !! n = None ∨ freq !! n = Some NaN) →
  fold_left bump l freq !! n = if bool_decide (n ∈ l) then Some NaN else freq !! n.
Proof.
  revert freq. induction l as [|x l IH]; intros freq Hn; simpl; [done|].
  destruct (decide (x = n)) as [->|Hx].
  - rewrite bool_decide_true by apply list_elem_of_here.
    rewrite IH.
    + unfold bump. rewrite lookup_insert_eq. destruct Hn as [-> | ->]; by case_bool_decide.
    + right. unfold bump. rewrite lookup_insert_eq. by destruct Hn as [-> | ->].
  - rewrite IH by (unfold bump; by rewrite lookup_insert_ne).
    unfold bump. rewrite lookup_insert_ne by done.
    rewrite (bool_decide_ext (n ∈ x :: l) (n ∈ l)); [done|].
    rewrite elem_of_cons. naive_solver.
Qed.

Lemma zeros_lookup (n : Z) :
  zeros !! n = if bool_decide (0 ≤ n ≤ 90) then Some (Count 0) else None.
Proof.
  assert (Hfst : ((λ i, (i, Count 0)) <$> seqZ 0 (MAX_NUM + 1)).*1 = seqZ 0 (MAX_NUM + 1))
    by (vm_compute; reflexivity).
  unfold zeros. case_bool_decide as Hn.
  - apply elem_of_list_to_map.
    + rewrite Hfst. apply NoDup_seqZ.
    + apply list_elem_of_fmap. exists n. split; [done|]. apply elem_of_seqZ.
      unfold MAX_NUM. lia.
  - apply not_elem_of_list_to_map_1. rewrite Hfst, elem_of_seqZ. unfold MAX_NUM. lia.
Qed.

Lemma frequencyMap_lookup (sestine : list Sestina) (n : Z) :
  0 ≤ n ≤ 90 → frequencyMap sestine !! n = Some (Count (occurrences n sestine)).
Proof.
  intros Hn. unfold frequencyMap, occurrences.
  assert (Hgen : ∀ ss freq k, freq !! n = Some (Count k) →
            fold_left (λ freq s, fold_left bump (nums s) freq) ss freq !! n
            = Some (Count (k + Z.of_nat (length (List.filter (λ x, bool_decide (x = n))
                                                   (concat (nums <$> ss))))))).
  { induction ss as [|s ss IH]; intros freq k Hk; simpl.
    - rewrite Hk. do 2 f_equal. lia.
    - rewrite (IH _ _ (fold_bump_lookup (nums s) freq n k Hk)).
      rewrite List.filter_app, length_app. f_equal. f_equal.
      rewrite Nat2Z.inj_add, Z.add_assoc. reflexivity. }
  rewrite (Hgen sestine zeros 0); [done|].
  rewrite zeros_lookup. by rewrite bool_decide_true.
Qed.

Lemma elem_of_concat_nums (n : Z) (ss : list Sestina) :
  n ∈ concat (nums <$> ss) ↔ ∃ s, s ∈ ss ∧ n ∈ nums s.
Proof.
  rewrite list_elem_of_In, in_concat. split.
  - intros (l & Hl & Hin). apply list_elem_of_In, list_elem_of_fmap in Hl as (s & -> & Hs).
    exists s. split; [done|by apply list_elem_of_In].
  - intros (s & Hs & Hin). exists (nums s).
    split; apply list_elem_of_In; [apply list_elem_of_fmap; eauto|done].
Qed.

(** X16. [frequencyMap] counts, for every index from 0 to 90, how often
    the number occurs in the combinations; an index outside that range
    holds [NaN] once a combination contains it and is absent otherwise.
    [missingNumbers] lists, in ascending order, exactly the numbers from
    1 to 90 that occur in no combination. *)
Theorem X16_frequencies_and_missing (sestine : list Sestina) :
  (∀ n, 0 ≤ n ≤ 90 → frequencyMap sestine !! n = Some (Count (occurrences n sestine))) ∧
  (∀ n, ¬ 0 ≤ n ≤ 90 →
        frequencyMap sestine !! n
        = if bool_decide (n ∈ concat (nums <$> sestine)) then Some NaN else None) ∧
  (∀ n, n ∈ missingNumbers (frequencyMap sestine) ↔
        1 ≤ n ≤ 90 ∧ ∀ s, s ∈ sestine → n ∉ nums s) ∧
  StronglySorted Z.lt (missingNumbers (frequencyMap sestine)).
Proof.
  split_and!.
  - apply frequencyMap_lookup.
  - intros n Hn. unfold frequencyMap.
    assert (Hgen : ∀ ss freq, (freq !! n = None ∨ freq !! n = Some NaN) →
              fold_left (λ freq s, fold_left bump (nums s) freq) ss freq !! n
              = if bool_decide (n ∈ concat (nums <$> ss)) then Some NaN else freq !! n).
    { induction ss as [|s ss IH]; intros freq Hf; simpl; [done|].
      pose proof (fold_bump_outside (nums s) freq n Hf) as Hs.
      assert (Hc : n ∈ concat (nums <$> s :: ss) ↔ n ∈ nums s ∨ n ∈ concat (nums <$> ss))
        by (rewrite fmap_cons; simpl; apply elem_of_app).
      rewrite IH by (rewrite Hs; case_bool_decide; [by right|done]).
      rewrite Hs. repeat case_bool_decide; try done; tauto. }
    rewrite Hgen by (left; rewrite zeros_lookup; by rewrite bool_decide_false).
    rewrite zeros_lookup, (bool_decide_false (0 ≤ n ≤ 90)) by done.
    done.
  - intros n. unfold missingNumbers.
    rewrite list_elem_of_In, filter_In, <- list_elem_of_In, elem_of_seqZ.
    rewrite bool_decide_eq_true. unfold MIN_NUM, MAX_NUM.
    split.
    + intros [Hr Hz]. split; [lia|]. rewrite frequencyMap_lookup in Hz by lia.
      injection Hz as Hz. unfold occurrences in Hz.
      intros s Hs Hin.
      assert (n ∈ List.filter (λ x, bool_decide (x = n)) (concat (nums <$> sestine))) as Hocc.
      { apply list_elem_of_In, filter_In. split; [|by apply bool_decide_eq_true].
        apply list_elem_of_In, elem_of_concat_nums. eauto. }
      destruct (List.filter _ _); [by apply elem_of_nil in Hocc|simpl in Hz; lia].
    + intros [Hr Hnone]. split; [lia|]. rewrite frequencyMap_lookup by lia.
      do 2 f_equal. unfold occurrences.
      destruct (List.filter _ _) as [|x l] eqn:Hf; [done|].
      assert (x ∈ List.filter (λ x, bool_decide (x = n)) (concat (nums <$> sestine))) as Hx
        by (rewrite Hf; apply list_elem_of_here).
      apply list_elem_of_In, filter_In in Hx as [Hx Hxn].
      apply bool_decide_eq_true in Hxn. subst x.
      apply list_elem_of_In, elem_of_concat_nums in Hx as (s & Hs & Hin).
      by destruct (Hnone s Hs).
  - unfold missingNumbers.
    assert (Hs : StronglySorted Z.lt (seqZ MIN_NUM (MAX_NUM - MIN_NUM + 1))).
    { apply (bool_decide_unpack _). vm_compute. exact I. }
    revert Hs. generalize (seqZ MIN_NUM (MAX_NUM - MIN_NUM + 1)).
    induction 1 as [|x xs Hxs IH Hall]; simpl; [constructor|].
    destruct (bool_decide _); [|done]. constructor; [done|].
    rewrite Forall_forall in Hall |- *. intros y Hy. apply Hall.
    by apply list_elem_of_In, filter_In in Hy as [?%list_elem_of_In _].
Qed.

Lemma StronglySorted_weaken {A} (R1 R2 : relation A) (l : list A) :
  (∀ x y, R1 x y → R2 x y) → StronglySorted R1 l → StronglySorted R2 l.
Proof.
  intros HR. induction 1 as [|x xs Hxs IH Hall]; constructor; [done|].
  eapply Forall_impl; [exact Hall|]. intros y. apply HR.
Qed.

(** The entries of [topNumbers], before the slice, for the array of
    [frequencyMap]: the pairs of a number and its count, sorted. *)
Lemma topNumbers_sorted (sestine : list Sestina) :
  ∃ sorted : list (Z * Z),
    (∀ k, topNumbers (frequencyMap sestine) k
          = slice0 (default 10 k)
              ((λ p, {| topN := p.1; topCount := Some (Count p.2) |}) <$> sorted)) ∧
    sorted ≡ₚ (λ n, (n, occurrences n sestine)) <$> seqZ 1 90 ∧
    StronglySorted ranksBefore sorted.
Proof.
  set (cmp := λ a b : Z * Z, if decide (b.2 - a.2 ≠ 0) then b.2 - a.2 else a.1 - b.1).
  set (pairs := (λ n, (n, occurrences n sestine)) <$> seqZ 1 90).
  exists (JS.sortBy cmp pairs). split_and!.
  - intros k. unfold topNumbers. cbv zeta. f_equal.
    rewrite <- (sortBy_fmap _ cmp compareTop).
    + f_equal. unfold pairs. rewrite <- list_fmap_compose.
      apply Forall_fmap_ext_1, Forall_forall. intros n Hn. simpl.
      apply elem_of_seqZ in Hn. unfold MIN_NUM in Hn.
      rewrite frequencyMap_lookup by (unfold MAX_NUM in Hn; lia). done.
    + intros x y. reflexivity.
  - apply merge_sort_Permutation.
  - apply (StronglySorted_weaken (λ a b, cmp a b ≤ 0)).
    + intros x y. unfold cmp, ranksBefore. case_decide; lia.
    + apply StronglySorted_merge_sort.
      * intros x y z. unfold cmp. repeat case_decide; lia.
      * intros x y. unfold cmp. repeat case_decide; lia.
Qed.

(** X17. For the frequencies of a list of combinations and [k >= 0],
    [topNumbers] returns [min(k, 90)] different numbers between 1 and 90
    with their counts, the more frequent first and, among equally
    frequent ones, the smaller first; every number it leaves out ranks
    after every number it returns. *)
Theorem X17_topNumbers_ranks (sestine : list Sestina) (k : Z) :
  0 ≤ k →
  let top := topNumbers (frequencyMap sestine) (Some k) in
  let rank := λ n, (n, occurrences n sestine) in
  length top = Z.to_nat (Z.min k 90) ∧
  (∀ e, e ∈ top →
     1 ≤ topN e ≤ 90 ∧ topCount e = Some (Count (occurrences (topN e) sestine))) ∧
  NoDup (topN <$> top) ∧
  StronglySorted ranksBefore ((λ e, rank (topN e)) <$> top) ∧
  (∀ n e, 1 ≤ n ≤ 90 → n ∉ topN <$> top → e ∈ top → ranksBefore (rank (topN e)) (rank n)).
Proof.
  intros Hk top rank. subst top.
  destruct (topNumbers_sorted sestine) as (sorted & Htop & Hperm & Hsorted).
  rewrite (Htop (Some k)). simpl. unfold slice0. rewrite decide_False by lia.
  rewrite <- fmap_take.
  set (kept := take (Z.to_nat k) sorted).
  assert (Hsplit : sorted = kept ++ drop (Z.to_nat k) sorted)
    by (symmetry; apply take_drop).
  assert (Hpair : ∀ p, p ∈ sorted → 1 ≤ p.1 ≤ 90 ∧ p = rank p.1).
  { intros p Hp. rewrite Hperm in Hp. apply list_elem_of_fmap in Hp as (n & -> & Hn).
    apply elem_of_seqZ in Hn. simpl. split; [lia|done]. }
  assert (Hkept : ∀ p, p ∈ kept → p ∈ sorted).
  { intros p Hp. rewrite Hsplit. apply elem_of_app. by left. }
  assert (Hranks : (λ e, rank (topN e))
                     <$> ((λ p, {| topN := p.1; topCount := Some (Count p.2) |}) <$> kept)
                   = kept).
  { rewrite <- list_fmap_compose. rewrite <- (list_fmap_id kept) at 2.
    apply Forall_fmap_ext_1, Forall_forall. intros p Hp. simpl.
    by destruct (Hpair p (Hkept p Hp)) as [_ <-]. }
  assert (Hfst : topN <$> ((λ p, {| topN := p.1; topCount := Some (Count p.2) |}) <$> kept)
                 = kept.*1).
  { rewrite <- list_fmap_compose. done. }
  assert (Hnd : NoDup (sorted.*1)).
  { rewrite Hperm. rewrite <- list_fmap_compose.
    apply (bool_decide_unpack _). vm_compute. exact I. }
  split_and!.
  - rewrite length_fmap. unfold kept. rewrite length_take.
    assert (length sorted = 90%nat) as -> by (rewrite Hperm, length_fmap; reflexivity).
    lia.
  - intros e He. apply list_elem_of_fmap in He as (p & -> & Hp). simpl.
    destruct (Hpair p (Hkept p Hp)) as [Hr Heq]. split; [done|].
    do 2 f_equal. rewrite Heq at 1. done.
  - rewrite Hfst. rewrite Hsplit, fmap_app in Hnd. by apply NoDup_app in Hnd as [? _].
  - rewrite Hranks. rewrite Hsplit in Hsorted. by apply StronglySorted_app_1_l in Hsorted.
  - intros n e Hn Hout He. apply list_elem_of_fmap in He as (p & -> & Hp). simpl.
    destruct (Hpair p (Hkept p Hp)) as [_ <-].
    rewrite Hfst in Hout.
    assert (Hin : rank n ∈ sorted).
    { rewrite Hperm. apply list_elem_of_fmap. exists n. split; [done|].
      apply elem_of_seqZ. lia. }
    rewrite Hsplit in Hin, Hsorted. apply elem_of_app in Hin as [Hin|Hin].
    + destruct Hout. apply list_elem_of_fmap. exists (rank n). by split.
    + by eapply StronglySorted_app_1_elem_of.
Qed.

Lemma X17_topNumbers_ranks_witness :
  topN <$> topNumbers (frequencyMap (concat (sestine <$> twoGroups))) (Some 3) = [1; 50; 2] ∧
  length (topNumbers (frequencyMap (concat (sestine <$> twoGroups))) (Some 3)) = 3%nat ∧
  length (missingNumbers (frequencyMap (concat (sestine <$> twoGroups)))) = 74%nat.
Proof.
  split; [vm_compute; reflexivity|]. split; [|vm_compute; reflexivity].
  destruct (X17_topNumbers_ranks (concat (sestine <$> twoGroups)) 3) as [Hlen _]; [lia|].
  exact Hlen.
Defined.

(** ** More tickets *)

Lemma Qcpower_anti (a : Qc) (k1 k2 : nat) :
  (0 ≤ a)%Qc → (a ≤ 1)%Qc → (k1 ≤ k2)%nat → (a ^ k2 ≤ a ^ k1)%Qc.
Proof.
  intros H0 H1 Hk. induction Hk as [|k2 Hk IH]; [apply Qcle_refl|].
  eapply Qcle_trans; [|exact IH]. simpl.
  rewrite <- (Qcmult_1_l (a ^ k2)) at 2.
  apply Qcmult_le_compat_r; [done|]. by apply Qcpower_pos.
Qed.

Lemma atLeastDistribution_mono (k1 k2 : nat) :
  (k1 ≤ k2)%nat →
  Forall2 (λ e1 e2, m e1 = m e2 ∧ (p e1 ≤ p e2)%Qc)
          (atLeastDistribution k1) (atLeastDistribution k2).
Proof.
  intros Hk. rewrite !atLeastDistribution_entries.
  apply Forall2_fmap, Forall_Forall2_diag, Forall_forall. intros x Hx. simpl.
  split; [done|].
  assert (1 ≤ x ≤ 6) as Hr.
  { repeat (apply elem_of_cons in Hx as [->|Hx]; [lia|]). by apply elem_of_nil in Hx. }
  destruct (CDF_bounds x Hr) as [Hpos Hlt].
  apply one_minus_anti, Qcpower_anti; [by apply Qclt_le_weak..|done].
Qed.

(** X18. The chances shown for a group never fall when combinations are
    added: for a selected group that is not empty and a selected group
    with at least as many combinations, both get a table, with the same
    rows, and each probability of the larger group is at least that of
    the smaller one.  Without a selected group, or with an empty one,
    there is no table. *)
Theorem X18_more_combinations_never_lower_chances (sc1 sc2 : Scope) (g1 g2 : Group) :
  selectedGroup sc1 = Some g1 → selectedGroup sc2 = Some g2 →
  sestine g1 ≠ [] → (length (sestine g1) ≤ length (sestine g2))%nat →
  (∃ d1 d2, groupBestDist sc1 = Some d1 ∧ groupBestDist sc2 = Some d2 ∧
            Forall2 (λ e1 e2, m e1 = m e2 ∧ (p e1 ≤ p e2)%Qc) d1 d2) ∧
  (∀ sc, (selectedGroup sc = None ∨ ∃ g, selectedGroup sc = Some g ∧ sestine g = []) →
         groupBestDist sc = None).
Proof.
  intros Hs1 Hs2 Hne Hlen. split.
  - unfold groupBestDist. rewrite Hs1, Hs2. cbv zeta.
    assert (0 < length (sestine g1))%nat by (destruct (sestine g1); [done|simpl; lia]).
    rewrite !decide_False by lia.
    eexists _, _. split; [reflexivity|]. split; [reflexivity|].
    by apply atLeastDistribution_mono.
  - intros sc [Hnone|(g & Hg & Hempty)]; unfold groupBestDist.
    + by rewrite Hnone.
    + by rewrite Hg, Hempty.
Qed.

Lemma X18_more_combinations_never_lower_chances_witness :
  ∃ d1 d2,
    groupBestDist (scenarioScopeOn "g2" twoGroups) = Some d1 ∧
    groupBestDist (scenarioScopeOn "g1" twoGroups) = Some d2 ∧
    Forall2 (λ e1 e2, m e1 = m e2 ∧ (p e1 ≤ p e2)%Qc) d1 d2.
Proof.
  refine (proj1 (X18_more_combinations_never_lower_chances
                   (scenarioScopeOn "g2" twoGroups) (scenarioScopeOn "g1" twoGroups)
                   (nth 1 twoGroups groupSix) groupSix _ _ _ _)).
  - reflexivity.
  - reflexivity.
  - discriminate.
  - simpl. lia.
Defined.

(** ** The state of [mulberry32] *)

Lemma toInt32_mod (x : Z) : JS.toInt32 x mod JS.two32 = x mod JS.two32.
Proof.
  unfold JS.toInt32, JS.two32.
  rewrite Zminus_mod, Z.mod_mod by lia. rewrite <- Zminus_mod.
  f_equal. lia.
Qed.

Lemma toInt32_range (x : Z) : -2147483648 ≤ JS.toInt32 x < 2147483648.
Proof.
  unfold JS.toInt32, JS.two32.
  pose proof (Z.mod_pos_bound (x + 2147483648) 4294967296). lia.
Qed.

Lemma toInt32_eq (x y : Z) :
  JS.toInt32 x = JS.toInt32 y ↔ x mod JS.two32 = y mod JS.two32.
Proof.
  split.
  - intros Heq. by rewrite <- (toInt32_mod x), <- (toInt32_mod y), Heq.
  - unfold JS.toInt32, JS.two32. intros Heq.
    rewrite (Zplus_mod x), (Zplus_mod y), Heq. done.
Qed.

Lemma mulberry32_next (a : Z) :
  (Rng.mulberry32_call a).2 = JS.toInt32 (JS.toInt32 a + 1831565813).
Proof. reflexivity. Qed.

Lemma mulberry32_state_mod (seed : Z) (n : nat) :
  mulberry32_state seed n mod JS.two32 = (seed + Z.of_nat n * 1831565813) mod JS.two32.
Proof.
  induction n as [|n IH].
  - unfold mulberry32_state, Rng.mulberry32, JS.toUint32. simpl.
    rewrite Z.mod_mod by (unfold JS.two32; lia). f_equal. lia.
  - unfold mulberry32_state in *. rewrite Nat.iter_succ.
    rewrite mulberry32_next.
    rewrite toInt32_mod, Zplus_mod, toInt32_mod, IH, <- Zplus_mod.
    f_equal. lia.
Qed.

(** X19. The state of [mulberry32] is a counter: after [n] calls it is
    the seed plus [n] times [0x6D2B79F5], as a 32-bit integer.  So the
    generator has no short cycle: the states after [n1] and after [n2] calls
    are equal exactly when [n1] and [n2] differ by a multiple of [2^32]. *)
Theorem X19_mulberry32_full_period (seed : Z) (n1 n2 : nat) :
  (0 < n1)%nat → (0 < n2)%nat →
  mulberry32_state seed n1 = JS.toInt32 (seed + Z.of_nat n1 * 1831565813) ∧
  (mulberry32_state seed n1 = mulberry32_state seed n2
     ↔ (Z.of_nat n1 - Z.of_nat n2) mod JS.two32 = 0).
Proof.
  assert (Hclosed : ∀ n, (0 < n)%nat →
            mulberry32_state seed n = JS.toInt32 (seed + Z.of_nat n * 1831565813)).
  { intros n Hn. destruct n as [|n]; [lia|].
    unfold mulberry32_state. rewrite Nat.iter_succ, mulberry32_next.
    apply toInt32_eq. rewrite Zplus_mod, toInt32_mod.
    fold (mulberry32_state seed n). rewrite mulberry32_state_mod, <- Zplus_mod.
    f_equal. lia. }
  intros H1 H2. split; [by apply Hclosed|].
  rewrite !Hclosed by done. rewrite toInt32_eq.
  assert (Hgcd : Z.gcd JS.two32 1831565813 = 1) by (vm_compute; reflexivity).
  split.
  - intros Heq. apply Z.mod_divide; [unfold JS.two32; lia|].
    apply (Z.gauss _ 1831565813); [|done].
    apply Z.mod_divide; [unfold JS.two32; lia|].
    replace (1831565813 * (Z.of_nat n1 - Z.of_nat n2))
      with ((seed + Z.of_nat n1 * 1831565813) - (seed + Z.of_nat n2 * 1831565813)) by lia.
    rewrite Zminus_mod, Heq, Z.sub_diag. done.
  - intros Hdiv. apply Z.mod_divide in Hdiv as [q Hq]; [|unfold JS.two32; lia].
    replace (seed + Z.of_nat n1 * 1831565813)
      with ((seed + Z.of_nat n2 * 1831565813) + (q * 1831565813) * JS.two32) by lia.
    apply Z_mod_plus_full.
Qed.

Lemma X19_mulberry32_full_period_witness :
  mulberry32_state 4000000000 2 = -926802966 ∧
  mulberry32_state 4000000000 2 ≠ mulberry32_state 4000000000 1.
Proof.
  destruct (X19_mulberry32_full_period 4000000000 2 1) as [Hstate Hiff]; [lia..|].
  split.
  - rewrite Hstate. vm_compute. reflexivity.
  - intros Heq. apply Hiff in Heq. vm_compute in Heq. discriminate.
Defined.

(** ** Superstition *)

Lemma dedupeFrom_elem (xs : list Z) : ∀ (seen : gset Z) (x : Z),
  x ∈ dedupeFrom seen xs ↔ x ∈ xs ∧ x ∉ seen.
Proof.
  induction xs as [|y xs IH]; intros seen x; simpl.
  - rewrite elem_of_nil. tauto.
  - case_decide as Hy.
    + rewrite IH, elem_of_cons. split; [tauto|]. intros [[->|?] ?]; tauto.
    + rewrite !elem_of_cons, IH. rewrite not_elem_of_union, not_elem_of_singleton.
      destruct (decide (x = y)) as [->|?]; tauto.
Qed.

Lemma dedupe_elem (xs : list Z) (x : Z) : x ∈ dedupe xs ↔ x ∈ xs.
Proof. unfold dedupe. rewrite dedupeFrom_elem. set_solver. Qed.

Lemma dedupeFrom_NoDup (xs : list Z) : ∀ seen : gset Z, NoDup (dedupeFrom seen xs).
Proof.
  induction xs as [|y xs IH]; intros seen; simpl; [constructor|].
  case_decide; [apply IH|]. apply NoDup_cons. split; [|apply IH].
  rewrite dedupeFrom_elem. set_solver.
Qed.

Lemma dedupeFrom_length (xs : list Z) : ∀ seen : gset Z,
  (length (dedupeFrom seen xs) ≤ length xs)%nat.
Proof.
  induction xs as [|y xs IH]; intros seen; simpl; [lia|].
  case_decide; simpl; [specialize (IH seen)|specialize (IH ({[y]} ∪ seen))]; lia.
Qed.

Lemma sorted_dedupe_elem (xs : list Z) (x : Z) :
  x ∈ JS.sortBy (λ a b, a - b) (dedupe xs) ↔ x ∈ xs.
Proof.
  change (JS.sortBy (λ a b, a - b)) with normalizeNums.
  by rewrite normalizeNums_elem, dedupe_elem.
Qed.

Lemma numberFrom_nonneg (s : string) : ∀ acc,
  allDigits s = true → 0 ≤ acc → 0 ≤ numberFrom acc s.
Proof.
  induction s as [|a s IH]; intros acc Hs Hacc; simpl in *; [done|].
  apply andb_true_iff in Hs as [Ha Hs]. apply IH; [done|].
  unfold isDigit in Ha. apply andb_true_iff in Ha as [Ha _].
  apply N.leb_le in Ha. lia.
Qed.

Lemma matchBirthDate_nonneg (date : string) (y mo d : Z) :
  matchBirthDate date = Some (y, mo, d) → 0 ≤ y ∧ 0 ≤ mo ∧ 0 ≤ d.
Proof.
  unfold matchBirthDate.
  repeat (destruct date as [|? date]; try done).
  cbv zeta. destruct (allDigits _) eqn:Hy; [|done].
  destruct (allDigits (String a4 _)) eqn:Hm; [|done].
  destruct (allDigits (String a7 _)) eqn:Hd; [|done].
  simpl andb. destruct (_ && _); [|done]. intros [= <- <- <-].
  split_and!; by apply numberFrom_nonneg.
Qed.

Lemma wrap90_range (n : Z) : 0 ≤ n → 0 ≤ wrap90 n ≤ 90 ∧ (wrap90 n = 0 ↔ n = 0).
Proof.
  intros Hn. unfold wrap90. destruct (decide (n = 0)) as [->|Hne]; [by vm_compute|].
  rewrite Z.rem_mod_nonneg by lia.
  pose proof (Z.mod_pos_bound (n - 1) 90). lia.
Qed.

Lemma wrap90_id (n : Z) : 1 ≤ n ≤ 90 → wrap90 n = n.
Proof.
  intros Hn. unfold wrap90. rewrite Z.rem_mod_nonneg by lia.
  rewrite Z.mod_small by lia. lia.
Qed.

Lemma orElse90_pos (n : Z) : 0 ≤ n → 1 ≤ orElse90 n.
Proof. intros Hn. unfold orElse90. case_decide; lia. Qed.

(** X20. The lucky numbers of a birth date are at most five numbers
    between 0 and 90 in strictly ascending order.  They contain the day
    and the month when these lie between 1 and 90, and they contain 0
    exactly when the day, the month or the two-digit year is 0.  A text
    that is not of the form [dddd-dd-dd], or no date, gives none. *)
Theorem X20_birth_date_lucky_numbers (date : string) :
  StronglySorted Z.lt (birthDateToLucky (Some date)) ∧
  (length (birthDateToLucky (Some date)) ≤ 5)%nat ∧
  (∀ x, x ∈ birthDateToLucky (Some date) → 0 ≤ x ≤ 90) ∧
  (matchBirthDate date = None → birthDateToLucky (Some date) = []) ∧
  birthDateToLucky None = [] ∧
  (∀ y mo d, matchBirthDate date = Some (y, mo, d) →
     (0 ∈ birthDateToLucky (Some date) ↔ d = 0 ∨ mo = 0 ∨ Z.rem y 100 = 0) ∧
     (1 ≤ d ≤ 90 → d ∈ birthDateToLucky (Some date)) ∧
     (1 ≤ mo ≤ 90 → mo ∈ birthDateToLucky (Some date))).
Proof.
  unfold birthDateToLucky.
  destruct (decide (date = EmptyString)) as [->|Hne].
  { split_and!; try done; [constructor|simpl; lia|by intros x ?%elem_of_nil]. }
  destruct (matchBirthDate date) as [[[y mo] d]|] eqn:Hmatch.
  2:{ split_and!; try done; [constructor|simpl; lia|by intros x ?%elem_of_nil]. }
  destruct (matchBirthDate_nonneg _ _ _ _ Hmatch) as (Hy & Hmo & Hd).
  cbv zeta.
  set (arr := wrap90 <$> _).
  assert (Hy100 : 0 ≤ Z.rem y 100) by (apply Z.rem_nonneg; lia).
  assert (H4 : 1 ≤ orElse90 (Z.rem (d + mo) 90))
    by (apply orElse90_pos, Z.rem_nonneg; lia).
  assert (H5 : 1 ≤ orElse90 (Z.rem (d + Z.rem y 100) 90))
    by (apply orElse90_pos, Z.rem_nonneg; lia).
  assert (Harr : ∀ x, x ∈ arr ↔
            x = wrap90 d ∨ x = wrap90 mo ∨ x = wrap90 (Z.rem y 100) ∨
            x = wrap90 (orElse90 (Z.rem (d + mo) 90)) ∨
            x = wrap90 (orElse90 (Z.rem (d + Z.rem y 100) 90))).
  { intros x. unfold arr. rewrite !fmap_cons, !elem_of_cons, fmap_nil, elem_of_nil. tauto. }
  split_and!.
  - apply normalizeNums_lt_sorted, dedupeFrom_NoDup.
  - change (JS.sortBy (λ a b, a - b)) with normalizeNums.
    rewrite normalizeNums_length. etrans; [apply dedupeFrom_length|]. done.
  - intros x Hx. apply sorted_dedupe_elem, Harr in Hx.
    destruct Hx as [->|[->|[->|[->| ->]]]]; apply wrap90_range; lia.
  - done.
  - done.
  - intros y' mo' d' [= <- <- <-]. split_and!.
    + rewrite sorted_dedupe_elem, Harr.
      pose proof (wrap90_range d Hd) as [_ Hd0].
      pose proof (wrap90_range mo Hmo) as [_ Hmo0].
      pose proof (wrap90_range _ Hy100) as [_ Hy0].
      pose proof (wrap90_range (orElse90 (Z.rem (d + mo) 90))) as [_ H40]; [lia|].
      pose proof (wrap90_range (orElse90 (Z.rem (d + Z.rem y 100) 90))) as [_ H50]; [lia|].
      split.
      * intros [Hx|[Hx|[Hx|[Hx|Hx]]]]; symmetry in Hx.
        -- left. by apply Hd0.
        -- right. left. by apply Hmo0.
        -- right. right. by apply Hy0.
        -- apply H40 in Hx. lia.
        -- apply H50 in Hx. lia.
      * intros [Hz|[Hz|Hz]].
        -- left. symmetry. by apply Hd0.
        -- right. left. symmetry. by apply Hmo0.
        -- right. right. left. symmetry. by apply Hy0.
    + intros Hr. apply sorted_dedupe_elem, Harr. left. by rewrite wrap90_id.
    + intros Hr. apply sorted_dedupe_elem, Harr. right. left. by rewrite wrap90_id.
Qed.

Section MemoFacts.
Context {R : Type} `{RNG R} {W : Type}.

(** X21. Combinations generated under the constraints of the memo respect
    the settings: none contains a number of [exclude] or, with
    superstition on, an unlucky number; each contains every number of
    [mustInclude]; and when [mustIncludeAnyOf] or, with superstition on,
    the lucky numbers (those of the birth date included) are not empty,
    each contains one of them. *)
Theorem X21_generated_combinations_respect_settings (s : ConstraintSettings)
    (fuel count : nat) (keys : gset string) (rngFactory : Z → W → R * W)
    (options : option Options) (now : Z) (w : W)
    (out : list Sestina) (keys' : gset string) (w' : W) :
  generateUniqueSestine fuel count keys rngFactory (constraintsMemo s) options now w
    = (Returned out, keys', w') →
  let lucky := if sSuperstitionEnabled s
               then luckyNumbers s ++ birthDateToLucky (birthDate s) else [] in
  ∀ comb, comb ∈ out →
    (∀ x, x ∈ sExclude s → x ∉ nums comb) ∧
    (sSuperstitionEnabled s = true → ∀ x, x ∈ unluckyNumbers s → x ∉ nums comb) ∧
    (∀ x, x ∈ sMustInclude s → x ∈ nums comb) ∧
    (sMustIncludeAnyOf s ++ lucky ≠ [] →
       ∃ x, x ∈ sMustIncludeAnyOf s ++ lucky ∧ x ∈ nums comb).
Proof.
  intros Hrun lucky comb Hcomb. unfold generateUniqueSestine in Hrun.
  apply slotsFrom_returned in Hrun as (new & -> & _ & _ & _ & _ & _ & Hall).
  simpl in Hcomb. destruct (Hall comb Hcomb) as (_ & _ & rng & rng' & Hgen).
  apply sampler_result_valid in Hgen as (_ & _ & Hmust & Hex & Hany & _).
  assert (Hanyof : ∀ x, x ∈ mustIncludeAnyOf (constraintsMemo s)
                        ↔ x ∈ sMustIncludeAnyOf s ++ lucky).
  { intros x. unfold constraintsMemo, lucky. cbv zeta. simpl.
    rewrite sorted_dedupe_elem, !elem_of_app.
    destruct (sSuperstitionEnabled s); simpl.
    - case_decide as Hlen.
      + by rewrite dedupe_elem, elem_of_app.
      + apply length_zero_iff_nil in Hlen.
        assert (Hnone : ∀ z, z ∉ luckyNumbers s ++ birthDateToLucky (birthDate s)).
        { intros z Hz. apply dedupe_elem in Hz. rewrite Hlen in Hz.
          by apply elem_of_nil in Hz. }
        specialize (Hnone x). rewrite elem_of_nil. tauto.
    - rewrite !elem_of_nil. tauto. }
  split_and!.
  - intros x Hx. apply Hex. unfold constraintsMemo. cbv zeta. simpl.
    apply sorted_dedupe_elem, elem_of_app. by left.
  - intros Hon x Hx. apply Hex. unfold constraintsMemo. cbv zeta. simpl.
    apply sorted_dedupe_elem, elem_of_app. right. by rewrite Hon.
  - apply Hmust.
  - intros Hne. destruct Hany as (x & Hx & Hin).
    + intros Hnil. destruct (sMustIncludeAnyOf s ++ lucky) as [|z l] eqn:Heq; [done|].
      assert (z ∈ mustIncludeAnyOf (constraintsMemo s)) as Hz
        by (apply Hanyof, list_elem_of_here).
      rewrite Hnil in Hz. by apply elem_of_nil in Hz.
    + exists x. split; [by apply Hanyof|done].
Qed.

End MemoFacts.

Lemma X21_generated_combinations_respect_settings_witness :
  let run := generateUniqueSestine 40 2 ∅ plainFactory (constraintsMemo superstitious)
               None 0 () in
  birthDateToLucky (birthDate superstitious) = [0; 2; 29; 31] ∧
  constraintsMemo superstitious
    = {| exclude := [13; 17; 90]; mustInclude := [7]; mustIncludeAnyOf := [0; 2; 3; 29; 31] |} ∧
  ∀ comb, comb ∈ returnedOr [] run.1.1 →
    (∀ x, x ∈ unluckyNumbers superstitious → x ∉ nums comb) ∧
    ∃ x, x ∈ [3; 0; 2; 29; 31] ∧ x ∈ nums comb.
Proof.
  intros run.
  assert (Hout : run.1.1 = Returned (returnedOr [] run.1.1)) by (vm_compute; reflexivity).
  pose proof (outcome_triple_eta run _ Hout) as Hrun.
  split; [vm_compute; reflexivity|]. split; [vm_compute; reflexivity|].
  intros comb Hcomb.
  destruct (X21_generated_combinations_respect_settings superstitious _ _ _ _ _ _ _ _ _ _
              Hrun comb Hcomb) as (_ & Hunlucky & _ & Hany).
  split; [by apply Hunlucky|]. by apply Hany.
Defined.
